(** * Pathfinder: parking recommendation and re-routing

    A shallow embedding of the two programs of the repository,

    - [backend/realtime_parking_system.py] (module [Realtime]): the
      socket server with user accounts, the balanced scorer, the
      availability simulator and the re-route dispatcher;
    - [backend/parking_finder_v2.py] (module [FinderV2]): the HTTP
      endpoint, its simulator and the navigation loop with the throttled
      notifications;

    followed by the properties the specification states about them and
    by further properties of the code.

    Conventions of the embedding.

    - Python [float]s are read as real numbers ([R]): rounding, overflow,
      [nan] and [inf] are not represented.  Python [int]s are [Z].
      Two modules leave this reading where a property turns on what it
      hides: [Doubles] (with [RealtimeDoubles]) keeps the infinities and
      [nan] apart from the finite numbers, for requests whose numbers
      are not finite, and [Binary64] computes [haversine] on IEEE
      doubles, for what rounding does to it.
    - Module-level mutable state ([parking_spots], [users_db],
      [user_recommendations], [parking_lock]) is one explicit [world]
      value threaded through a small state monad; [socketio.emit] appends
      to an outbox carried by the same value.
    - [threading.Lock] is not re-entrant.  The embedding follows one
      thread at a time, and records whether that thread is inside a
      [with parking_lock:] block; entering a second one from inside
      never returns, which is the outcome [Blocked].
    - [time.time()] reads the [clock] field of the world, and
      [random.randint] / [random.choice] results are arguments. *)

From Stdlib Require Import Reals Lra Lia ZArith.
From Stdlib Require PrimFloat.
From stdpp Require Import base decidable option list sorting gmap strings.

#[local] Open Scope R_scope.

(** ** Python builtins on numbers and lists *)

Module Py.

#[global] Instance Rlt_rel_dec : RelDecision Rlt := Rlt_dec.
#[global] Instance Rgt_rel_dec : RelDecision Rgt := Rgt_dec.
#[global] Instance Rle_rel_dec : RelDecision Rle := Rle_dec.
#[global] Instance Rge_rel_dec : RelDecision Rge := Rge_dec.
#[global] Instance R_eq_dec : EqDecision R := Req_dec_T.

(** [int(x)] on a float: truncation towards zero. *)
Definition int (x : R) : Z :=
  if decide (0 <= x) then Int_part x else (- Int_part (- x))%Z.

(** Nearest integer, ties to the even one. *)
Definition round_half_even (x : R) : Z :=
  let f := Int_part x in
  let r := x - IZR f in
  if decide (r < 1 / 2) then f
  else if decide (r > 1 / 2) then (f + 1)%Z
  else if Z.even f then f else (f + 1)%Z.

(** [x % m] for a positive [m]. *)
Definition fmod (x m : R) : R := x - m * IZR (Int_part (x / m)).

(** [round(x, ndigits)]. *)
Definition round (x : R) (ndigits : nat) : R :=
  IZR (round_half_even (x * 10 ^ ndigits)) / 10 ^ ndigits.

(** [l.sort(key=...)]: a stable sort, smallest key first.  [insert_by]
    puts an element before the first one whose key is not smaller, and
    [sort_by] inserts from the right, so that of two elements with the
    same key the one that came first stays first. *)
Fixpoint insert_by {A} (key : A -> R) (x : A) (l : list A) : list A :=
  match l with
  | [] => [x]
  | y :: l' =>
      if decide (key y < key x) then y :: insert_by key x l' else x :: y :: l'
  end.

Fixpoint sort_by {A} (key : A -> R) (l : list A) : list A :=
  match l with
  | [] => []
  | x :: l' => insert_by key x (sort_by key l')
  end.

(** The slice [l[:n]]: the first [n] elements, and for a negative [n]
    all but the last [-n]. *)
Definition slice_to {A} (n : Z) (l : list A) : list A :=
  if decide (0 <= n)%Z then take (Z.to_nat n) l
  else take (length l - Z.to_nat (- n)) l.

(** The slice [l[1:]]. *)
Definition slice_from_1 {A} (l : list A) : list A := drop 1 l.

(** A value received with a request: what JSON decodes to, or a query
    parameter (a [str], or [None] when it is missing). *)
Inductive pyval :=
  | PyNone
  | PyBool (b : bool)
  | PyNum (x : R)
  | PyStr (s : string)
  | PyContainer.   (* a list or an object *)

(** The exceptions that occur. *)
Inductive exn :=
  | KeyError (key : string)
  | TypeError
  | ValueError
  | OverflowError.

(** Statements of a [try] block run until the first one that raises. *)
#[global] Instance try_bind : MBind (sum exn) := λ A B f x,
  match x with
  | inl e => inl e
  | inr a => f a
  end.

(** [float(v)]; [float_of_str s] is [float(s)] for a [str]: the number
    it spells, or [None] where [float] raises [ValueError].  This is
    [float] on finite numbers: a text that spells an infinity or nan and
    a number beyond the doubles are left to [Doubles.float]. *)
Definition float (float_of_str : string -> option R) (v : pyval) : exn + R :=
  match v with
  | PyNone => inl TypeError
  | PyBool b => inr (if b then 1 else 0)
  | PyNum x => inr x
  | PyStr s => match float_of_str s with Some x => inr x | None => inl ValueError end
  | PyContainer => inl TypeError
  end.

End Py.

(** ** Texts shown to the user

    [format_distance] and [format_duration] are the same in both
    programs.  A text is kept as the numbers it shows. *)

Module Format.

Import Py.

(** ["{int(meters)}m"] or ["{round(meters/1000, 1)}km"]. *)
Inductive distance_text :=
  | Meters (m : Z)
  | Kilometers (km : R).

Definition format_distance (meters : R) : distance_text :=
  if decide (meters < 1000) then Meters (int meters)
  else Kilometers (round (meters / 1000) 1).

(** ["{s} sec"], ["{m} min"] or ["{h}h {m}m"]. *)
Inductive duration_text :=
  | Seconds (s : Z)
  | Minutes (m : Z)
  | HoursMinutes (h m : Z).

Definition format_duration (seconds : R) : duration_text :=
  if decide (seconds < 60) then Seconds (int seconds)
  else if decide (seconds < 3600) then Minutes (int (seconds / 60))
  else HoursMinutes (int (seconds / 3600)) (int (fmod seconds 3600 / 60)).

End Format.

(** ** Distances *)

Module Geo.

Import Py.

(** [math.radians]. *)
Definition radians (x : R) : R := x * (PI / 180).

(** [math.atan2 y x]: the angle of the point [(x, y)], in [(-PI, PI]]. *)
Definition atan2 (y x : R) : R :=
  if decide (0 < x) then atan (y / x)
  else if decide (x < 0) then
    if decide (0 <= y) then atan (y / x) + PI else atan (y / x) - PI
  else if decide (0 < y) then PI / 2
  else if decide (y < 0) then - (PI / 2)
  else 0.

(** [haversine(lat1, lon1, lat2, lon2)], in metres; the function is the
    same in both programs.  On real numbers it is total: the quantity
    [a] is between 0 and 1.  What it does with an infinity or nan is in
    [Doubles.haversine], and what rounding does to it in
    [Binary64.haversine]. *)
Definition haversine (lat1 lon1 lat2 lon2 : R) : R :=
  let R_ := 6371000 in
  let phi1 := radians lat1 in
  let phi2 := radians lat2 in
  let dphi := radians (lat2 - lat1) in
  let dlambda := radians (lon2 - lon1) in
  let a := sin (dphi / 2) ^ 2 + cos phi1 * cos phi2 * sin (dlambda / 2) ^ 2 in
  let c := 2 * atan2 (sqrt a) (sqrt (1 - a)) in
  R_ * c.

End Geo.

(** ** Distances in binary64

    [haversine] once more, on the doubles Python computes with.  The
    arithmetic and [math.sqrt] are those of IEEE 754; [math.sin],
    [math.cos], [math.atan2] and [**] call the C library, which is a
    parameter. *)

Module Binary64.

Import Py PrimFloat.

(** The functions of the C library. *)
Record libm := {
  c_sin : float -> float;
  c_cos : float -> float;
  c_atan2 : float -> float -> float;
  c_pow : float -> float -> float;
}.

(** The three values of these functions that are used below; the
    standard fixes them exactly: sin(+0) = +0, cos(+0) = 1 and
    atan2(+0, 1) = +0. *)
Definition exact_at_zero (m : libm) : Prop :=
  c_sin m 0%float = 0%float
  ∧ c_cos m 0%float = 1%float
  ∧ c_atan2 m 0%float 1%float = 0%float.

(** A function of one argument of the module [math]: [ValueError]
    ("math domain error") when the result is nan and the argument is
    not, or the result is infinite and the argument finite. *)
Definition math_1 (f : float -> float) (x : float) : exn + float :=
  let r := f x in
  if is_nan r && negb (is_nan x) then inl ValueError
  else if is_infinity r && is_finite x then inl ValueError
  else inr r.

(** [math.atan2(y, x)]. *)
Definition math_atan2 (m : libm) (y x : float) : exn + float :=
  let r := c_atan2 m y x in
  if is_nan r && negb (is_nan y) && negb (is_nan x) then inl ValueError
  else inr r.

(** [x ** 2] for a float [x]: nan for nan, infinity for an infinity, 0
    for a zero; otherwise the C library's [pow], and [OverflowError] when
    that is infinite. *)
Definition square (m : libm) (x : float) : exn + float :=
  if is_nan x then inr x
  else if is_infinity x then inr infinity
  else if is_zero x then inr 0%float
  else
    let r := c_pow m x 2%float in
    if is_infinity r then inl OverflowError else inr r.

(** [math.radians(x)]: [x] times the double nearest to pi / 180. *)
Definition radians (x : float) : float := (x * 0x1.1df46a2529d39p-6)%float.

(** [haversine(lat1, lon1, lat2, lon2)]. *)
Definition haversine (m : libm) (lat1 lon1 lat2 lon2 : float) : exn + float :=
  let R_ := 6371000%float in
  let phi1 := radians lat1 in
  let phi2 := radians lat2 in
  let dphi := radians (lat2 - lat1)%float in
  let dlambda := radians (lon2 - lon1)%float in
  s1 ← math_1 (c_sin m) (dphi / 2)%float;
  q1 ← square m s1;
  c1 ← math_1 (c_cos m) phi1;
  c2 ← math_1 (c_cos m) phi2;
  s2 ← math_1 (c_sin m) (dlambda / 2)%float;
  q2 ← square m s2;
  let a := (q1 + c1 * c2 * q2)%float in
  r1 ← math_1 sqrt a;
  r2 ← math_1 sqrt (1 - a)%float;
  t ← math_atan2 m r1 r2;
  inr (R_ * (2 * t))%float.

(** Zero, and the smallest positive double, which Python writes
    [5e-324]. *)
Definition zero : float := 0%float.
Definition smallest : float := 0x1p-1074%float.

(** A C library that is exact at zero (whatever it is elsewhere). *)
Definition plain_libm : libm :=
  {| c_sin := λ x, x; c_cos := λ _, 1%float; c_atan2 := λ y _, y; c_pow := λ x _, x |}.

End Binary64.

(** ** Numbers that are not finite

    [float] accepts more than finite numbers: the texts "inf" and
    "nan", and a JSON number such as [1e400], [Infinity] or [NaN], which
    arrives as an infinity or as nan; and for an integer too large for a
    double it raises [OverflowError].  Here are doubles with these
    values kept apart, and [haversine] on them.  A finite double is still
    read as a real number. *)

Module Doubles.

Import Py Geo.

(** A double: a finite number, an infinity, or nan. *)
Inductive double :=
  | Finite (x : R)
  | PosInf
  | NegInf
  | NaN.

(** The number of a double that is finite. *)
Definition number (x : double) : R :=
  match x with
  | Finite x => x
  | _ => 0
  end.

(** [x - y], [x + y] and [x * y]. *)
Definition sub (x y : double) : double :=
  match x, y with
  | NaN, _ | _, NaN => NaN
  | Finite x, Finite y => Finite (x - y)
  | PosInf, PosInf | NegInf, NegInf => NaN
  | PosInf, _ | _, NegInf => PosInf
  | NegInf, _ | _, PosInf => NegInf
  end.

Definition add (x y : double) : double :=
  match x, y with
  | NaN, _ | _, NaN => NaN
  | Finite x, Finite y => Finite (x + y)
  | PosInf, NegInf | NegInf, PosInf => NaN
  | PosInf, _ | _, PosInf => PosInf
  | NegInf, _ | _, NegInf => NegInf
  end.

(** An infinity times the finite number [y]. *)
Definition scaled (positive : bool) (y : R) : double :=
  if decide (y = 0) then NaN
  else if decide (0 < y) then (if positive then PosInf else NegInf)
  else (if positive then NegInf else PosInf).

Definition mul (x y : double) : double :=
  match x, y with
  | NaN, _ | _, NaN => NaN
  | Finite x, Finite y => Finite (x * y)
  | PosInf, Finite y | Finite y, PosInf => scaled true y
  | NegInf, Finite y | Finite y, NegInf => scaled false y
  | PosInf, PosInf | NegInf, NegInf => PosInf
  | PosInf, NegInf | NegInf, PosInf => NegInf
  end.

(** [x / 2]. *)
Definition half (x : double) : double :=
  match x with
  | Finite x => Finite (x / 2)
  | _ => x
  end.

(** [x ** 2]. *)
Definition square (x : double) : double :=
  match x with
  | Finite x => Finite (x ^ 2)
  | NaN => NaN
  | _ => PosInf
  end.

(** [x < y]: false when either is nan. *)
Definition lt (x y : double) : bool :=
  match x, y with
  | NaN, _ | _, NaN => false
  | Finite x, Finite y => bool_decide (x < y)
  | NegInf, NegInf | PosInf, _ | _, NegInf => false
  | NegInf, _ | _, PosInf => true
  end.

(** [math.radians]. *)
Definition radians (x : double) : double := mul x (Finite (PI / 180)).

(** [math.sin], [math.cos] and [math.sqrt]: nan for nan, and
    [ValueError] ("math domain error") outside the domain. *)
Definition math_sin (x : double) : exn + double :=
  match x with
  | Finite x => inr (Finite (sin x))
  | NaN => inr NaN
  | _ => inl ValueError
  end.

Definition math_cos (x : double) : exn + double :=
  match x with
  | Finite x => inr (Finite (cos x))
  | NaN => inr NaN
  | _ => inl ValueError
  end.

Definition math_sqrt (x : double) : exn + double :=
  match x with
  | Finite x => if decide (x < 0) then inl ValueError else inr (Finite (sqrt x))
  | PosInf => inr PosInf
  | NegInf => inl ValueError
  | NaN => inr NaN
  end.

(** [math.atan2(y, x)]. *)
Definition math_atan2 (y x : double) : double :=
  match y, x with
  | NaN, _ | _, NaN => NaN
  | Finite y, Finite x => Finite (atan2 y x)
  | Finite y, PosInf => Finite 0
  | Finite y, NegInf => Finite (if decide (y < 0) then - PI else PI)
  | PosInf, Finite _ => Finite (PI / 2)
  | NegInf, Finite _ => Finite (- (PI / 2))
  | PosInf, PosInf => Finite (PI / 4)
  | NegInf, PosInf => Finite (- (PI / 4))
  | PosInf, NegInf => Finite (3 * PI / 4)
  | NegInf, NegInf => Finite (- (3 * PI / 4))
  end.

(** [haversine(lat1, lon1, lat2, lon2)]. *)
Definition haversine (lat1 lon1 lat2 lon2 : double) : exn + double :=
  let R_ := Finite 6371000 in
  let phi1 := radians lat1 in
  let phi2 := radians lat2 in
  let dphi := radians (sub lat2 lat1) in
  let dlambda := radians (sub lon2 lon1) in
  s1 ← math_sin (half dphi);
  c1 ← math_cos phi1;
  c2 ← math_cos phi2;
  s2 ← math_sin (half dlambda);
  let a := add (square s1) (mul (mul c1 c2) (square s2)) in
  r1 ← math_sqrt a;
  r2 ← math_sqrt (sub (Finite 1) a);
  let c := mul (Finite 2) (math_atan2 r1 r2) in
  inr (mul R_ c).

(** A value received with a request: one of [pyval], or what a JSON
    number that is no finite double decodes to. *)
Inductive received :=
  | Plain (v : pyval)
  | Infinity (negative : bool)   (* [1e400], [Infinity]; [-Infinity] *)
  | NotANumber                   (* [NaN] *)
  | HugeInt.                     (* an [int] beyond the doubles *)

(** [float(v)]; [double_of_str s] is [float(s)] for a [str]: the double
    it spells, which for ["inf"], ["nan"] and ["1e400"] is not a finite
    one, or [None] where [float] raises [ValueError]. *)
Definition float (double_of_str : string -> option double) (v : received)
    : exn + double :=
  match v with
  | Plain PyNone => inl TypeError
  | Plain (PyBool b) => inr (Finite (if b then 1 else 0))
  | Plain (PyNum x) => inr (Finite x)
  | Plain (PyStr s) =>
      match double_of_str s with Some x => inr x | None => inl ValueError end
  | Plain PyContainer => inl TypeError
  | Infinity negative => inr (if negative then NegInf else PosInf)
  | NotANumber => inr NaN
  | HugeInt => inl OverflowError
  end.

(** What [Py.float] makes of the texts: the finite numbers they spell. *)
Definition float_of_str (double_of_str : string -> option double) (s : string)
    : option R :=
  match double_of_str s with
  | Some (Finite x) => Some x
  | _ => None
  end.

End Doubles.

(** ** Threads, the lock and the monad *)

Module Effects.

Import Py.

(** A state with a lock; [holds_lock w] says that the thread that is
    followed is inside a [with] block of it. *)
Class Lockable (W : Type) := {
  holds_lock : W -> bool;
  with_lock_held : bool -> W -> W;
}.

(** How a call ends: it returns, it raises, or it waits for ever on a
    lock the thread holds itself.  Each carries the state reached. *)
Inductive outcome (W A : Type) :=
  | Done (a : A) (w : W)
  | Raised (e : exn) (w : W)
  | Blocked (w : W).
Arguments Done {W A} a w.
Arguments Raised {W A} e w.
Arguments Blocked {W A} w.

Definition M (W A : Type) : Type := W -> outcome W A.

#[global] Instance M_ret {W} : MRet (M W) := λ A a w, Done a w.
#[global] Instance M_bind {W} : MBind (M W) := λ A B f m w,
  match m w with
  | Done a w' => f a w'
  | Raised e w' => Raised e w'
  | Blocked w' => Blocked w'
  end.

Definition gets {W A} (f : W -> A) : M W A := λ w, Done (f w) w.
Definition modify {W} (f : W -> W) : M W unit := λ w, Done () (f w).
Definition raise {W A} (e : exn) : M W A := λ w, Raised e w.

(** [with lock: body].  [threading.Lock] is not re-entrant: acquiring it
    again from inside blocks.  [__exit__] releases the lock when the
    body returns and when it raises. *)
Definition with_lock {W A} `{Lockable W} (body : M W A) : M W A := λ w,
  if holds_lock w then Blocked w
  else match body (with_lock_held true w) with
       | Done a w' => Done a (with_lock_held false w')
       | Raised e w' => Raised e (with_lock_held false w')
       | Blocked w' => Blocked w'
       end.

(** [for x in l: body(x)]. *)
Fixpoint for_each {W A} (l : list A) (body : A -> M W unit) : M W unit :=
  match l with
  | [] => mret ()
  | x :: l' => body x;; for_each l' body
  end.

End Effects.

(** ** backend/realtime_parking_system.py *)

Module Realtime.

Import Py Format Geo Effects.

(** *** Data *)

(** An entry of [parking_spots]. *)
Record garage := {
  name : string;
  address : string;
  lat : R;
  lng : R;
  price_per_hour : R;
  type : string;
  total_spots : Z;
  available_spots : Z;
  payment_methods : list string;
}.

(** [garage["available_spots"] = v]. *)
Definition with_available_spots (v : Z) (g : garage) : garage :=
  {| name := name g; address := address g; lat := lat g; lng := lng g;
     price_per_hour := price_per_hour g; type := type g;
     total_spots := total_spots g; available_spots := v;
     payment_methods := payment_methods g |}.

(** An entry of [users_db]; [.get('price_weight', 0.3)] allows for the
    key to be missing. *)
Record user := {
  password_hash : string;
  price_weight : option R;
}.

(** An entry of [user_recommendations], as [handle_parking_request]
    stores it (every key present). *)
Record recommendation := {
  username : option string;
  garage_name : string;
  timestamp : R;
  user_lat : R;
  user_lng : R;
  dest_lat : R;
  dest_lng : R;
  duration : R;
  walk_distance : R;
}.

(** The parts of the "impact" sentence of a re-route notification and of
    the "reason" of an alternative: an amount (shown with two decimals)
    or a distance, and the word chosen. *)
Inductive impact_part :=
  | CostImpact (amount : R) (more : bool)
  | WalkImpact (d : distance_text) (longer : bool)
  | TimeImpact (minutes : Z) (more : bool).

Inductive reason_part :=
  | CostReason (saves : bool) (amount : R)
  | WalkReason (d : distance_text) (shorter : bool).

(** The ["new_garage"] object of a re-route notification. *)
Record new_garage_info := {
  ng_name : string;
  ng_address : string;
  ng_price_per_hour : R;
  ng_estimated_cost : R;
  ng_available_spots : Z;
  ng_lat : R;
  ng_lng : R;
  ng_drive_distance : distance_text;
  ng_walk_distance : distance_text;
}.

(** The ["best_parking"] object and an element of ["alternatives"] of a
    [parking_recommendation] event. *)
Record best_parking_info := {
  bp_name : string;
  bp_address : string;
  bp_type : string;
  bp_lat : R;
  bp_lng : R;
  bp_price_per_hour : R;
  bp_estimated_cost : R;
  bp_available_spots : Z;
  bp_total_spots : Z;
  bp_payment_methods : list string;
  bp_drive_distance : distance_text;
  bp_walk_distance : distance_text;
}.

Record alternative_info := {
  alt_name : string;
  alt_address : string;
  alt_price_per_hour : R;
  alt_estimated_cost : R;
  alt_available_spots : Z;
  alt_drive_distance : distance_text;
  alt_walk_distance : distance_text;
  alt_reason : list reason_part;   (* [] is "similar option" *)
}.

(** What [emit] sends.  The first four are ['notification'] events, by
    their ["type"]; titles are decoration and left out. *)
Inductive message :=
  | ErrorNotification (text : string)
  | RerouteNotification (old_garage_name : string) (reason_text : string)
      (impact : list impact_part) (new_garage : new_garage_info)
  | WarningNotification (garage_name : string) (spots_remaining : Z)
  | ParkingRecommendation (best_parking : best_parking_info)
      (alternatives : list alternative_info) (sent_at : R).

(** *** State and effects *)

(** The module-level state.  [user_recommendations] is a [dict], which
    keeps its keys in insertion order: a list of pairs with distinct
    keys.  [parking_lock] is [true] while the thread that is followed
    holds the lock.  [outbox] lists what was emitted, oldest first, with
    the room (session id) it was sent to. *)
Record world := {
  parking_spots : list garage;
  users_db : gmap string user;
  user_recommendations : list (string * recommendation);
  parking_lock : bool;
  clock : R;
  outbox : list (string * message);
}.

Definition with_parking_spots (v : list garage) (w : world) : world :=
  {| parking_spots := v; users_db := users_db w;
     user_recommendations := user_recommendations w;
     parking_lock := parking_lock w; clock := clock w; outbox := outbox w |}.

Definition with_user_recommendations (v : list (string * recommendation))
    (w : world) : world :=
  {| parking_spots := parking_spots w; users_db := users_db w;
     user_recommendations := v;
     parking_lock := parking_lock w; clock := clock w; outbox := outbox w |}.

Definition with_parking_lock_held (v : bool) (w : world) : world :=
  {| parking_spots := parking_spots w; users_db := users_db w;
     user_recommendations := user_recommendations w;
     parking_lock := v; clock := clock w; outbox := outbox w |}.

Definition with_outbox (v : list (string * message)) (w : world) : world :=
  {| parking_spots := parking_spots w; users_db := users_db w;
     user_recommendations := user_recommendations w;
     parking_lock := parking_lock w; clock := clock w; outbox := v |}.

(** The state when the module is loaded, at clock reading [now]; the
    street zone is the last entry of the catalog. *)
Definition zone_at_start : garage :=
  {| name := "Street Parking Zone"; address := "Oakland District";
     lat := 40.4430; lng := -79.9940; price_per_hour := 2.5;
     type := "street"; total_spots := 30; available_spots := 8;
     payment_methods := ["meter"; "app"] |}%string.

Definition initial_parking_spots : list garage := [
  {| name := "Garage A"; address := "123 Forbes Ave";
     lat := 40.4405; lng := -79.9959; price_per_hour := 3.0;
     type := "garage"; total_spots := 100; available_spots := 45;
     payment_methods := ["credit_card"; "app"] |};
  {| name := "Garage B"; address := "456 Fifth Ave";
     lat := 40.4415; lng := -79.9930; price_per_hour := 2.0;
     type := "garage"; total_spots := 150; available_spots := 80;
     payment_methods := ["credit_card"; "cash"] |};
  {| name := "Garage C"; address := "789 Penn Ave";
     lat := 40.4420; lng := -79.9965; price_per_hour := 1.5;
     type := "garage"; total_spots := 75; available_spots := 20;
     payment_methods := ["credit_card"; "app"; "cash"] |};
  zone_at_start
]%string.

Definition initial_world (now : R) : world :=
  {| parking_spots := initial_parking_spots; users_db := ∅;
     user_recommendations := []; parking_lock := false;
     clock := now; outbox := [] |}.

#[global] Instance world_lockable : Lockable world :=
  {| holds_lock := parking_lock; with_lock_held := with_parking_lock_held |}.

#[local] Abbreviation M := (Effects.M world).

(** [time.time()]. *)
Definition time_time : M R := gets clock.

(** [socketio.emit(..., room=session_id)], and [emit(...)] inside a
    handler, which answers the session that sent the request. *)
Definition emit (room : string) (msg : message) : M unit :=
  modify (λ w, with_outbox (outbox w ++ [(room, msg)]) w).

(** *** The ledger [user_recommendations] *)

Fixpoint ledger_get (session_id : string)
    (l : list (string * recommendation)) : option recommendation :=
  match l with
  | [] => None
  | (k, v) :: l' => if decide (k = session_id) then Some v else ledger_get session_id l'
  end.

(** [user_recommendations[session_id] = rec]: an existing key keeps its
    place, a new one goes last. *)
Fixpoint ledger_set (session_id : string) (rec : recommendation)
    (l : list (string * recommendation)) : list (string * recommendation) :=
  match l with
  | [] => [(session_id, rec)]
  | (k, v) :: l' =>
      if decide (k = session_id) then (k, rec) :: l'
      else (k, v) :: ledger_set session_id rec l'
  end.

(** [del user_recommendations[session_id]]. *)
Definition ledger_del (session_id : string)
    (l : list (string * recommendation)) : list (string * recommendation) :=
  filter (λ p, p.1 ≠ session_id) l.

(** [rec.update({"garage_name": ..., "timestamp": ..., "walk_distance": ...})]. *)
Definition updated (new_name : string) (now : R) (new_walk : R)
    (rec : recommendation) : recommendation :=
  {| username := username rec; garage_name := new_name; timestamp := now;
     user_lat := user_lat rec; user_lng := user_lng rec;
     dest_lat := dest_lat rec; dest_lng := dest_lng rec;
     duration := duration rec; walk_distance := new_walk |}.


(** *** Scoring and ranking *)

(** [score_parking(garage, user_lat, user_lng, dest_lat, dest_lng, price_weight)]. *)
Definition score_parking (garage : garage)
    (user_lat user_lng dest_lat dest_lng price_weight : R) : R * R * R :=
  let drive_distance := haversine user_lat user_lng (lat garage) (lng garage) in
  let walk_distance := haversine (lat garage) (lng garage) dest_lat dest_lng in
  let total_distance := drive_distance + walk_distance * 2 in
  let price := price_per_hour garage in
  let availability_factor :=
    if decide (available_spots garage > 20)%Z then 1.0 else 1.5 in
  let score :=
    ((1 - price_weight) * total_distance + price_weight * price * 100)
    * availability_factor in
  (score, drive_distance, walk_distance).

(** The first lines of [find_best_garage] and [find_top_garages]:
[[
    price_weight = 0.3
    if username and username in users_db:
        price_weight = users_db[username].get('price_weight', 0.3)
]]
    The empty name is false, as [None] is. *)
Definition price_weight_of (db : gmap string user) (username : option string) : R :=
  match username with
  | Some u =>
      if decide (u = ""%string) then 0.3
      else match db !! u with
           | Some account => default 0.3 (price_weight account)
           | None => 0.3
           end
  | None => 0.3
  end.

(** [[g for g in parking_spots if g["available_spots"] > 0]]. *)
Definition available_garages (spots : list garage) : list garage :=
  filter (λ g, (available_spots g > 0)%Z) spots.

(** The loop variables of [find_best_garage]; [best_score] starts as
    [float('inf')], which is [None] here. *)
Record best := {
  best_score : option R;
  best_garage : option garage;
  best_drive : R;
  best_walk : R;
}.

Definition best_init : best :=
  {| best_score := None; best_garage := None; best_drive := 0; best_walk := 0 |}.

(** [score < best_score]. *)
Definition below (score : R) (bound : option R) : bool :=
  match bound with
  | None => true
  | Some b => bool_decide (score < b)
  end.

(** One turn of the loop of [find_best_garage]. *)
Definition best_step (user_lat user_lng dest_lat dest_lng price_weight : R)
    (acc : best) (garage : garage) : best :=
  let '(score, drive_dist, walk_dist) :=
    score_parking garage user_lat user_lng dest_lat dest_lng price_weight in
  if below score (best_score acc) then
    {| best_score := Some score; best_garage := Some garage;
       best_drive := drive_dist; best_walk := walk_dist |}
  else acc.

Definition find_best_garage (user_lat user_lng dest_lat dest_lng : R)
    (username : option string) : M (option garage * R * R) :=
  db ← gets users_db;
  let price_weight := price_weight_of db username in
  with_lock (
    spots ← gets parking_spots;
    let available := available_garages spots in
    match available with
    | [] => mret (None, 0, 0)
    | _ =>
        let b := foldl (best_step user_lat user_lng dest_lat dest_lng price_weight)
                       best_init available in
        mret (best_garage b, best_drive b, best_walk b)
    end).

(** An element of the list [scored]. *)
Definition scored_entry (user_lat user_lng dest_lat dest_lng price_weight : R)
    (g : garage) : R * garage * R * R :=
  let '(score, drive_dist, walk_dist) :=
    score_parking g user_lat user_lng dest_lat dest_lng price_weight in
  (score, g, drive_dist, walk_dist).

(** The key of [scored.sort(key=lambda x: x[0])]. *)
Definition entry_score (x : R * garage * R * R) : R := x.1.1.1.

Definition entry_garage (x : R * garage * R * R) : garage := x.1.1.2.

Definition find_top_garages (user_lat user_lng dest_lat dest_lng : R)
    (username : option string) (n : Z) : M (list (R * garage * R * R)) :=
  db ← gets users_db;
  let price_weight := price_weight_of db username in
  with_lock (
    spots ← gets parking_spots;
    let available := available_garages spots in
    match available with
    | [] => mret []
    | _ =>
        let scored :=
          scored_entry user_lat user_lng dest_lat dest_lng price_weight <$> available in
        mret (slice_to n (sort_by entry_score scored))
    end).

(** *** The dispatcher *)

Definition send_low_availability_warning (session_id : string) (garage : garage)
    : M unit :=
  emit session_id (WarningNotification (name garage) (available_spots garage)).

(** [next((g for g in parking_spots if g["name"] == n), None)]. *)
Definition garage_named (n : string) (spots : list garage) : option garage :=
  head (filter (λ g, name g = n) spots).

(** The list [impact_parts] of [send_reroute_notification]. *)
Definition impact_parts (cost_diff walk_diff : R) : list impact_part :=
  let time_diff_min := Rabs walk_diff / 80 in
  (if decide (Rabs cost_diff > 0.5)
   then [CostImpact (Rabs cost_diff) (bool_decide (cost_diff > 0))] else [])
  ++ (if decide (Rabs walk_diff > 30)
      then [WalkImpact (format_distance (Rabs walk_diff)) (bool_decide (walk_diff > 0))]
      else [])
  ++ (if decide (time_diff_min > 1)
      then [TimeImpact (int time_diff_min) (bool_decide (walk_diff > 0))] else []).

Definition send_reroute_notification (session_id : string)
    (old_rec : recommendation) (reason : string) : M unit :=
  let user_lat := user_lat old_rec in
  let user_lng := user_lng old_rec in
  let dest_lat := dest_lat old_rec in
  let dest_lng := dest_lng old_rec in
  let duration := duration old_rec in
  let username := username old_rec in
  '(new_garage, new_drive, new_walk) ←
    find_best_garage user_lat user_lng dest_lat dest_lng username;
  match new_garage with
  | None =>
      emit session_id (ErrorNotification
        "All parking is currently full. Searching for alternatives...")
  | Some new_garage =>
      let old_garage_name := garage_name old_rec in
      spots ← gets parking_spots;
      match garage_named old_garage_name spots with
      | None => mret ()
      | Some old_garage =>
          let cost_diff :=
            (price_per_hour new_garage - price_per_hour old_garage) * duration in
          let old_walk_dist := walk_distance old_rec in
          let walk_diff := new_walk - old_walk_dist in
          let reason_text :=
            if decide (reason = "full") then "is now full"
            else "has limited availability" in
          emit session_id (RerouteNotification old_garage_name reason_text
            (impact_parts cost_diff walk_diff)
            {| ng_name := name new_garage;
               ng_address := address new_garage;
               ng_price_per_hour := price_per_hour new_garage;
               ng_estimated_cost := round (price_per_hour new_garage * duration) 2;
               ng_available_spots := available_spots new_garage;
               ng_lat := lat new_garage;
               ng_lng := lng new_garage;
               ng_drive_distance := format_distance new_drive;
               ng_walk_distance := format_distance new_walk |});;
          now ← time_time;
          ledger ← gets user_recommendations;
          match ledger_get session_id ledger with
          | None => raise (KeyError session_id)
          | Some rec =>
              modify (with_user_recommendations
                (ledger_set session_id (updated (name new_garage) now new_walk rec)
                   ledger))
          end
      end
  end.

(** [check_user_recommendations(changed_garage, old_available)].  The
    loop runs over [list(user_recommendations.items())], a copy of the
    key-value pairs taken before the first turn; the values are the
    ledger's own entries, and a turn changes only the entry it visits,
    after reading it. *)
Definition check_user_recommendations (changed_garage : garage)
    (old_available : Z) : M unit :=
  current_time ← time_time;
  items ← gets user_recommendations;
  for_each items (λ '(session_id, rec),
    if decide (current_time - timestamp rec > 300) then mret ()
    else if decide (garage_name rec = name changed_garage) then
      if decide (available_spots changed_garage = 0)%Z then
        send_reroute_notification session_id rec "full"
      else if decide (available_spots changed_garage < 5 ∧ old_available >= 5)%Z then
        send_low_availability_warning session_id changed_garage
      else mret ()
    else mret ()).

(** *** The availability simulator *)

(** The new count of [simulate_spots]:
    [max(0, min(garage["total_spots"], garage["available_spots"] + change))]. *)
Definition adjusted (garage : garage) (change : Z) : Z :=
  Z.max 0 (Z.min (total_spots garage) (available_spots garage + change)).

(** One turn of [for garage in parking_spots], for the garage at
    position [i]; [change] is what [random.randint(-5, 5)] returned. *)
Definition simulate_garage (i : nat) (change : Z) : M unit :=
  spots ← gets parking_spots;
  match spots !! i with
  | None => mret ()
  | Some garage =>
      let old_available := available_spots garage in
      let garage' := with_available_spots (adjusted garage change) garage in
      modify (with_parking_spots (<[i := garage']> spots));;
      if decide (available_spots garage' ≠ old_available) then
        check_user_recommendations garage' old_available
      else mret ()
  end.

(** One turn of [while True] in [simulate_spots], after the sleep;
    [changes i] is the random change drawn for the garage at position [i]. *)
Definition simulate_spots_tick (changes : nat -> Z) : M unit :=
  with_lock (
    spots ← gets parking_spots;
    for_each (seq 0 (length spots)) (λ i, simulate_garage i (changes i))).

(** *** Requests *)

Section Requests.

(** [float(s)] for a [str]: the number it spells, or [None] where
    [float] raises [ValueError]. *)
Variable float_of_str : string -> option R.

#[local] Abbreviation float := (Py.float float_of_str).

(** [data.get(key)] and [data.get(key, default)]. *)
Definition get (data : gmap string pyval) (key : string) : pyval :=
  default PyNone (data !! key).

Definition get_or (data : gmap string pyval) (key : string) (dflt : pyval) : pyval :=
  default dflt (data !! key).

(** The [try] block of [handle_parking_request]. *)
Definition parse_request (data : gmap string pyval)
    : exn + (R * R * R * R * R) :=
  user_lat ← float (get data "user_lat");
  user_lng ← float (get data "user_lng");
  dest_lat ← float (get data "dest_lat");
  dest_lng ← float (get data "dest_lng");
  duration ← float (get_or data "duration" (PyNum 1));
  inr (user_lat, user_lng, dest_lat, dest_lng, duration).

(** The list [reason_parts] built for an alternative. *)
Definition reason_parts (cost_diff walk_diff : R) : list reason_part :=
  (if decide (Rabs cost_diff > 0.5)
   then [CostReason (bool_decide (cost_diff < 0)) (Rabs cost_diff)] else [])
  ++ (if decide (Rabs walk_diff > 50)
      then [WalkReason (format_distance (Rabs walk_diff)) (bool_decide (walk_diff < 0))]
      else []).

(** One turn of [for score, alt, drive_dist, walk_dist in top_garages[1:]]. *)
Definition alternative_of (cost_best best_walk duration : R)
    (x : R * garage * R * R) : alternative_info :=
  let '(score, alt, drive_dist, walk_dist) := x in
  let cost_alt := price_per_hour alt * duration in
  let cost_diff := cost_alt - cost_best in
  let walk_diff := walk_dist - best_walk in
  {| alt_name := name alt;
     alt_address := address alt;
     alt_price_per_hour := price_per_hour alt;
     alt_estimated_cost := round cost_alt 2;
     alt_available_spots := available_spots alt;
     alt_drive_distance := format_distance drive_dist;
     alt_walk_distance := format_distance walk_dist;
     alt_reason := reason_parts cost_diff walk_diff |}.

Definition best_parking_of (best_garage : garage) (best_drive best_walk duration : R)
    : best_parking_info :=
  {| bp_name := name best_garage;
     bp_address := address best_garage;
     bp_type := type best_garage;
     bp_lat := lat best_garage;
     bp_lng := lng best_garage;
     bp_price_per_hour := price_per_hour best_garage;
     bp_estimated_cost := round (price_per_hour best_garage * duration) 2;
     bp_available_spots := available_spots best_garage;
     bp_total_spots := total_spots best_garage;
     bp_payment_methods := payment_methods best_garage;
     bp_drive_distance := format_distance best_drive;
     bp_walk_distance := format_distance best_walk |}.

(** [handle_parking_request(data)]; [session_id] is [request.sid] and
    [username] is [session.get('username')]. *)
Definition handle_parking_request (session_id : string) (username : option string)
    (data : gmap string pyval) : M unit :=
  match parse_request data with
  | inl _ => emit session_id (ErrorNotification "Invalid location data")
  | inr (user_lat, user_lng, dest_lat, dest_lng, duration) =>
      '(best_garage, best_drive, best_walk) ←
        find_best_garage user_lat user_lng dest_lat dest_lng username;
      match best_garage with
      | None => emit session_id (ErrorNotification "No parking available")
      | Some best_garage =>
          top_garages ← find_top_garages user_lat user_lng dest_lat dest_lng username 3;
          let cost_best := price_per_hour best_garage * duration in
          let alternatives :=
            alternative_of cost_best best_walk duration <$> slice_from_1 top_garages in
          now ← time_time;
          modify (λ w, with_user_recommendations
            (ledger_set session_id
               {| username := username;
                  garage_name := name best_garage;
                  timestamp := now;
                  user_lat := user_lat;
                  user_lng := user_lng;
                  dest_lat := dest_lat;
                  dest_lng := dest_lng;
                  duration := duration;
                  walk_distance := best_walk |}
               (user_recommendations w)) w);;
          sent_at ← time_time;
          emit session_id (ParkingRecommendation
            (best_parking_of best_garage best_drive best_walk duration)
            alternatives sent_at)
      end
  end.

End Requests.

(** [handle_disconnect()]. *)
Definition handle_disconnect (session_id : string) : M unit :=
  modify (λ w, with_user_recommendations
    (ledger_del session_id (user_recommendations w)) w).

(** *** Accounts

    The endpoints [/api/register], [/api/login], [/api/logout] and
    [/api/preferences], for request bodies whose ["username"] and
    ["password"] are texts when they are given: [None] stands for a key
    that is missing or [null].  Of the Flask [session] of the client only
    the key ['username'] is used; it is an argument of the handlers, and
    those that write it return the new value.  An exception that leaves
    a handler is the outcome [Raised] (Flask answers 500). *)

Definition with_users_db (v : gmap string user) (w : world) : world :=
  {| parking_spots := parking_spots w; users_db := v;
     user_recommendations := user_recommendations w;
     parking_lock := parking_lock w; clock := clock w; outbox := outbox w |}.

(** The JSON object of an answer, and the answer with its status. *)
Inductive http_body :=
  | ErrorBody (error : string)
  | MessageBody (text : string) (username : option string)
  | PreferencesBody (price_weight : R).

Inductive http_response :=
  | Response (status : Z) (body : http_body).

(** The method of a request to [/api/preferences]; the handler tests
    for ['POST'] only. *)
Inductive http_method := GET | POST.

(** A text that is true in a condition: [not s] holds for [None] and
    for the empty text. *)
Definition nonempty (s : option string) : option string :=
  s ≫= λ x, if decide (x = ""%string) then None else Some x.

(** The operand of a comparison with a number; [None], texts, lists
    and objects raise [TypeError]. *)
Definition number_of (v : pyval) : exn + R :=
  match v with
  | PyNum x => inr x
  | PyBool b => inr (if b then 1 else 0)
  | PyNone | PyStr _ | PyContainer => inl TypeError
  end.

(** [max(0, min(1, price_weight))]. *)
Definition max_0_min_1 (price_weight : pyval) : exn + R :=
  x ← number_of price_weight;
  inr (Rmax 0 (Rmin 1 x)).

Section Accounts.

(** [generate_password_hash(password)] with the salt it draws, and
    [check_password_hash(pwhash, password)], of werkzeug. *)
Variable generate_password_hash : string -> string -> string.
Variable check_password_hash : string -> string -> bool.

(** [register()]; the key ["created_at"] of the new account, which
    nothing reads, is not kept. *)
Definition register (salt : string) (username password : option string)
    : M http_response :=
  match nonempty username, nonempty password with
  | Some u, Some p =>
      db ← gets users_db;
      match db !! u with
      | Some _ => mret (Response 400 (ErrorBody "Username already exists"))
      | None =>
          modify (λ w, with_users_db
            (<[u := {| password_hash := generate_password_hash p salt;
                       price_weight := Some 0.3 |}]> (users_db w)) w);;
          mret (Response 201 (MessageBody "User registered successfully" (Some u)))
      end
  | _, _ => mret (Response 400 (ErrorBody "Username and password required"))
  end.

(** [login()]: the answer and the session after it. *)
Definition login (session : option string) (username password : option string)
    : M (http_response * option string) :=
  match nonempty username, nonempty password with
  | Some u, Some p =>
      db ← gets users_db;
      match db !! u with
      | None => mret (Response 401 (ErrorBody "Invalid credentials"), session)
      | Some account =>
          if check_password_hash (password_hash account) p then
            mret (Response 200 (MessageBody "Login successful" (Some u)), Some u)
          else mret (Response 401 (ErrorBody "Invalid credentials"), session)
      end
  | _, _ => mret (Response 400 (ErrorBody "Username and password required"), session)
  end.

(** [logout()]. *)
Definition logout (session : option string) : M (http_response * option string) :=
  mret (Response 200 (MessageBody "Logged out successfully" None), None).

End Accounts.

(** [preferences()].  In the assignment
    [users_db[username]['price_weight'] = max(0, min(1, price_weight))]
    the right-hand side is evaluated first. *)
Definition preferences (method : http_method) (session : option string)
    (data : gmap string pyval) : M http_response :=
  match nonempty session with
  | None => mret (Response 401 (ErrorBody "Not logged in"))
  | Some u =>
      match method with
      | POST =>
          let price_weight := get_or data "price_weight" (PyNum 0.3) in
          match max_0_min_1 price_weight with
          | inl e => raise e
          | inr v =>
              db ← gets users_db;
              match db !! u with
              | None => raise (KeyError u)
              | Some account =>
                  modify (λ w, with_users_db
                    (<[u := {| password_hash := password_hash account;
                               price_weight := Some v |}]> (users_db w)) w);;
                  mret (Response 200 (MessageBody "Preferences updated" None))
              end
          end
      | GET =>
          db ← gets users_db;
          match db !! u with
          | None => raise (KeyError u)
          | Some account =>
              mret (Response 200 (PreferencesBody (default 0.3 (price_weight account))))
          end
      end
  end.

End Realtime.

(** ** realtime_parking_system.py: requests with numbers that are not finite

    The path of a parking request once more, on doubles, from the
    request to the choice of the garage. *)

Module RealtimeDoubles.

Import Py Format Geo Effects Realtime Doubles.

#[local] Abbreviation M := (Effects.M world).

(** [score_parking(garage, user_lat, user_lng, dest_lat, dest_lng, price_weight)]. *)
Definition score_parking (garage : garage) (user_lat user_lng dest_lat dest_lng : double)
    (price_weight : R) : exn + (double * double * double) :=
  drive_distance ←
    haversine user_lat user_lng (Finite (lat garage)) (Finite (lng garage));
  walk_distance ←
    haversine (Finite (lat garage)) (Finite (lng garage)) dest_lat dest_lng;
  let total_distance := add drive_distance (mul walk_distance (Finite 2)) in
  let price := price_per_hour garage in
  let availability_factor :=
    if decide (available_spots garage > 20)%Z then 1.0 else 1.5 in
  let score :=
    mul (add (mul (Finite (1 - price_weight)) total_distance)
             (Finite (price_weight * price * 100)))
        (Finite availability_factor) in
  inr (score, drive_distance, walk_distance).

(** The loop variables of [find_best_garage]. *)
Record best := {
  best_score : double;
  best_garage : option garage;
  best_drive : double;
  best_walk : double;
}.

Definition best_init : best :=
  {| best_score := PosInf; best_garage := None;
     best_drive := Finite 0; best_walk := Finite 0 |}.

(** One turn of the loop of [find_best_garage]. *)
Definition best_step (user_lat user_lng dest_lat dest_lng : double) (price_weight : R)
    (acc : best) (garage : garage) : exn + best :=
  '(score, drive_dist, walk_dist) ←
    score_parking garage user_lat user_lng dest_lat dest_lng price_weight;
  inr (if lt score (best_score acc) then
         {| best_score := score; best_garage := Some garage;
            best_drive := drive_dist; best_walk := walk_dist |}
       else acc).

(** [for garage in available_garages: ...], until a turn raises. *)
Fixpoint best_loop (user_lat user_lng dest_lat dest_lng : double) (price_weight : R)
    (acc : best) (available : list garage) : exn + best :=
  match available with
  | [] => inr acc
  | garage :: rest =>
      acc' ← best_step user_lat user_lng dest_lat dest_lng price_weight acc garage;
      best_loop user_lat user_lng dest_lat dest_lng price_weight acc' rest
  end.

Definition find_best_garage (user_lat user_lng dest_lat dest_lng : double)
    (username : option string) : M (option garage * double * double) :=
  db ← gets users_db;
  let price_weight := price_weight_of db username in
  with_lock (
    spots ← gets parking_spots;
    let available := available_garages spots in
    match available with
    | [] => mret (None, Finite 0, Finite 0)
    | _ =>
        match best_loop user_lat user_lng dest_lat dest_lng price_weight
                best_init available with
        | inl e => raise e
        | inr b => mret (best_garage b, best_drive b, best_walk b)
        end
    end).

Section Requests.

(** [float(s)] for a [str], see [Doubles.float]. *)
Variable double_of_str : string -> option double.

#[local] Abbreviation float := (Doubles.float double_of_str).

(** [data.get(key)] and [data.get(key, default)]. *)
Definition get (data : gmap string received) (key : string) : received :=
  default (Plain PyNone) (data !! key).

Definition get_or (data : gmap string received) (key : string) (dflt : received)
    : received :=
  default dflt (data !! key).

(** The [try] block of [handle_parking_request]. *)
Definition parse_request (data : gmap string received)
    : exn + (double * double * double * double * double) :=
  user_lat ← float (get data "user_lat");
  user_lng ← float (get data "user_lng");
  dest_lat ← float (get data "dest_lat");
  dest_lng ← float (get data "dest_lng");
  duration ← float (get_or data "duration" (Plain (PyNum 1)));
  inr (user_lat, user_lng, dest_lat, dest_lng, duration).

(** [handle_parking_request(data)].  [except (TypeError, ValueError)]
    lets an [OverflowError] through.  Once a garage has been chosen the
    four coordinates are finite (see [find_best_garage_some] below), and
    the function goes on as in [Realtime.handle_parking_request], with
    their numbers.  The duration is taken as a number as well: a duration
    that is an infinity or nan, which the source would multiply and store
    as such, is not represented. *)
Definition handle_parking_request (session_id : string) (username : option string)
    (data : gmap string received) : M unit :=
  match parse_request data with
  | inl TypeError | inl ValueError =>
      emit session_id (ErrorNotification "Invalid location data")
  | inl e => raise e
  | inr (user_lat, user_lng, dest_lat, dest_lng, duration) =>
      '(best_garage, best_drive, best_walk) ←
        find_best_garage user_lat user_lng dest_lat dest_lng username;
      match best_garage with
      | None => emit session_id (ErrorNotification "No parking available")
      | Some best_garage =>
          let user_lat := number user_lat in
          let user_lng := number user_lng in
          let dest_lat := number dest_lat in
          let dest_lng := number dest_lng in
          let duration := number duration in
          let best_drive := number best_drive in
          let best_walk := number best_walk in
          top_garages ←
            find_top_garages user_lat user_lng dest_lat dest_lng username 3;
          let cost_best := price_per_hour best_garage * duration in
          let alternatives :=
            alternative_of cost_best best_walk duration <$> slice_from_1 top_garages in
          now ← time_time;
          modify (λ w, with_user_recommendations
            (ledger_set session_id
               {| username := username;
                  garage_name := name best_garage;
                  timestamp := now;
                  user_lat := user_lat;
                  user_lng := user_lng;
                  dest_lat := dest_lat;
                  dest_lng := dest_lng;
                  duration := duration;
                  walk_distance := best_walk |}
               (user_recommendations w)) w);;
          sent_at ← time_time;
          emit session_id (ParkingRecommendation
            (best_parking_of best_garage best_drive best_walk duration)
            alternatives sent_at)
      end
  end.

End Requests.

End RealtimeDoubles.

(** ** backend/parking_finder_v2.py *)

Module FinderV2.

Import Py Format Geo Effects.

(** *** Data *)

(** An entry of [parking_spots]. *)
Record parking := {
  name : string;
  address : string;
  lat : R;
  lng : R;
  price_per_hour : R;
  capacity : Z;
  available_spots : Z;
  type : string;
  payment_methods : list string;
  hours : string;
}.

(** [spot["available_spots"] = v]. *)
Definition with_available_spots (v : Z) (p : parking) : parking :=
  {| name := name p; address := address p; lat := lat p; lng := lng p;
     price_per_hour := price_per_hour p; capacity := capacity p;
     available_spots := v; type := type p;
     payment_methods := payment_methods p; hours := hours p |}.

(** Why the navigation loop wants to notify. *)
Inductive notify_reason :=
  | NowFull (old_name : string)
  | BetterDeal (savings : R).

Inductive cost_impact :=
  | CostSaves (amount : R)
  | CostAdds (amount : R)
  | CostSame (cost : R).

Inductive walk_impact :=
  | WalkShorter (d : distance_text)
  | WalkLonger (d : distance_text)
  | WalkSimilar.

(** What the program prints, one value for each block of lines. *)
Inductive line :=
  | SpotStatus (name : string) (available capacity : Z)
  | StartingNavigation (lat lng dest_lat dest_lng : R)
  | NoParkingAlert
  | RerouteNotification (reason : notify_reason)
      (new_name new_address : string) (available capacity : Z)
      (cost : cost_impact) (walk : walk_impact)
      (total_time : option duration_text) (first_steps : list string)
  | InitialRecommendation (name : string) (cost duration : R)
      (available capacity : Z)
      (times : option (duration_text * duration_text * distance_text))
  | Arrived (name : string).

(** *** State and effects *)

(** [stdout] lists what was printed, oldest first, each block with the
    reading of the clock when it was printed. *)
Record world := {
  parking_spots : list parking;
  parking_lock : bool;
  clock : R;
  stdout : list (R * line);
}.

Definition with_parking_spots (v : list parking) (w : world) : world :=
  {| parking_spots := v; parking_lock := parking_lock w;
     clock := clock w; stdout := stdout w |}.

Definition with_parking_lock_held (v : bool) (w : world) : world :=
  {| parking_spots := parking_spots w; parking_lock := v;
     clock := clock w; stdout := stdout w |}.

Definition with_clock (v : R) (w : world) : world :=
  {| parking_spots := parking_spots w; parking_lock := parking_lock w;
     clock := v; stdout := stdout w |}.

Definition with_stdout (v : list (R * line)) (w : world) : world :=
  {| parking_spots := parking_spots w; parking_lock := parking_lock w;
     clock := clock w; stdout := v |}.

(** The state when the module is loaded, at clock reading [now]. *)
Definition initial_parking_spots : list parking := [
  {| name := "Garage A"; address := "123 Forbes Ave";
     lat := 40.4405; lng := -79.9959; price_per_hour := 3.0;
     capacity := 100; available_spots := 45; type := "garage";
     payment_methods := ["credit_card"; "app"]; hours := "24/7" |};
  {| name := "Garage B"; address := "456 Fifth Ave";
     lat := 40.4415; lng := -79.9930; price_per_hour := 2.0;
     capacity := 150; available_spots := 80; type := "garage";
     payment_methods := ["credit_card"; "cash"]; hours := "6am-12am" |};
  {| name := "Garage C"; address := "789 Penn Ave";
     lat := 40.4420; lng := -79.9965; price_per_hour := 1.5;
     capacity := 75; available_spots := 20; type := "garage";
     payment_methods := ["credit_card"; "app"; "cash"]; hours := "24/7" |};
  {| name := "Street Parking Zone"; address := "Oakland District";
     lat := 40.4430; lng := -79.9940; price_per_hour := 2.5;
     capacity := 30; available_spots := 5; type := "street";
     payment_methods := ["meter"; "app"]; hours := "8am-8pm (free after)" |}
]%string.

Definition initial_world (now : R) : world :=
  {| parking_spots := initial_parking_spots; parking_lock := false;
     clock := now; stdout := [] |}.

#[global] Instance world_lockable : Lockable world :=
  {| holds_lock := parking_lock; with_lock_held := with_parking_lock_held |}.

#[local] Abbreviation M := (Effects.M world).

(** [time.time()]. *)
Definition time_time : M R := gets clock.

Definition print (l : line) : M unit :=
  modify (λ w, with_stdout (stdout w ++ [(clock w, l)]) w).

(** *** Scoring and ranking *)

(** [score_parking(parking, dest_lat, dest_lng, alpha)]. *)
Definition score_parking (parking : parking) (dest_lat dest_lng alpha : R) : R :=
  let distance := haversine (lat parking) (lng parking) dest_lat dest_lng in
  let price := price_per_hour parking in
  let availability_factor :=
    if decide (available_spots parking > 20)%Z then 1.0 else 1.5 in
  (alpha * distance + (1 - alpha) * price * 100) * availability_factor.

(** The default of the parameter [alpha]; no call passes another one. *)
Definition alpha_default : R := 0.5.

Definition available (spots : list parking) : list parking :=
  filter (λ p, (available_spots p > 0)%Z) spots.

Definition swap_pair (x : R * parking) : parking * R := (x.2, x.1).

(** [find_top_parking(dest_lat, dest_lng, n)]. *)
Definition find_top_parking (dest_lat dest_lng : R) (n : Z)
    : M (list (parking * R)) :=
  available_spots ← with_lock (spots ← gets parking_spots; mret (available spots));
  match available_spots with
  | [] => mret []
  | _ =>
      let scored :=
        (λ p, (score_parking p dest_lat dest_lng alpha_default, p)) <$> available_spots in
      mret (swap_pair <$> slice_to n (sort_by fst scored))
  end.

(** *** The availability simulator *)

(** [max(0, min(spot["capacity"], spot["available_spots"] + change))]. *)
Definition adjusted (spot : parking) (change : Z) : Z :=
  Z.max 0 (Z.min (capacity spot) (available_spots spot + change)).

(** One turn of [while True] in [simulate_parking_changes], after the
    sleep: [i] is the position [random.choice] picked and [change] what
    [random.randint(-10, 10)] returned. *)
Definition simulate_parking_changes_tick (i : nat) (change : Z) : M unit :=
  with_lock (
    spots ← gets parking_spots;
    match spots !! i with
    | None => mret ()
    | Some spot =>
        let spot' := with_available_spots (adjusted spot change) spot in
        modify (with_parking_spots (<[i := spot']> spots));;
        print (SpotStatus (name spot') (available_spots spot') (capacity spot'))
    end).

Section Directions.

(** [get_directions(origin_lat, origin_lng, dest_lat, dest_lng, mode)]:
    the answer of the directions service, steps, seconds and metres, or
    [None] for [(None, None, None)]. *)
Variable get_directions : R -> R -> R -> R -> string -> option (list string * R * R).

(** *** The navigation loop *)

(** The local variables of [simulate_user_navigation] that change. *)
Record nav_state := {
  last_recommended : option parking;
  last_notification_time : R;
  nav_lat : R;
  nav_lng : R;
}.

(** [any(p["name"] == n and p["available_spots"] > 0 for p in parking_spots)]. *)
Definition still_available (n : string) (spots : list parking) : bool :=
  existsb (λ p, bool_decide (name p = n ∧ (available_spots p > 0)%Z)) spots.

(** The variables [should_notify] and [reason] after the two tests. *)
Definition should_notify (old_still_available : bool) (distance_to_current : R)
    (old_spot best : parking) (duration : R) : option notify_reason :=
  if negb old_still_available then Some (NowFull (name old_spot))
  else if decide (distance_to_current > 200) then
    let old_cost := price_per_hour old_spot * duration in
    let new_cost := price_per_hour best * duration in
    let cost_savings := old_cost - new_cost in
    if decide (cost_savings > 1.0) then Some (BetterDeal (round cost_savings 2))
    else None
  else None.

(** [x if x else None] for a number: zero counts as missing. *)
Definition truthy (x : option R) : option R :=
  x ≫= λ v, if decide (v = 0) then None else Some v.

(** The components of an answer of [get_directions]. *)
Definition directions_of (a : option (list string * R * R)) : option (list string) :=
  a ≫= λ x, Some x.1.1.
Definition time_of (a : option (list string * R * R)) : option R :=
  a ≫= λ x, Some x.1.2.
Definition distance_of (a : option (list string * R * R)) : option R :=
  a ≫= λ x, Some x.2.

(** The block printed for a re-route. *)
Definition reroute_lines (reason : notify_reason) (old_spot best : parking)
    (lat lng dest_lat dest_lng duration : R) : line :=
  let old_walk_dist := haversine (FinderV2.lat old_spot) (FinderV2.lng old_spot) dest_lat dest_lng in
  let new_walk_dist := haversine (FinderV2.lat best) (FinderV2.lng best) dest_lat dest_lng in
  let walk_diff := new_walk_dist - old_walk_dist in
  let cost_diff := (price_per_hour best - price_per_hour old_spot) * duration in
  let drive_time :=
    time_of (get_directions lat lng (FinderV2.lat best) (FinderV2.lng best) "driving") in
  let walk_time :=
    time_of (get_directions (FinderV2.lat best) (FinderV2.lng best) dest_lat dest_lng "walking") in
  let cost :=
    if decide (cost_diff ≠ 0) then
      if decide (cost_diff < 0) then CostSaves (Rabs (round cost_diff 2))
      else CostAdds (Rabs (round cost_diff 2))
    else CostSame (round (price_per_hour best * duration) 2) in
  let walk :=
    if decide (Rabs walk_diff > 20) then
      if decide (walk_diff < 0) then WalkShorter (format_distance (Rabs walk_diff))
      else WalkLonger (format_distance (Rabs walk_diff))
    else WalkSimilar in
  let total_time :=
    match truthy drive_time, truthy walk_time with
    | Some d, Some w => Some (format_duration (d + w))
    | _, _ => None
    end in
  let directions :=
    directions_of (get_directions lat lng (FinderV2.lat best) (FinderV2.lng best) "driving") in
  RerouteNotification reason (name best) (address best)
    (available_spots best) (capacity best) cost walk total_time
    (take 3 (default [] directions)).

(** The block printed for the first recommendation. *)
Definition initial_lines (best : parking) (lat lng dest_lat dest_lng duration : R) : line :=
  let drive := get_directions lat lng (FinderV2.lat best) (FinderV2.lng best) "driving" in
  let walk := get_directions (FinderV2.lat best) (FinderV2.lng best) dest_lat dest_lng "walking" in
  InitialRecommendation (name best) (round (price_per_hour best * duration) 2)
    duration (available_spots best) (capacity best)
    match truthy (time_of drive), truthy (time_of walk), distance_of walk with
    | Some d, Some w, Some walk_dist =>
        Some (format_duration d, format_duration w, format_distance walk_dist)
    | _, _, _ => None
    end.

(** One turn of [while haversine(lat, lng, dest_lat, dest_lng) > 5],
    up to its [time.sleep(5)]. *)
Definition navigation_turn (dest_lat dest_lng duration : R) (st : nav_state)
    : M nav_state :=
  top_spots ← find_top_parking dest_lat dest_lng 3;
  match top_spots with
  | [] => print NoParkingAlert;; mret st
  | (best, score) :: _ =>
      current_time ← time_time;
      last_notification_time' ←
        match last_recommended st with
        | Some old_spot =>
            if decide (name best ≠ name old_spot) then
              old_still_available ←
                with_lock (spots ← gets parking_spots;
                           mret (still_available (name old_spot) spots));
              let distance_to_current :=
                haversine (nav_lat st) (nav_lng st) (lat best) (lng best) in
              match should_notify old_still_available distance_to_current
                      old_spot best duration with
              | Some reason =>
                  if decide (current_time - last_notification_time st > 10) then
                    print (reroute_lines reason old_spot best
                             (nav_lat st) (nav_lng st) dest_lat dest_lng duration);;
                    mret current_time
                  else mret (last_notification_time st)
              | None => mret (last_notification_time st)
              end
            else mret (last_notification_time st)
        | None =>
            print (initial_lines best (nav_lat st) (nav_lng st)
                     dest_lat dest_lng duration);;
            mret (last_notification_time st)
        end;
      mret {| last_recommended := Some best;
              last_notification_time := last_notification_time';
              nav_lat := nav_lat st + (dest_lat - nav_lat st) * 0.08;
              nav_lng := nav_lng st + (dest_lng - nav_lng st) * 0.08 |}
  end.

(** What the rest of the system did while the thread slept: the
    catalog as the simulator left it, and the new reading of the clock. *)
Definition elapse (e : list parking * R) : M unit :=
  modify (λ w, with_clock e.2 (with_parking_spots e.1 w)).

(** The loop of [simulate_user_navigation] and the lines after it.  The
    list [env] gives, for each [time.sleep(5)], what [elapse] finds
    afterwards; when it is used up the run is cut. *)
Fixpoint navigation_loop (dest_lat dest_lng duration : R)
    (env : list (list parking * R)) (st : nav_state) : M nav_state :=
  if decide (haversine (nav_lat st) (nav_lng st) dest_lat dest_lng > 5) then
    match env with
    | [] => mret st
    | e :: env' =>
        st' ← navigation_turn dest_lat dest_lng duration st;
        elapse e;;
        navigation_loop dest_lat dest_lng duration env' st'
    end
  else
    match last_recommended st with
    | Some p => print (Arrived (name p));; mret st
    | None => raise TypeError
    end.

Definition simulate_user_navigation (user_lat user_lng dest_lat dest_lng duration : R)
    (env : list (list parking * R)) : M nav_state :=
  last_notification_time ← time_time;
  print (StartingNavigation user_lat user_lng dest_lat dest_lng);;
  navigation_loop dest_lat dest_lng duration env
    {| last_recommended := None;
       last_notification_time := last_notification_time;
       nav_lat := user_lat; nav_lng := user_lng |}.

(** *** The endpoint [/current_parking] *)

(** [float(s)] for a [str], see [Py.float]. *)
Variable float_of_str : string -> option R.

(** [request.args.get(key)] and [request.args.get(key, 1)]: a query
    parameter is a [str]. *)
Definition arg (args : gmap string string) (key : string) : pyval :=
  match args !! key with
  | Some s => PyStr s
  | None => PyNone
  end.

Definition arg_or (args : gmap string string) (key : string) (dflt : pyval) : pyval :=
  match args !! key with
  | Some s => PyStr s
  | None => dflt
  end.

(** The [try] block of [current_parking]. *)
Definition parse_args (args : gmap string string) : exn + (R * R * R * R * R) :=
  user_lat ← float float_of_str (arg args "user_lat");
  user_lng ← float float_of_str (arg args "user_lng");
  dest_lat ← float float_of_str (arg args "dest_lat");
  dest_lng ← float float_of_str (arg args "dest_lng");
  duration ← float float_of_str (arg_or args "duration" (PyNum 1));
  inr (user_lat, user_lng, dest_lat, dest_lng, duration).

(** A step of the directions: one of the service, or the sentence made
    up when the service fails. *)
Inductive step :=
  | RouteStep (text : string)
  | DriveApproximately (d : distance_text) (to : string)
  | WalkApproximately (d : distance_text).

Inductive alternative_reason :=
  | Saves (amount : R)
  | CostsMore (amount : R)
  | LongerWalk (d : distance_text)
  | ShorterWalk (d : distance_text).

Record best_parking_info := {
  bp_name : string;
  bp_address : string;
  bp_type : string;
  bp_lat : R;
  bp_lng : R;
  bp_price_per_hour : R;
  bp_estimated_cost : R;
  bp_available_spots : Z;
  bp_capacity : Z;
  bp_payment_methods : list string;
  bp_hours : string;
}.

Record route_info := {
  route_steps : list step;
  route_duration : option duration_text;   (* [None] is "Unknown" *)
  route_distance : option distance_text;   (* [None] is "Unknown" *)
  route_warning : bool;                    (* "Long walk ahead" *)
}.

Record alternative_info := {
  alt_name : string;
  alt_address : string;
  alt_price_per_hour : R;
  alt_estimated_cost : R;
  alt_available_spots : Z;
  alt_walk_distance : distance_text;
  alt_reason : list alternative_reason;   (* [] is "similar option" *)
}.

Record recommendation := {
  best_parking : best_parking_info;
  directions_to_parking : route_info;
  walk_to_destination : route_info;
  alternatives : list alternative_info;
  score : R;
  timestamp : R;
}.

Inductive response :=
  | BadRequest        (* 400, "Missing or invalid parameters" *)
  | NotFound          (* 404, "No parking available" *)
  | Ok (body : recommendation).

(** One turn of [for alt, alt_score in top_spots[1:]]. *)
Definition alternative_of (best : parking) (dest_lat dest_lng duration walk_distance : R)
    (x : parking * R) : alternative_info :=
  let '(alt, alt_score) := x in
  let cost_diff := round ((price_per_hour alt - price_per_hour best) * duration) 2 in
  let walk_dist_diff :=
    int (haversine (lat alt) (lng alt) dest_lat dest_lng - walk_distance) in
  let reason :=
    (if decide (cost_diff < 0) then [Saves (Rabs cost_diff)]
     else if decide (cost_diff > 0) then [CostsMore cost_diff]
     else [])
    ++ (if decide (walk_dist_diff > 50)%Z
        then [LongerWalk (format_distance (IZR (Z.abs walk_dist_diff)))]
        else if decide (walk_dist_diff < -50)%Z
        then [ShorterWalk (format_distance (IZR (Z.abs walk_dist_diff)))]
        else []) in
  {| alt_name := name alt;
     alt_address := address alt;
     alt_price_per_hour := price_per_hour alt;
     alt_estimated_cost := round (price_per_hour alt * duration) 2;
     alt_available_spots := available_spots alt;
     alt_walk_distance := format_distance (haversine (lat alt) (lng alt) dest_lat dest_lng);
     alt_reason := reason |}.

(** [current_parking()], for the query parameters [args]. *)
Definition current_parking (args : gmap string string) : M response :=
  match parse_args args with
  | inl _ => mret BadRequest
  | inr (user_lat, user_lng, dest_lat, dest_lng, duration) =>
      top_spots ← find_top_parking dest_lat dest_lng 3;
      match top_spots with
      | [] => mret NotFound
      | (best, score) :: _ =>
          let drive := get_directions user_lat user_lng (lat best) (lng best) "driving" in
          let walk := get_directions (lat best) (lng best) dest_lat dest_lng "walking" in
          let '(drive_directions, drive_time, drive_distance) :=
            match drive with
            | Some (steps, seconds, metres) =>
                (RouteStep <$> steps, Some seconds, metres)
            | None =>
                let d := haversine user_lat user_lng (lat best) (lng best) in
                ([DriveApproximately (format_distance d) (name best)], None, d)
            end in
          let '(walk_directions, walk_time, walk_distance) :=
            match walk with
            | Some (steps, seconds, metres) =>
                (RouteStep <$> steps, Some seconds, metres)
            | None =>
                let d := haversine (lat best) (lng best) dest_lat dest_lng in
                ([WalkApproximately (format_distance d)], None, d)
            end in
          let total_cost := round (price_per_hour best * duration) 2 in
          let alternatives :=
            alternative_of best dest_lat dest_lng duration walk_distance
              <$> slice_from_1 top_spots in
          now ← time_time;
          mret (Ok
            {| best_parking :=
                 {| bp_name := name best;
                    bp_address := address best;
                    bp_type := type best;
                    bp_lat := lat best;
                    bp_lng := lng best;
                    bp_price_per_hour := price_per_hour best;
                    bp_estimated_cost := total_cost;
                    bp_available_spots := available_spots best;
                    bp_capacity := capacity best;
                    bp_payment_methods := payment_methods best;
                    bp_hours := hours best |};
               directions_to_parking :=
                 {| route_steps := take 10 drive_directions;
                    route_duration := format_duration <$> truthy drive_time;
                    route_distance :=
                      format_distance <$> truthy (Some drive_distance);
                    route_warning := false |};
               walk_to_destination :=
                 {| route_steps := take 10 walk_directions;
                    route_duration := format_duration <$> truthy walk_time;
                    route_distance := Some (format_distance walk_distance);
                    route_warning := bool_decide (walk_distance > 500) |};
               alternatives := alternatives;
               score := round score 2;
               timestamp := now |})
      end
  end.

End Directions.

End FinderV2.

(** * The vocabulary of the properties

    Definitions that are not code of the programs: readings of what a
    call returns, invariants, and the concrete states used below. *)

(** ** Ranking *)

Module Ranking.

Section ByKey.

Context {A : Type} (key : A -> R).

(** The order of the keys. *)
Definition key_le (x y : A) : Prop := key x <= key y.

(** The elements whose key is [s], in the order of the list. *)
Definition with_key (s : R) (l : list A) : list A :=
  filter (λ x, key x = s) l.

End ByKey.

(** [x] clamped to the interval from [lo] to [hi]. *)
Definition clamp (lo hi x : Z) : Z :=
  if decide (x < lo)%Z then lo else if decide (hi < x)%Z then hi else x.

End Ranking.

(** ** Outcomes *)

Module Outcomes.

Import Effects.

(** The state a call ends in. *)
Definition final {W A} (o : outcome W A) : W :=
  match o with
  | Done _ w => w
  | Raised _ w => w
  | Blocked w => w
  end.

(** [m] keeps [I]: from a state where [I] holds it ends, in whichever
    way, in a state where [I] holds. *)
Definition preserves {W A} (I : W -> Prop) (m : M W A) : Prop :=
  forall w, I w -> I (final (m w)).

End Outcomes.

(** ** Distances *)

Module GeoProps.

Import Geo.

(** The quantity under the square roots. *)
Definition hav_a (lat1 lon1 lat2 lon2 : R) : R :=
  sin (radians (lat2 - lat1) / 2) ^ 2
  + cos (radians lat1) * cos (radians lat2) * sin (radians (lon2 - lon1) / 2) ^ 2.

End GeoProps.

(** ** realtime_parking_system.py *)

Module RealtimeProps.

Import Py Format Geo Effects Realtime.

#[local] Abbreviation M := (Effects.M world).

(** The preference of the trip: the weight stored for the user who is
    logged in, if there is one. *)
Definition trip_preference (db : gmap string user) (username : option string)
    : option R :=
  u ← username;
  if decide (u = ""%string) then None else account ← db !! u; price_weight account.

(** The candidates in catalog order, scored. *)
Definition scored_candidates (spots : list garage)
    (user_lat user_lng dest_lat dest_lng price_weight : R) : list (R * garage * R * R) :=
  scored_entry user_lat user_lng dest_lat dest_lng price_weight
    <$> available_garages spots.

(** What [find_top_garages] returns when it returns. *)
Definition top_garages (w : world) (user_lat user_lng dest_lat dest_lng : R)
    (username : option string) (n : Z) : list (R * garage * R * R) :=
  slice_to n (sort_by entry_score
    (scored_candidates (parking_spots w) user_lat user_lng dest_lat dest_lng
       (price_weight_of (users_db w) username))).

(** What [find_best_garage] returns when it returns. *)
Definition best_garage_of (w : world) (user_lat user_lng dest_lat dest_lng : R)
    (username : option string) : option garage * R * R :=
  let b := foldl (best_step user_lat user_lng dest_lat dest_lng
                    (price_weight_of (users_db w) username))
                 best_init (available_garages (parking_spots w)) in
  (best_garage b, best_drive b, best_walk b).

(** A property of the catalog alone. *)
Definition of_catalog (I : world -> Prop) : Prop :=
  forall w w', parking_spots w' = parking_spots w -> I w -> I w'.

(** The invariant of the data model, for one garage and for a catalog. *)
Definition within_capacity (g : garage) : Prop :=
  (0 <= available_spots g <= total_spots g)%Z.

(** An entry of the ledger that [check_user_recommendations] acts on:
    not older than 300, and bound to the garage that changed. *)
Definition concerned (current_time : R) (changed_garage : garage)
    (entry : string * recommendation) : Prop :=
  ¬ (current_time - timestamp entry.2 > 300)
  ∧ garage_name entry.2 = name changed_garage.

#[global] Instance concerned_dec current_time changed_garage entry :
  Decision (concerned current_time changed_garage entry) :=
  and_dec _ _.

(** The turn of the loop of [check_user_recommendations] for one entry. *)
Definition check_entry (current_time : R) (changed_garage : garage)
    (old_available : Z) (entry : string * recommendation) : M unit :=
  let '(session_id, rec) := entry in
  if decide (current_time - timestamp rec > 300) then mret ()
  else if decide (garage_name rec = name changed_garage) then
    if decide (available_spots changed_garage = 0)%Z then
      send_reroute_notification session_id rec "full"
    else if decide (available_spots changed_garage < 5 ∧ old_available >= 5)%Z then
      send_low_availability_warning session_id changed_garage
    else mret ()
  else mret ().

(** The warnings sent when the count of a garage that is not full
    changed: one for each entry concerned, in the order of the ledger,
    if the count went below 5 from 5 or more. *)
Definition warnings (current_time : R) (changed_garage : garage) (old_available : Z)
    (ledger : list (string * recommendation)) : list (string * message) :=
  if decide (available_spots changed_garage < 5 ∧ old_available >= 5)%Z then
    (λ entry, (entry.1, WarningNotification (name changed_garage)
                          (available_spots changed_garage)))
      <$> filter (concerned current_time changed_garage) ledger
  else [].

(** The two errors of [send_reroute_notification] and of
    [handle_parking_request], and the error of a request that is rejected. *)
Definition no_parking_message : message :=
  ErrorNotification "All parking is currently full. Searching for alternatives...".

Definition unavailable_message : message := ErrorNotification "No parking available".

Definition invalid_message : message := ErrorNotification "Invalid location data".

(** The notification about the new garage. *)
Definition reroute_message (old_rec : recommendation) (reason : string)
    (old_garage new_garage : garage) (new_drive new_walk : R) : message :=
  RerouteNotification (garage_name old_rec)
    (if decide (reason = "full") then "is now full" else "has limited availability")
    (impact_parts
       ((price_per_hour new_garage - price_per_hour old_garage) * duration old_rec)
       (new_walk - walk_distance old_rec))
    {| ng_name := name new_garage;
       ng_address := address new_garage;
       ng_price_per_hour := price_per_hour new_garage;
       ng_estimated_cost := round (price_per_hour new_garage * duration old_rec) 2;
       ng_available_spots := available_spots new_garage;
       ng_lat := lat new_garage;
       ng_lng := lng new_garage;
       ng_drive_distance := format_distance new_drive;
       ng_walk_distance := format_distance new_walk |}.

(** [float] accepts the value. *)
Definition convertible (float_of_str : string -> option R) (v : pyval) : Prop :=
  exists x, Py.float float_of_str v = inr x.

(** The entry written for a request that is served. *)
Definition entry_of (username : option string) (best_garage : garage)
    (now user_lat user_lng dest_lat dest_lng duration best_walk : R) : recommendation :=
  {| username := username; garage_name := name best_garage; timestamp := now;
     user_lat := user_lat; user_lng := user_lng;
     dest_lat := dest_lat; dest_lng := dest_lng;
     duration := duration; walk_distance := best_walk |}.

End RealtimeProps.

(** ** parking_finder_v2.py *)

Module FinderV2Props.

Import Py Format Geo Effects FinderV2.

(** The candidates in catalog order, each with its score. *)
Definition scored_candidates (spots : list parking) (dest_lat dest_lng : R)
    : list (parking * R) :=
  (λ p, (p, score_parking p dest_lat dest_lng alpha_default)) <$> available spots.

(** What [find_top_parking] returns when it returns. *)
Definition top_parking (w : world) (dest_lat dest_lng : R) (n : Z)
    : list (parking * R) :=
  slice_to n (sort_by snd (scored_candidates (parking_spots w) dest_lat dest_lng)).

(** The invariant of the data model. *)
Definition within_capacity (p : parking) : Prop :=
  (0 <= available_spots p <= capacity p)%Z.

(** A block printed for a re-route. *)
Definition is_reroute (l : line) : Prop :=
  match l with
  | RerouteNotification _ _ _ _ _ _ _ _ _ => True
  | _ => False
  end.

(** The reason given in such a block. *)
Definition reroute_reason (l : line) : option notify_reason :=
  match l with
  | RerouteNotification reason _ _ _ _ _ _ _ _ => Some reason
  | _ => None
  end.

(** Re-routes in what was printed are more than 10 apart. *)
Definition spaced (out : list (R * line)) : Prop :=
  forall i j ti tj li lj,
    (i < j)%nat -> out !! i = Some (ti, li) -> out !! j = Some (tj, lj) ->
    is_reroute li -> is_reroute lj -> tj - ti > 10.

(** The invariant of the loop: the re-routes are spaced, and none is
    later than the time of the last notification. *)
Definition throttled (out : list (R * line)) (last : R) : Prop :=
  spaced out ∧ forall t l, (t, l) ∈ out -> is_reroute l -> t <= last.


End FinderV2Props.

(** ** Further readings of realtime_parking_system.py *)

Module RealtimeReadings.

Import Py Format Geo Effects Realtime RealtimeProps.

(** The variables of the loop of [find_best_garage] once it has been
    offered the entry [e] of the scored list (or none). *)
Definition pick (acc : best) (e : option (R * garage * R * R)) : best :=
  match e with
  | None => acc
  | Some (s, g, d, k) =>
      if below s (best_score acc) then
        {| best_score := Some s; best_garage := Some g; best_drive := d; best_walk := k |}
      else acc
  end.

(** The change [change] fills the garage [g], which had places, and an
    entry of the ledger that is not older than 300 is bound to it. *)
Definition fills (now : R) (ledger : list (string * recommendation))
    (g : garage) (change : Z) : Prop :=
  available_spots g ≠ 0%Z ∧ adjusted g change = 0%Z
  ∧ Exists (concerned now g) ledger.

#[global] Instance fills_dec now ledger g change : Decision (fills now ledger g change) :=
  and_dec _ (and_dec _ _).

(** The catalog after a tick of the simulator: the garages from
    position [i] on, each with its new count. *)
Fixpoint tick_spots (changes : nat -> Z) (i : nat) (spots : list garage) : list garage :=
  match spots with
  | [] => []
  | g :: rest =>
      with_available_spots (adjusted g (changes i)) g :: tick_spots changes (S i) rest
  end.

(** The warnings of a tick, garage after garage from position [i] on. *)
Fixpoint tick_warnings (now : R) (ledger : list (string * recommendation))
    (changes : nat -> Z) (i : nat) (spots : list garage) : list (string * message) :=
  match spots with
  | [] => []
  | g :: rest =>
      warnings now (with_available_spots (adjusted g (changes i)) g)
        (available_spots g) ledger
      ++ tick_warnings now ledger changes (S i) rest
  end.

(** Every weight stored with an account is between 0 and 1. *)
Definition weights_in_range (db : gmap string user) : Prop :=
  forall u account x,
    db !! u = Some account -> price_weight account = Some x -> 0 <= x <= 1.

End RealtimeReadings.

(** ** Doubles *)

Module DoublesProps.

Import Py Format Geo Effects Realtime.
Import Doubles RealtimeDoubles.

(** The double is a finite number. *)
Definition finite (x : double) : Prop :=
  match x with
  | Finite _ => True
  | _ => False
  end.

#[global] Instance finite_dec x : Decision (finite x) :=
  match x with
  | Finite _ => left I
  | _ => right (λ H, H)
  end.

(** The double is an infinity. *)
Definition infinite (x : double) : Prop :=
  match x with
  | PosInf | NegInf => True
  | _ => False
  end.

#[global] Instance infinite_dec x : Decision (infinite x) :=
  match x with
  | PosInf | NegInf => left I
  | _ => right (λ H, H)
  end.


End DoublesProps.

(** ** Further readings of parking_finder_v2.py *)

Module NavigationReadings.

Import Py Format Geo Effects FinderV2 FinderV2Props.

(** The catalogs the turns of a run find: the one the run starts with,
    then the one after each [time.sleep(5)]. *)
Definition catalogs (w : world) (env : list (list parking * R)) : list (list parking) :=
  parking_spots w :: env.*1.

(** How many of the catalogs have a location with a free place. *)
Fixpoint turns_with_parking (cs : list (list parking)) : nat :=
  match cs with
  | [] => 0
  | spots :: cs' =>
      (match available spots with [] => 0 | _ :: _ => 1 end + turns_with_parking cs')%nat
  end.

(** Where the user is after [k] turns that moved, from the position of
    the state [st]. *)
Definition after_moves (dest_lat dest_lng : R) (st : nav_state) (k : nat) : R * R :=
  (dest_lat - 0.92 ^ k * (dest_lat - nav_lat st),
   dest_lng - 0.92 ^ k * (dest_lng - nav_lng st)).

(** A turn of the loop finds a better deal: the location ranked first is
    not the one recommended before, which still has places, and the
    tests of [should_notify] grant the notification, with the saving
    [savings]. *)
Definition better_deal_event (dest_lat dest_lng duration : R)
    (st : nav_state) (w : world) : Prop :=
  exists old_spot best score rest savings,
    last_recommended st = Some old_spot
    ∧ find_top_parking dest_lat dest_lng 3 w
      = Done ((best, score) :: rest) w
    ∧ name best ≠ name old_spot
    ∧ should_notify
        (still_available (name old_spot) (parking_spots w))
        (haversine (nav_lat st) (nav_lng st)
           (lat best) (lng best))
        old_spot best duration
      = Some (BetterDeal savings).

End NavigationReadings.

(** ** Concrete states *)

(** The trip of the scenario of the specification: from
    (40.4400, -79.9950) to (40.4425, -79.9945). *)
Definition scenario_user_lat : R := 40.4400.
Definition scenario_user_lng : R := -79.9950.
Definition scenario_dest_lat : R := 40.4425.
Definition scenario_dest_lng : R := -79.9945.

(** A garage at (0, 0) that costs 2 an hour and has 45 places. *)
Definition on_the_spot : FinderV2.parking :=
  {| FinderV2.name := "Garage"; FinderV2.address := "Here";
     FinderV2.lat := 0; FinderV2.lng := 0; FinderV2.price_per_hour := 2;
     FinderV2.capacity := 100; FinderV2.available_spots := 45;
     FinderV2.type := "garage"; FinderV2.payment_methods := [];
     FinderV2.hours := "24/7" |}.

(** A state the server reaches: the street zone has three places left
    (eight at the start, five taken in an earlier tick), and session
    ["s1"], who asked at time 0 for a trip that starts and ends where
    the zone is, was recommended the zone. *)
Definition zone_entry : Realtime.recommendation :=
  {| Realtime.username := None;
     Realtime.garage_name := "Street Parking Zone";
     Realtime.timestamp := 0;
     Realtime.user_lat := Realtime.lat Realtime.zone_at_start;
     Realtime.user_lng := Realtime.lng Realtime.zone_at_start;
     Realtime.dest_lat := Realtime.lat Realtime.zone_at_start;
     Realtime.dest_lng := Realtime.lng Realtime.zone_at_start;
     Realtime.duration := 2;
     Realtime.walk_distance := 0 |}.

Definition zone : Realtime.garage :=
  Realtime.with_available_spots 3 Realtime.zone_at_start.

Definition zone_world : Realtime.world :=
  {| Realtime.parking_spots := <[3%nat := zone]> Realtime.initial_parking_spots;
     Realtime.users_db := ∅;
     Realtime.user_recommendations := [("s1"%string, zone_entry)];
     Realtime.parking_lock := false;
     Realtime.clock := 16;
     Realtime.outbox := [] |}.

(** The changes of a tick: three places of the zone are taken, the
    other garages stay as they are. *)
Definition zone_changes (i : nat) : Z :=
  if decide (i = 3%nat) then (-3)%Z else 0%Z.


(** A request with coordinates and no duration. *)
Definition no_duration_request : gmap string Py.pyval :=
  {[ "user_lat"%string := Py.PyNum scenario_user_lat;
     "user_lng"%string := Py.PyNum scenario_user_lng;
     "dest_lat"%string := Py.PyNum scenario_dest_lat;
     "dest_lng"%string := Py.PyNum scenario_dest_lng ]}.

(** A turn that notifies of a better deal: the user is at (0, 0), both
    garages are at the destination (0, 180), the one recommended before
    costs 3 an hour and the other 1, and the last notification was 11
    ago.  The directions service gives no answer. *)
Definition dear : FinderV2.parking :=
  {| FinderV2.name := "Dear"; FinderV2.address := "1 Far Side";
     FinderV2.lat := 0; FinderV2.lng := 180; FinderV2.price_per_hour := 3;
     FinderV2.capacity := 50; FinderV2.available_spots := 30;
     FinderV2.type := "garage"; FinderV2.payment_methods := [];
     FinderV2.hours := "24/7" |}.

Definition cheap : FinderV2.parking :=
  {| FinderV2.name := "Cheap"; FinderV2.address := "2 Far Side";
     FinderV2.lat := 0; FinderV2.lng := 180; FinderV2.price_per_hour := 1;
     FinderV2.capacity := 50; FinderV2.available_spots := 30;
     FinderV2.type := "garage"; FinderV2.payment_methods := [];
     FinderV2.hours := "24/7" |}.

Definition deal_world : FinderV2.world :=
  {| FinderV2.parking_spots := [dear; cheap]; FinderV2.parking_lock := false;
     FinderV2.clock := 11; FinderV2.stdout := [] |}.

Definition deal_state : FinderV2.nav_state :=
  {| FinderV2.last_recommended := Some dear;
     FinderV2.last_notification_time := 0;
     FinderV2.nav_lat := 0; FinderV2.nav_lng := 0 |}.

Definition no_directions : R -> R -> R -> R -> string -> option (list string * R * R) :=
  λ _ _ _ _ _, None.

(** An account, and the server with it. *)
Definition alice : Realtime.user :=
  {| Realtime.password_hash := "hash"; Realtime.price_weight := Some 0.3 |}.

Definition alice_world : Realtime.world :=
  Realtime.with_users_db {[ "alice"%string := alice ]} (Realtime.initial_world 0).

(** A body for [/api/preferences] with a weight above 1. *)
Definition eager_weight : gmap string Py.pyval :=
  {[ "price_weight"%string := Py.PyNum 2 ]}.

(** A hash that is the password itself, and its check. *)
Definition plain_hash (password salt : string) : string := password.

Definition plain_check (pwhash password : string) : bool :=
  bool_decide (pwhash = password).

(** The state of the better deal, at clock reading 5. *)
Definition early_deal_world : FinderV2.world := FinderV2.with_clock 5 deal_world.

(** A catalog with no garage. *)
Definition nowhere_world : FinderV2.world :=
  FinderV2.with_parking_spots [] (FinderV2.initial_world 0).

(** Query parameters that all read as 0. *)
Definition origin_args : gmap string string :=
  {[ "user_lat"%string := "0"%string; "user_lng"%string := "0"%string;
     "dest_lat"%string := "0"%string; "dest_lng"%string := "0"%string ]}.

Definition zero_of_str : string -> option R := λ _, Some 0.




(** A garage at the destination (0, 180), by name, price per hour and
    free places. *)
Definition far_side (n : string) (price : R) (places : Z) : FinderV2.parking :=
  {| FinderV2.name := n; FinderV2.address := "Far Side";
     FinderV2.lat := 0; FinderV2.lng := 180; FinderV2.price_per_hour := price;
     FinderV2.capacity := 50; FinderV2.available_spots := places;
     FinderV2.type := "garage"; FinderV2.payment_methods := [];
     FinderV2.hours := "24/7" |}.

(** A run of the navigation in which the better deal comes twice.  It
    starts at clock reading 0 at (0, 0), for the destination (0, 180)
    and two hours; only the dearest garage has places.  When the thread
    wakes at 8 the garage "Fair" has places as well, and when it wakes
    at 13 so has "Cheap". *)
Definition throttle_start : FinderV2.world :=
  {| FinderV2.parking_spots :=
       [far_side "Dear" 3 10; far_side "Fair" 2 0; far_side "Cheap" 1 0];
     FinderV2.parking_lock := false; FinderV2.clock := 0; FinderV2.stdout := [] |}.

Definition throttle_env : list (list FinderV2.parking * R) :=
  [([far_side "Dear" 3 10; far_side "Fair" 2 10; far_side "Cheap" 1 0], 8);
   ([far_side "Dear" 3 10; far_side "Fair" 2 10; far_side "Cheap" 1 10], 13);
   ([far_side "Dear" 3 10; far_side "Fair" 2 10; far_side "Cheap" 1 10], 18)].

(** * Properties *)

(** ** Sorting and slicing *)

Module PyFacts.

Import Py Ranking.

Section SortBy.

Context {A : Type} (key : A -> R).

#[local] Abbreviation key_le := (Ranking.key_le key).
#[local] Abbreviation with_key := (Ranking.with_key key).

Lemma insert_by_perm x l : insert_by key x l ≡ₚ x :: l.
Proof.
  induction l as [| y l IH]; simpl; [done |].
  case_decide; [| done].
  rewrite IH. apply Permutation_swap.
Qed.

Lemma sort_by_perm l : sort_by key l ≡ₚ l.
Proof.
  induction l as [| x l IH]; simpl; [done |].
  by rewrite insert_by_perm, IH.
Qed.

Lemma insert_by_sorted x l :
  StronglySorted key_le l -> StronglySorted key_le (insert_by key x l).
Proof.
  induction 1 as [| y l Hl IH Hy]; simpl.
  - repeat constructor.
  - case_decide as Hlt.
    + constructor; [done |].
      rewrite insert_by_perm. constructor; [| done].
      unfold key_le. lra.
    + constructor; [by constructor |].
      assert (key x <= key y) as Hxy by lra.
      constructor; [done |].
      eapply Forall_impl; [exact Hy |].
      unfold key_le. intros z Hz. lra.
Qed.

Lemma sort_by_sorted l : StronglySorted key_le (sort_by key l).
Proof.
  induction l as [| x l IH]; simpl; [constructor |].
  by apply insert_by_sorted.
Qed.

(** Inserting does not move an element past one with the same key. *)
Lemma insert_by_with_key s x l :
  with_key s (insert_by key x l) = with_key s (x :: l).
Proof.
  unfold with_key.
  induction l as [| y l IH]; simpl; [done |].
  case_decide as Hlt; [| done].
  rewrite !filter_cons, IH, !filter_cons.
  repeat case_decide; try done; lra.
Qed.

Lemma sort_by_stable s l : with_key s (sort_by key l) = with_key s l.
Proof.
  induction l as [| x l IH]; simpl; [done |].
  rewrite insert_by_with_key. unfold with_key in *.
  by rewrite !filter_cons, IH.
Qed.

Lemma sorted_lookup l i j x y :
  StronglySorted key_le l -> (i <= j)%nat ->
  l !! i = Some x -> l !! j = Some y -> key x <= key y.
Proof.
  intros Hl. revert i j.
  induction Hl as [| z l Hl IH Hz]; intros i j Hij Hi Hj; [done |].
  destruct i as [| i], j as [| j]; simpl in *; simplify_eq.
  - lra.
  - rewrite Forall_forall in Hz. apply Hz.
    by eapply list_elem_of_lookup_2.
  - lia.
  - apply (IH i j); [lia | done | done].
Qed.

Lemma sorted_take n l :
  StronglySorted key_le l -> StronglySorted key_le (take n l).
Proof.
  intros Hl. revert n.
  induction Hl as [| z l Hl IH Hz]; intros [| n]; simpl; try constructor.
  - apply IH.
  - eapply Forall_forall. intros y Hy.
    rewrite Forall_forall in Hz. apply Hz.
    eapply elem_of_sublist; [apply Hy |]. apply sublist_take.
Qed.

Lemma with_key_take s n l : with_key s (take n l) `prefix_of` with_key s l.
Proof.
  exists (with_key s (drop n l)). unfold with_key.
  by rewrite <- filter_app, take_drop.
Qed.

End SortBy.

(** [l[:n]] is a prefix of [l], of at most [n] elements when [n] is
    not negative. *)
Lemma slice_to_take {A} (n : Z) (l : list A) :
  exists k, slice_to n l = take k l.
Proof. unfold slice_to. case_decide; eauto. Qed.

Lemma slice_to_length {A} (n : Z) (l : list A) :
  (0 <= n)%Z -> (length (slice_to n l) <= Z.to_nat n)%nat.
Proof.
  intros Hn. unfold slice_to. rewrite decide_True by done.
  rewrite length_take. lia.
Qed.

Lemma slice_to_nil {A} (n : Z) : slice_to n (@nil A) = [].
Proof. unfold slice_to. case_decide; by rewrite take_nil. Qed.

Lemma insert_by_ext {A} (key key' : A -> R) x l :
  (forall y, key y = key' y) -> insert_by key x l = insert_by key' x l.
Proof.
  intros Hk. induction l as [| y l IH]; simpl; [done |].
  rewrite IH, !Hk. done.
Qed.

Lemma sort_by_ext {A} (key key' : A -> R) l :
  (forall y, key y = key' y) -> sort_by key l = sort_by key' l.
Proof.
  intros Hk. induction l as [| y l IH]; simpl; [done |].
  rewrite IH. by apply insert_by_ext.
Qed.

Lemma insert_by_fmap {A B} (f : A -> B) (key : B -> R) x l :
  f <$> insert_by (λ a, key (f a)) x l = insert_by key (f x) (f <$> l).
Proof.
  induction l as [| y l IH]; [done |].
  rewrite fmap_cons. cbn [insert_by].
  case_decide; rewrite !fmap_cons; [by rewrite IH | done].
Qed.

Lemma sort_by_fmap {A B} (f : A -> B) (key : B -> R) l :
  f <$> sort_by (λ a, key (f a)) l = sort_by key (f <$> l).
Proof.
  induction l as [| y l IH]; [done |].
  rewrite fmap_cons. cbn [sort_by].
  by rewrite insert_by_fmap, IH.
Qed.

Lemma slice_to_fmap {A B} (f : A -> B) (n : Z) (l : list A) :
  f <$> slice_to n l = slice_to n (f <$> l).
Proof.
  unfold slice_to. rewrite length_fmap. case_decide; by rewrite fmap_take.
Qed.

(** What [sort] followed by [[:n]] gives: the result is in ascending
    order of the key, elements with the same key keep the order they had,
    there are at most [n] of them, and what was left out is no better. *)
Lemma slice_sort_spec {A} (key : A -> R) (n : Z) (l : list A) :
  let res := slice_to n (sort_by key l) in
  (forall i j x y, (i <= j)%nat -> res !! i = Some x -> res !! j = Some y ->
     key x <= key y)
  ∧ (forall s, with_key key s res `prefix_of` with_key key s l)
  ∧ ((0 <= n)%Z -> (length res <= Z.to_nat n)%nat)
  ∧ (exists rest, res ++ rest ≡ₚ l
       ∧ forall x y, x ∈ res -> y ∈ rest -> key x <= key y).
Proof.
  intros res.
  destruct (slice_to_take n (sort_by key l)) as [k Hk].
  pose proof (sort_by_sorted key l) as Hsorted.
  subst res. rewrite Hk.
  split; [| split; [| split]].
  - intros i j x y Hij Hi Hj.
    eapply sorted_lookup; [| exact Hij | exact Hi | exact Hj].
    by apply sorted_take.
  - intros s. rewrite <- (sort_by_stable key s l). apply with_key_take.
  - intros Hn. rewrite <- Hk. by apply slice_to_length.
  - exists (drop k (sort_by key l)). split.
    + by rewrite take_drop, sort_by_perm.
    + intros x y Hx Hy.
      apply elem_of_take in Hx as (i & Hi & Hlt).
      apply list_elem_of_lookup in Hy as (j & Hj).
      rewrite lookup_drop in Hj.
      eapply sorted_lookup; [exact Hsorted | | exact Hi | exact Hj]. lia.
Qed.

End PyFacts.

(** ** The monad: what holds of the state however a call ends *)

Module EffectsFacts.

Import Py Effects Outcomes.

Section Preserves.

Context {W : Type} (I : W -> Prop).

Lemma preserves_ret {A} (a : A) : preserves I (mret a : M W A).
Proof. by intros w Hw. Qed.

Lemma preserves_gets {A} (f : W -> A) : preserves I (gets f).
Proof. by intros w Hw. Qed.

Lemma preserves_raise {A} e : preserves I (raise e : M W A).
Proof. by intros w Hw. Qed.

Lemma preserves_modify (f : W -> W) :
  (forall w, I w -> I (f w)) -> preserves I (modify f).
Proof. intros Hf w Hw. by apply Hf. Qed.

Lemma preserves_bind {A B} (m : M W A) (f : A -> M W B) :
  preserves I m -> (forall a, preserves I (f a)) -> preserves I (m ≫= f).
Proof.
  intros Hm Hf w Hw. specialize (Hm w Hw).
  unfold mbind, M_bind. destruct (m w) as [a w' | e w' | w']; simpl in *; [| done | done].
  by apply Hf.
Qed.

Lemma preserves_with_lock {A} `{Lockable W} (body : M W A) :
  (forall b w, I w -> I (with_lock_held b w)) ->
  preserves I body -> preserves I (with_lock body).
Proof.
  intros Hlock Hbody w Hw. unfold with_lock.
  destruct (holds_lock w); [done |].
  specialize (Hbody (with_lock_held true w) (Hlock _ _ Hw)).
  destruct (body (with_lock_held true w)); simpl in *; auto.
Qed.

Lemma preserves_for_each {A} (l : list A) (body : A -> M W unit) :
  (forall x, x ∈ l -> preserves I (body x)) -> preserves I (for_each l body).
Proof.
  induction l as [| x l IH]; intros Hbody; simpl.
  - apply preserves_ret.
  - apply preserves_bind.
    + apply Hbody. constructor.
    + intros _. apply IH. intros y Hy. apply Hbody. by constructor.
Qed.

End Preserves.

(** *** Loops *)

Lemma for_each_cons {W A} (x : A) (l : list A) (body : A -> M W unit) w :
  for_each (x :: l) body w
  = match body x w with
    | Done _ w' => for_each l body w'
    | Raised e w' => Raised e w'
    | Blocked w' => Blocked w'
    end.
Proof. reflexivity. Qed.

Lemma for_each_app {W A} (l1 l2 : list A) (body : A -> M W unit) w :
  for_each (l1 ++ l2) body w
  = match for_each l1 body w with
    | Done _ w' => for_each l2 body w'
    | Raised e w' => Raised e w'
    | Blocked w' => Blocked w'
    end.
Proof.
  revert w. induction l1 as [| x l1 IH]; intros w; [done |].
  rewrite <- app_comm_cons, !for_each_cons.
  destruct (body x w); [apply IH | done | done].
Qed.

(** Turns that do nothing. *)
Lemma for_each_skip {W A} (l : list A) (body : A -> M W unit) w :
  (forall x, x ∈ l -> body x w = Done () w) -> for_each l body w = Done () w.
Proof.
  induction l as [| x l IH]; intros Hbody; [done |].
  rewrite for_each_cons, Hbody by constructor.
  apply IH. intros y Hy. apply Hbody. by constructor.
Qed.

(** The first turn that blocks ends the loop. *)
Lemma for_each_blocks {W A} (l : list A) (body : A -> M W unit) w :
  (forall x, x ∈ l -> body x w = Done () w ∨ body x w = Blocked w) ->
  (exists x, x ∈ l ∧ body x w = Blocked w) ->
  for_each l body w = Blocked w.
Proof.
  induction l as [| x l IH]; intros Hbody (y & Hy & Hblock).
  - by apply elem_of_nil in Hy.
  - rewrite for_each_cons.
    destruct (Hbody x) as [Hx | Hx]; [constructor | |]; rewrite Hx; [| done].
    apply IH.
    + intros z Hz. apply Hbody. by constructor.
    + apply elem_of_cons in Hy as [-> | Hy]; [congruence |]. eauto.
Qed.

End EffectsFacts.

(** ** Distances *)

Module GeoFacts.

Import Py Geo GeoProps.

Lemma haversine_unfold lat1 lon1 lat2 lon2 :
  haversine lat1 lon1 lat2 lon2 =
  6371000 * (2 * atan2 (sqrt (hav_a lat1 lon1 lat2 lon2))
                       (sqrt (1 - hav_a lat1 lon1 lat2 lon2))).
Proof. reflexivity. Qed.

Lemma hav_a_sym lat1 lon1 lat2 lon2 :
  hav_a lat1 lon1 lat2 lon2 = hav_a lat2 lon2 lat1 lon1.
Proof.
  unfold hav_a, radians.
  replace ((lat1 - lat2) * (PI / 180) / 2) with (- ((lat2 - lat1) * (PI / 180) / 2)) by lra.
  replace ((lon1 - lon2) * (PI / 180) / 2) with (- ((lon2 - lon1) * (PI / 180) / 2)) by lra.
  rewrite !sin_neg. ring.
Qed.

Lemma hav_a_same lat lon : hav_a lat lon lat lon = 0.
Proof.
  unfold hav_a, radians.
  replace ((lat - lat) * (PI / 180) / 2) with 0 by lra.
  replace ((lon - lon) * (PI / 180) / 2) with 0 by lra.
  rewrite sin_0. ring.
Qed.

Lemma atan_nonneg x : 0 <= x -> 0 <= atan x.
Proof.
  intros [Hx | <-].
  - left. rewrite <- atan_0. by apply atan_increasing.
  - rewrite atan_0. lra.
Qed.

Lemma atan2_nonneg y x : 0 <= y -> 0 <= x -> 0 <= atan2 y x.
Proof.
  intros Hy Hx. unfold atan2.
  destruct (decide (0 < x)) as [Hpos | Hnpos].
  - apply atan_nonneg. apply Rmult_le_pos; [done |].
    left. by apply Rinv_0_lt_compat.
  - rewrite decide_False by lra.
    destruct (decide (0 < y)).
    + pose proof PI_RGT_0. lra.
    + rewrite decide_False by lra. lra.
Qed.

Lemma atan2_0_1 : atan2 0 1 = 0.
Proof.
  unfold atan2. rewrite decide_True by lra.
  replace (0 / 1) with 0 by lra. apply atan_0.
Qed.

Lemma atan2_1_0 : atan2 1 0 = PI / 2.
Proof.
  unfold atan2. rewrite decide_False by lra. rewrite decide_False by lra.
  rewrite decide_True by lra. reflexivity.
Qed.

Lemma haversine_of_a_0 lat1 lon1 lat2 lon2 :
  hav_a lat1 lon1 lat2 lon2 = 0 -> haversine lat1 lon1 lat2 lon2 = 0.
Proof.
  intros Ha. rewrite haversine_unfold, Ha.
  replace (1 - 0) with 1 by lra.
  rewrite sqrt_0, sqrt_1, atan2_0_1. lra.
Qed.

Lemma haversine_of_a_1 lat1 lon1 lat2 lon2 :
  hav_a lat1 lon1 lat2 lon2 = 1 -> haversine lat1 lon1 lat2 lon2 = 6371000 * PI.
Proof.
  intros Ha. rewrite haversine_unfold, Ha.
  replace (1 - 1) with 0 by lra.
  rewrite sqrt_0, sqrt_1, atan2_1_0. lra.
Qed.

Lemma haversine_nonneg lat1 lon1 lat2 lon2 : 0 <= haversine lat1 lon1 lat2 lon2.
Proof.
  rewrite haversine_unfold.
  assert (0 <= atan2 (sqrt (hav_a lat1 lon1 lat2 lon2))
                     (sqrt (1 - hav_a lat1 lon1 lat2 lon2))) as Hc
    by (apply atan2_nonneg; apply sqrt_pos).
  lra.
Qed.

Lemma haversine_sym lat1 lon1 lat2 lon2 :
  haversine lat1 lon1 lat2 lon2 = haversine lat2 lon2 lat1 lon1.
Proof. rewrite !haversine_unfold. by rewrite hav_a_sym. Qed.

Lemma haversine_same lat lon : haversine lat lon lat lon = 0.
Proof. apply haversine_of_a_0, hav_a_same. Qed.

(** Both poles are reached by every longitude. *)
Lemma haversine_north_pole lon1 lon2 : haversine 90 lon1 90 lon2 = 0.
Proof.
  apply haversine_of_a_0. unfold hav_a, radians.
  replace ((90 - 90) * (PI / 180) / 2) with 0 by lra.
  replace (90 * (PI / 180)) with (PI / 2) by lra.
  rewrite sin_0, cos_PI2. ring.
Qed.

(** Half of the equator. *)
Lemma haversine_half_equator : haversine 0 0 0 180 = 6371000 * PI.
Proof.
  apply haversine_of_a_1. unfold hav_a, radians.
  replace ((0 - 0) * (PI / 180) / 2) with 0 by lra.
  replace (0 * (PI / 180)) with 0 by lra.
  replace ((180 - 0) * (PI / 180) / 2) with (PI / 2) by lra.
  rewrite sin_0, cos_0, sin_PI2. ring.
Qed.


End GeoFacts.

(** ** realtime_parking_system.py: scoring and ranking *)

Module RealtimeFacts.

Import Py Format Geo Effects Realtime Ranking Outcomes RealtimeProps PyFacts EffectsFacts.

#[local] Abbreviation M := (Effects.M world).

Lemma release_acquire w :
  parking_lock w = false ->
  with_parking_lock_held false (with_parking_lock_held true w) = w.
Proof. destruct w; simpl; by intros ->. Qed.

Lemma with_lock_held {A} (body : M A) w :
  parking_lock w = true -> with_lock body w = Blocked w.
Proof. intros Hw. unfold with_lock. simpl. by rewrite Hw. Qed.

(** A body that only reads. *)
Lemma with_lock_gets {A} (f : world -> A) w :
  parking_lock w = false ->
  with_lock (x ← gets f; mret x) w = Done (f (with_parking_lock_held true w)) w.
Proof.
  intros Hw. unfold with_lock. simpl. rewrite Hw.
  unfold mbind, M_bind, gets, mret, M_ret.
  by rewrite release_acquire.
Qed.

Lemma find_top_garages_free w user_lat user_lng dest_lat dest_lng username n :
  parking_lock w = false ->
  find_top_garages user_lat user_lng dest_lat dest_lng username n w
  = Done (top_garages w user_lat user_lng dest_lat dest_lng username n) w.
Proof.
  intros Hw. unfold find_top_garages, top_garages, scored_candidates.
  unfold mbind, M_bind, gets, with_lock. simpl. rewrite Hw. simpl.
  destruct (available_garages (parking_spots w)) as [| g l] eqn:Hav.
  - unfold mret, M_ret. rewrite release_acquire by done.
    simpl. by rewrite slice_to_nil.
  - unfold mret, M_ret. by rewrite release_acquire.
Qed.

Lemma find_top_garages_held w user_lat user_lng dest_lat dest_lng username n :
  parking_lock w = true ->
  find_top_garages user_lat user_lng dest_lat dest_lng username n w = Blocked w.
Proof.
  intros Hw. unfold find_top_garages.
  unfold mbind, M_bind, gets, with_lock. simpl. by rewrite Hw.
Qed.

Lemma find_best_garage_free w user_lat user_lng dest_lat dest_lng username :
  parking_lock w = false ->
  find_best_garage user_lat user_lng dest_lat dest_lng username w
  = Done (best_garage_of w user_lat user_lng dest_lat dest_lng username) w.
Proof.
  intros Hw. unfold find_best_garage, best_garage_of.
  unfold mbind, M_bind, gets, with_lock. simpl. rewrite Hw. simpl.
  destruct (available_garages (parking_spots w)) as [| g l] eqn:Hav.
  - unfold mret, M_ret. by rewrite release_acquire.
  - unfold mret, M_ret. by rewrite release_acquire.
Qed.

Lemma find_best_garage_held w user_lat user_lng dest_lat dest_lng username :
  parking_lock w = true ->
  find_best_garage user_lat user_lng dest_lat dest_lng username w = Blocked w.
Proof.
  intros Hw. unfold find_best_garage.
  unfold mbind, M_bind, gets, with_lock. simpl. by rewrite Hw.
Qed.

Lemma available_garages_spec spots g :
  g ∈ available_garages spots <-> g ∈ spots ∧ (0 < available_spots g)%Z.
Proof.
  unfold available_garages. rewrite list_elem_of_filter.
  split; intros [? ?]; split; try done; lia.
Qed.

Lemma entry_garage_scored user_lat user_lng dest_lat dest_lng pw g :
  entry_garage (scored_entry user_lat user_lng dest_lat dest_lng pw g) = g.
Proof. reflexivity. Qed.

Lemma scored_candidates_available spots user_lat user_lng dest_lat dest_lng pw x :
  x ∈ scored_candidates spots user_lat user_lng dest_lat dest_lng pw ->
  entry_garage x ∈ spots ∧ (0 < available_spots (entry_garage x))%Z.
Proof.
  unfold scored_candidates. rewrite list_elem_of_fmap.
  intros (g & -> & Hg). rewrite entry_garage_scored.
  by apply available_garages_spec.
Qed.

Lemma top_garages_candidates w user_lat user_lng dest_lat dest_lng username n x :
  x ∈ top_garages w user_lat user_lng dest_lat dest_lng username n ->
  x ∈ scored_candidates (parking_spots w) user_lat user_lng dest_lat dest_lng
        (price_weight_of (users_db w) username).
Proof.
  unfold top_garages.
  destruct (slice_to_take n (sort_by entry_score
    (scored_candidates (parking_spots w) user_lat user_lng dest_lat dest_lng
       (price_weight_of (users_db w) username)))) as [k ->].
  intros Hx. rewrite <- (sort_by_perm entry_score).
  eapply elem_of_sublist; [exact Hx | apply sublist_take].
Qed.

(** The loop of [find_best_garage] keeps a garage of the list it runs
    over, and has one as soon as the list is not empty. *)
Lemma best_step_garage user_lat user_lng dest_lat dest_lng pw l :
  forall acc g,
    best_garage (foldl (best_step user_lat user_lng dest_lat dest_lng pw) acc l) = Some g ->
    best_garage acc = Some g ∨ g ∈ l.
Proof.
  induction l as [| x l IH]; intros acc g Hg; simpl in *; [by left |].
  destruct (IH _ _ Hg) as [Hacc | Hin]; [| right; by constructor].
  unfold best_step in Hacc.
  destruct (score_parking x user_lat user_lng dest_lat dest_lng pw) as [[sc dr] wk].
  destruct (below sc (best_score acc)); simpl in Hacc.
  - simplify_eq. right. constructor.
  - by left.
Qed.

Lemma best_step_some user_lat user_lng dest_lat dest_lng pw l :
  forall acc,
    (best_score acc = None -> l ≠ []) ->
    is_Some (best_garage acc) ∨ best_score acc = None ->
    is_Some (best_garage (foldl (best_step user_lat user_lng dest_lat dest_lng pw) acc l)).
Proof.
  induction l as [| x l IH]; intros acc Hne Hacc; simpl.
  - destruct Hacc as [? | Hnone]; [done |]. by destruct (Hne Hnone).
  - apply IH.
    + unfold best_step.
      destruct (score_parking x user_lat user_lng dest_lat dest_lng pw) as [[sc dr] wk].
      destruct (best_score acc) eqn:Hb; simpl.
      * destruct (bool_decide (sc < r)); simpl; [done | by rewrite Hb].
      * done.
    + unfold best_step.
      destruct (score_parking x user_lat user_lng dest_lat dest_lng pw) as [[sc dr] wk].
      destruct Hacc as [Hsome | Hnone].
      * destruct (below sc (best_score acc)); simpl; left; [by eexists | done].
      * rewrite Hnone. simpl. left. by eexists.
Qed.

Lemma best_garage_of_available w user_lat user_lng dest_lat dest_lng username g d k :
  best_garage_of w user_lat user_lng dest_lat dest_lng username = (Some g, d, k) ->
  g ∈ parking_spots w ∧ (0 < available_spots g)%Z.
Proof.
  unfold best_garage_of. intros Heq.
  injection Heq as Hg _ _.
  apply best_step_garage in Hg as [Hinit | Hin]; [done |].
  by apply available_garages_spec.
Qed.

Lemma best_garage_of_some w user_lat user_lng dest_lat dest_lng username g :
  g ∈ parking_spots w -> (0 < available_spots g)%Z ->
  is_Some (best_garage_of w user_lat user_lng dest_lat dest_lng username).1.1.
Proof.
  intros Hin Hpos. unfold best_garage_of. simpl.
  apply best_step_some; [| by right].
  intros _ Hnil.
  assert (g ∈ available_garages (parking_spots w)) as Hg
    by by apply available_garages_spec.
  rewrite Hnil in Hg. by apply elem_of_nil in Hg.
Qed.

(** *** What only reads or writes beside the catalog *)

Section OfCatalog.

Context (I : world -> Prop) (HI : of_catalog I).

Lemma emit_catalog room msg : preserves I (emit room msg).
Proof. apply preserves_modify. intros w. by apply HI. Qed.

Lemma with_lock_catalog {A} (body : M A) :
  preserves I body -> preserves I (with_lock body).
Proof. apply preserves_with_lock. intros b w. by apply HI. Qed.

Lemma find_best_garage_catalog user_lat user_lng dest_lat dest_lng username :
  preserves I (find_best_garage user_lat user_lng dest_lat dest_lng username).
Proof.
  unfold find_best_garage.
  apply preserves_bind; [apply preserves_gets |]. intros db.
  apply with_lock_catalog.
  apply preserves_bind; [apply preserves_gets |]. intros spots.
  destruct (available_garages spots); apply preserves_ret.
Qed.

Lemma send_reroute_notification_catalog session_id old_rec reason :
  preserves I (send_reroute_notification session_id old_rec reason).
Proof.
  unfold send_reroute_notification.
  apply preserves_bind; [apply find_best_garage_catalog |].
  intros [[[new_garage |] new_drive] new_walk]; [| apply emit_catalog].
  apply preserves_bind; [apply preserves_gets |]. intros spots.
  destruct (garage_named (garage_name old_rec) spots) as [old_garage |];
    [| apply preserves_ret].
  apply preserves_bind; [apply emit_catalog |]. intros _.
  apply preserves_bind; [apply preserves_gets |]. intros now.
  apply preserves_bind; [apply preserves_gets |]. intros ledger.
  destruct (ledger_get session_id ledger); [| apply preserves_raise].
  apply preserves_modify. intros w. by apply HI.
Qed.

Lemma check_user_recommendations_catalog changed_garage old_available :
  preserves I (check_user_recommendations changed_garage old_available).
Proof.
  unfold check_user_recommendations.
  apply preserves_bind; [apply preserves_gets |]. intros current_time.
  apply preserves_bind; [apply preserves_gets |]. intros items.
  apply preserves_for_each. intros [session_id rec] _.
  repeat case_decide; try apply preserves_ret.
  - apply send_reroute_notification_catalog.
  - apply emit_catalog.
Qed.

End OfCatalog.

(** *** The simulator *)

Lemma adjusted_clamp g change :
  (0 <= total_spots g)%Z ->
  adjusted g change = clamp 0 (total_spots g) (available_spots g + change).
Proof. intros Ht. unfold adjusted, clamp. repeat case_decide; lia. Qed.

Lemma adjusted_within_capacity g change :
  (0 <= total_spots g)%Z ->
  within_capacity (with_available_spots (adjusted g change) g).
Proof. intros Ht. unfold within_capacity, adjusted. simpl. lia. Qed.

(** The catalog after the turn of the loop of [simulate_spots] for the
    garage at position [i], however the turn ends. *)
Lemma simulate_garage_catalog i change w g :
  parking_spots w !! i = Some g ->
  parking_spots (final (simulate_garage i change w))
  = <[i := with_available_spots (adjusted g change) g]> (parking_spots w).
Proof.
  intros Hg. unfold simulate_garage.
  unfold mbind at 1, M_bind at 1, gets at 1. rewrite Hg.
  unfold mbind at 1, M_bind at 1, modify at 1.
  set (w1 := with_parking_spots _ w).
  set (S1 := <[i := _]> (parking_spots w)).
  assert (of_catalog (λ w', parking_spots w' = S1)) as HI
    by (intros ? ? ? ?; congruence).
  case_decide.
  - by apply (check_user_recommendations_catalog _ HI).
  - done.
Qed.

Lemma simulate_garage_within_capacity i change :
  preserves (λ w, Forall within_capacity (parking_spots w)) (simulate_garage i change).
Proof.
  intros w Hw.
  destruct (parking_spots w !! i) as [g |] eqn:Hg.
  - rewrite (simulate_garage_catalog _ _ _ _ Hg).
    apply Forall_insert; [done |].
    apply adjusted_within_capacity.
    rewrite Forall_lookup in Hw. specialize (Hw _ _ Hg).
    unfold within_capacity in Hw. lia.
  - unfold simulate_garage, mbind, M_bind, gets. by rewrite Hg.
Qed.

Lemma simulate_spots_tick_within_capacity changes :
  preserves (λ w, Forall within_capacity (parking_spots w)) (simulate_spots_tick changes).
Proof.
  unfold simulate_spots_tick.
  apply preserves_with_lock; [by intros b w |].
  apply preserves_bind; [apply preserves_gets |]. intros spots.
  apply preserves_for_each. intros i _.
  apply simulate_garage_within_capacity.
Qed.

(** *** The dispatcher *)

Lemma check_user_recommendations_unfold changed_garage old_available w :
  check_user_recommendations changed_garage old_available w
  = for_each (user_recommendations w)
      (check_entry (clock w) changed_garage old_available) w.
Proof.
  unfold check_user_recommendations, mbind, M_bind, time_time, gets.
  f_equal.
Qed.

Lemma check_entry_not_concerned current_time changed_garage old_available entry w :
  ¬ concerned current_time changed_garage entry ->
  check_entry current_time changed_garage old_available entry w = Done () w.
Proof.
  destruct entry as [session_id rec]. unfold concerned, check_entry. simpl.
  intros Hnot. case_decide; [done |]. case_decide; [| done]. tauto.
Qed.

(** [send_reroute_notification] starts with [find_best_garage], which
    takes the lock. *)
Lemma send_reroute_notification_held session_id old_rec reason w :
  parking_lock w = true ->
  send_reroute_notification session_id old_rec reason w = Blocked w.
Proof.
  intros Hw. unfold send_reroute_notification.
  unfold mbind at 1, M_bind at 1.
  by rewrite find_best_garage_held.
Qed.

Lemma check_entry_full_held current_time changed_garage old_available entry w :
  parking_lock w = true ->
  available_spots changed_garage = 0%Z ->
  concerned current_time changed_garage entry ->
  check_entry current_time changed_garage old_available entry w = Blocked w.
Proof.
  destruct entry as [session_id rec]. unfold concerned, check_entry. simpl.
  intros Hw Hfull [Hfresh Hbound].
  rewrite decide_False by done. rewrite decide_True by done.
  rewrite decide_True by done.
  by apply send_reroute_notification_held.
Qed.

(** With the lock held, as it is where [simulate_spots] calls it, the
    dispatcher never gets past the first entry that a garage which
    became full concerns. *)
Lemma check_user_recommendations_full_held changed_garage old_available w :
  parking_lock w = true ->
  available_spots changed_garage = 0%Z ->
  (exists entry, entry ∈ user_recommendations w
                 ∧ concerned (clock w) changed_garage entry) ->
  check_user_recommendations changed_garage old_available w = Blocked w.
Proof.
  intros Hw Hfull (entry & Hin & Hentry).
  rewrite check_user_recommendations_unfold.
  apply for_each_blocks.
  - intros x _.
    destruct (decide (concerned (clock w) changed_garage x)).
    + right. by apply check_entry_full_held.
    + left. by apply check_entry_not_concerned.
  - exists entry. split; [done |]. by apply check_entry_full_held.
Qed.

Lemma check_entries_not_full current_time changed_garage old_available items :
  available_spots changed_garage ≠ 0%Z ->
  forall w,
    for_each items (check_entry current_time changed_garage old_available) w
    = Done () (with_outbox
                 (outbox w ++ warnings current_time changed_garage old_available items) w).
Proof.
  intros Hnot. unfold warnings.
  destruct (decide (available_spots changed_garage < 5 ∧ old_available >= 5)%Z)
    as [Hcross | Hno].
  - induction items as [| [session_id rec] items IH]; intros w.
    + simpl. rewrite app_nil_r. by destruct w.
    + rewrite for_each_cons, filter_cons. unfold check_entry at 1.
      destruct (decide (concerned current_time changed_garage (session_id, rec)))
        as [[Hfresh Hbound] | Hother]; simpl in *.
      * rewrite decide_False by done. rewrite decide_True by done.
        rewrite decide_False by done. rewrite decide_True by done.
        unfold send_low_availability_warning, emit, modify. rewrite IH. simpl.
        f_equal. destruct w; simpl. by rewrite <- app_assoc.
      * rewrite <- IH. unfold concerned in Hother. simpl in Hother.
        repeat case_decide; try done; tauto.
  - induction items as [| [session_id rec] items IH]; intros w.
    + simpl. rewrite app_nil_r. by destruct w.
    + rewrite for_each_cons. unfold check_entry at 1.
      rewrite <- IH. repeat case_decide; done.
Qed.

Lemma check_user_recommendations_not_full changed_garage old_available w :
  available_spots changed_garage ≠ 0%Z ->
  check_user_recommendations changed_garage old_available w
  = Done () (with_outbox
               (outbox w ++ warnings (clock w) changed_garage old_available
                              (user_recommendations w)) w).
Proof.
  intros Hnot. rewrite check_user_recommendations_unfold.
  by apply check_entries_not_full.
Qed.

(** *** A tick of the simulator in which a recommended garage fills up *)

Lemma with_available_spots_same g :
  with_available_spots (available_spots g) g = g.
Proof. by destruct g. Qed.

Lemma with_parking_spots_same w : with_parking_spots (parking_spots w) w = w.
Proof. by destruct w. Qed.

(** A change that leaves the count as it is. *)
Lemma simulate_garage_unchanged i change w g :
  parking_spots w !! i = Some g ->
  adjusted g change = available_spots g ->
  simulate_garage i change w = Done () w.
Proof.
  intros Hg Hsame. unfold simulate_garage, mbind, M_bind, gets, modify.
  rewrite Hg, Hsame, with_available_spots_same. simpl.
  rewrite decide_False by (intros Hne; by apply Hne).
  by rewrite list_insert_id, with_parking_spots_same.
Qed.

(** A change that fills a garage which an entry concerns. *)
Lemma simulate_garage_full_held i change w g :
  parking_lock w = true ->
  parking_spots w !! i = Some g ->
  available_spots g ≠ 0%Z ->
  adjusted g change = 0%Z ->
  (exists entry, entry ∈ user_recommendations w ∧ concerned (clock w) g entry) ->
  simulate_garage i change w
  = Blocked (with_parking_spots (<[i := with_available_spots 0 g]> (parking_spots w)) w).
Proof.
  intros Hw Hg Hpos Hfull Hentry.
  unfold simulate_garage, mbind, M_bind, gets, modify.
  rewrite Hg, Hfull. simpl.
  rewrite decide_True by (intros Heq; by apply Hpos).
  by apply check_user_recommendations_full_held.
Qed.

Lemma simulate_spots_tick_blocks changes w i g :
  parking_lock w = false ->
  parking_spots w !! i = Some g ->
  (forall j g', (j < i)%nat -> parking_spots w !! j = Some g' ->
     adjusted g' (changes j) = available_spots g') ->
  available_spots g ≠ 0%Z ->
  adjusted g (changes i) = 0%Z ->
  (exists entry, entry ∈ user_recommendations w ∧ concerned (clock w) g entry) ->
  simulate_spots_tick changes w
  = Blocked (with_parking_spots (<[i := with_available_spots 0 g]> (parking_spots w))
               (with_parking_lock_held true w)).
Proof.
  intros Hw Hg Hbefore Hpos Hfull Hentry.
  unfold simulate_spots_tick, with_lock. simpl. rewrite Hw.
  unfold mbind, M_bind, gets. simpl.
  pose proof (lookup_lt_Some _ _ _ Hg) as Hi.
  replace (length (parking_spots w)) with (i + (length (parking_spots w) - i))%nat by lia.
  rewrite seq_app, for_each_app.
  rewrite for_each_skip.
  - destruct (length (parking_spots w) - i)%nat as [| k] eqn:Hk; [lia |].
    simpl seq. rewrite for_each_cons.
    by rewrite (simulate_garage_full_held i (changes i) _ g).
  - intros j Hj. apply elem_of_seq in Hj.
    destruct (lookup_lt_is_Some_2 (parking_spots w) j) as [g' Hg']; [lia |].
    apply (simulate_garage_unchanged _ _ _ g'); [done |].
    apply Hbefore; [lia | done].
Qed.

(** *** The ledger *)

Lemma ledger_get_set_eq session_id rec ledger :
  ledger_get session_id (ledger_set session_id rec ledger) = Some rec.
Proof.
  induction ledger as [| [k v] ledger IH]; simpl.
  - by rewrite decide_True.
  - case_decide as Hk; simpl.
    + by rewrite decide_True.
    + by rewrite decide_False.
Qed.

Lemma ledger_get_set_ne session_id other rec ledger :
  other ≠ session_id ->
  ledger_get other (ledger_set session_id rec ledger) = ledger_get other ledger.
Proof.
  intros Hne. induction ledger as [| [k v] ledger IH]; simpl.
  - by rewrite decide_False.
  - case_decide as Hk; simpl.
    + subst k. by rewrite !decide_False by done.
    + case_decide; [done | apply IH].
Qed.

(** *** [send_reroute_notification], entered with the lock free *)

Lemma send_reroute_notification_free session_id old_rec reason w :
  parking_lock w = false ->
  send_reroute_notification session_id old_rec reason w
  = match best_garage_of w (user_lat old_rec) (user_lng old_rec)
            (dest_lat old_rec) (dest_lng old_rec) (username old_rec) with
    | (None, _, _) =>
        Done () (with_outbox (outbox w ++ [(session_id, no_parking_message)]) w)
    | (Some new_garage, new_drive, new_walk) =>
        match garage_named (garage_name old_rec) (parking_spots w) with
        | None => Done () w
        | Some old_garage =>
            let w1 :=
              with_outbox
                (outbox w ++ [(session_id,
                   reroute_message old_rec reason old_garage new_garage new_drive new_walk)])
                w in
            match ledger_get session_id (user_recommendations w) with
            | None => Raised (KeyError session_id) w1
            | Some rec =>
                Done () (with_user_recommendations
                           (ledger_set session_id
                              (updated (name new_garage) (clock w) new_walk rec)
                              (user_recommendations w)) w1)
            end
        end
    end.
Proof.
  intros Hw. unfold send_reroute_notification.
  unfold mbind at 1, M_bind at 1.
  rewrite find_best_garage_free by done.
  destruct (best_garage_of w _ _ _ _ _) as [[[new_garage |] new_drive] new_walk];
    [| done].
  unfold mbind, M_bind, gets. simpl.
  destruct (garage_named (garage_name old_rec) (parking_spots w)) as [old_garage |];
    [| done].
  simpl.
  destruct (ledger_get session_id (user_recommendations w)); done.
Qed.

Lemma best_garage_of_none w user_lat user_lng dest_lat dest_lng username :
  (forall g, g ∈ parking_spots w -> (available_spots g <= 0)%Z) ->
  best_garage_of w user_lat user_lng dest_lat dest_lng username = (None, 0, 0).
Proof.
  intros Hnone. unfold best_garage_of.
  assert (available_garages (parking_spots w) = []) as ->; [| done].
  apply elem_of_nil_inv. intros g Hg.
  apply available_garages_spec in Hg as [Hin Hpos].
  specialize (Hnone g Hin). lia.
Qed.

(** *** [handle_parking_request] *)

Section Requests.

Context (float_of_str : string -> option R).

#[local] Abbreviation float := (Py.float float_of_str).
#[local] Abbreviation convertible := (RealtimeProps.convertible float_of_str).

Lemma parse_request_inr data user_lat user_lng dest_lat dest_lng duration :
  parse_request float_of_str data = inr (user_lat, user_lng, dest_lat, dest_lng, duration)
  <-> float (get data "user_lat") = inr user_lat
      ∧ float (get data "user_lng") = inr user_lng
      ∧ float (get data "dest_lat") = inr dest_lat
      ∧ float (get data "dest_lng") = inr dest_lng
      ∧ float (get_or data "duration" (PyNum 1)) = inr duration.
Proof.
  unfold parse_request, mbind, try_bind.
  destruct (float (get data "user_lat"));
    [split; [done | by intros (? & ? & ? & ? & ?)] |].
  destruct (float (get data "user_lng"));
    [split; [done | by intros (? & ? & ? & ? & ?)] |].
  destruct (float (get data "dest_lat"));
    [split; [done | by intros (? & ? & ? & ? & ?)] |].
  destruct (float (get data "dest_lng"));
    [split; [done | by intros (? & ? & ? & ? & ?)] |].
  destruct (float (get_or data "duration" (PyNum 1)));
    [split; [done | by intros (? & ? & ? & ? & ?)] |].
  split.
  - by intros [= -> -> -> -> ->].
  - intros (? & ? & ? & ? & ?). by simplify_eq.
Qed.

Lemma parse_request_inl data :
  (exists e, parse_request float_of_str data = inl e)
  <-> ¬ (convertible (get data "user_lat")
         ∧ convertible (get data "user_lng")
         ∧ convertible (get data "dest_lat")
         ∧ convertible (get data "dest_lng")
         ∧ convertible (get_or data "duration" (PyNum 1))).
Proof.
  unfold convertible.
  destruct (parse_request float_of_str data) as [e | [[[[a b] c] d] t]] eqn:Hparse.
  - split; [| eauto].
    intros _ ([a Ha] & [b Hb] & [c Hc] & [d Hd] & [t Ht]).
    assert (parse_request float_of_str data = inr (a, b, c, d, t)) as Hok
      by by apply parse_request_inr.
    congruence.
  - apply parse_request_inr in Hparse as (Ha & Hb & Hc & Hd & Ht).
    split; [by intros [e ?] |].
    intros Hnot. destruct Hnot. eauto 10.
Qed.

Lemma handle_parking_request_invalid session_id username data w e :
  parse_request float_of_str data = inl e ->
  handle_parking_request float_of_str session_id username data w
  = Done () (with_outbox (outbox w ++ [(session_id, invalid_message)]) w).
Proof. intros Hparse. unfold handle_parking_request. by rewrite Hparse. Qed.

Lemma handle_parking_request_valid session_id username data w
    user_lat user_lng dest_lat dest_lng duration :
  parking_lock w = false ->
  parse_request float_of_str data = inr (user_lat, user_lng, dest_lat, dest_lng, duration) ->
  handle_parking_request float_of_str session_id username data w
  = match best_garage_of w user_lat user_lng dest_lat dest_lng username with
    | (None, _, _) =>
        Done () (with_outbox (outbox w ++ [(session_id, unavailable_message)]) w)
    | (Some best_garage, best_drive, best_walk) =>
        let alternatives :=
          alternative_of (price_per_hour best_garage * duration) best_walk duration
            <$> slice_from_1 (top_garages w user_lat user_lng dest_lat dest_lng username 3) in
        Done ()
          (with_outbox
             (outbox w ++ [(session_id,
                ParkingRecommendation
                  (best_parking_of best_garage best_drive best_walk duration)
                  alternatives (clock w))])
             (with_user_recommendations
                (ledger_set session_id
                   (entry_of username best_garage (clock w)
                      user_lat user_lng dest_lat dest_lng duration best_walk)
                   (user_recommendations w)) w))
    end.
Proof.
  intros Hw Hparse. unfold handle_parking_request. rewrite Hparse.
  unfold mbind at 1, M_bind at 1.
  rewrite find_best_garage_free by done.
  destruct (best_garage_of w _ _ _ _ _) as [[[best_garage |] best_drive] best_walk];
    [| done].
  unfold mbind at 1, M_bind at 1.
  rewrite find_top_garages_free by done.
  done.
Qed.

End Requests.

End RealtimeFacts.

(** ** parking_finder_v2.py: ranking *)

Module FinderV2Facts.

Import Py Format Geo Effects FinderV2 Ranking Outcomes FinderV2Props PyFacts EffectsFacts.

#[local] Abbreviation M := (Effects.M world).

Lemma release_acquire_v2 w :
  parking_lock w = false ->
  with_parking_lock_held false (with_parking_lock_held true w) = w.
Proof. destruct w; simpl; by intros ->. Qed.

Lemma find_top_parking_free w dest_lat dest_lng n :
  parking_lock w = false ->
  find_top_parking dest_lat dest_lng n w = Done (top_parking w dest_lat dest_lng n) w.
Proof.
  intros Hw. unfold find_top_parking, top_parking, scored_candidates.
  unfold mbind, M_bind, gets, with_lock. simpl. rewrite Hw. simpl.
  rewrite release_acquire_v2 by done.
  destruct (available (parking_spots w)) as [| p l] eqn:Hav.
  - unfold mret, M_ret. simpl. by rewrite slice_to_nil.
  - unfold mret, M_ret. f_equal.
    rewrite slice_to_fmap. f_equal.
    rewrite (sort_by_ext fst (λ a, snd (swap_pair a))) by done.
    rewrite sort_by_fmap. f_equal.
    rewrite <- list_fmap_compose. done.
Qed.

Lemma find_top_parking_held w dest_lat dest_lng n :
  parking_lock w = true ->
  find_top_parking dest_lat dest_lng n w = Blocked w.
Proof.
  intros Hw. unfold find_top_parking.
  unfold mbind, M_bind, gets, with_lock. simpl. by rewrite Hw.
Qed.

Lemma available_spec spots p :
  p ∈ available spots <-> p ∈ spots ∧ (0 < available_spots p)%Z.
Proof.
  unfold available. rewrite list_elem_of_filter.
  split; intros [? ?]; split; try done; lia.
Qed.

Lemma top_parking_candidates w dest_lat dest_lng n x :
  x ∈ top_parking w dest_lat dest_lng n ->
  x ∈ scored_candidates (parking_spots w) dest_lat dest_lng.
Proof.
  unfold top_parking.
  destruct (slice_to_take n
    (sort_by snd (scored_candidates (parking_spots w) dest_lat dest_lng))) as [k ->].
  intros Hx. rewrite <- (sort_by_perm snd).
  eapply elem_of_sublist; [exact Hx | apply sublist_take].
Qed.

Lemma top_parking_available w dest_lat dest_lng n x :
  x ∈ top_parking w dest_lat dest_lng n ->
  x.1 ∈ parking_spots w ∧ (0 < available_spots x.1)%Z
  ∧ x.2 = score_parking x.1 dest_lat dest_lng alpha_default.
Proof.
  intros Hx. apply top_parking_candidates in Hx.
  unfold scored_candidates in Hx. apply list_elem_of_fmap in Hx as (p & -> & Hp).
  apply available_spec in Hp as [? ?]. done.
Qed.

(** *** The simulator *)

Lemma adjusted_clamp_v2 p change :
  (0 <= capacity p)%Z ->
  adjusted p change
  = Ranking.clamp 0 (capacity p) (available_spots p + change).
Proof. intros Ht. unfold adjusted, Ranking.clamp. repeat case_decide; lia. Qed.

(** A tick of [simulate_parking_changes], entered with the lock free. *)
Lemma simulate_parking_changes_tick_free i change w p :
  parking_lock w = false ->
  parking_spots w !! i = Some p ->
  let p' := with_available_spots (adjusted p change) p in
  simulate_parking_changes_tick i change w
  = Done () (with_stdout
               (stdout w ++ [(clock w, SpotStatus (name p') (available_spots p') (capacity p'))])
               (with_parking_spots (<[i := p']> (parking_spots w)) w)).
Proof.
  intros Hw Hp p'. unfold simulate_parking_changes_tick, with_lock. simpl.
  rewrite Hw. unfold mbind, M_bind, gets. simpl. rewrite Hp.
  unfold modify, print, modify. simpl. f_equal.
  destruct w; simpl in *. by subst.
Qed.

Lemma simulate_parking_changes_tick_held i change w :
  parking_lock w = true -> simulate_parking_changes_tick i change w = Blocked w.
Proof.
  intros Hw. unfold simulate_parking_changes_tick, with_lock. simpl. by rewrite Hw.
Qed.

Lemma simulate_parking_changes_tick_none i change w :
  parking_lock w = false -> parking_spots w !! i = None ->
  simulate_parking_changes_tick i change w = Done () w.
Proof.
  intros Hw Hp. unfold simulate_parking_changes_tick, with_lock. simpl.
  rewrite Hw. unfold mbind, M_bind, gets. simpl. rewrite Hp.
  unfold mret, M_ret. by rewrite release_acquire_v2.
Qed.

Lemma simulate_parking_changes_tick_within_capacity i change :
  preserves (λ w, Forall within_capacity (parking_spots w))
    (simulate_parking_changes_tick i change).
Proof.
  intros w Hw.
  destruct (parking_lock w) eqn:Hlock.
  { by rewrite simulate_parking_changes_tick_held. }
  destruct (parking_spots w !! i) as [p |] eqn:Hp.
  - rewrite (simulate_parking_changes_tick_free _ _ _ _ Hlock Hp). simpl.
    apply Forall_insert; [done |].
    rewrite Forall_lookup in Hw. specialize (Hw _ _ Hp).
    unfold within_capacity, adjusted in *. simpl. lia.
  - by rewrite simulate_parking_changes_tick_none.
Qed.

(** *** The navigation loop *)

Section Navigation.

Context (get_directions : R -> R -> R -> R -> string -> option (list string * R * R)).

Lemma should_notify_better_deal old_still_available distance_to_current
    old_spot best duration savings :
  should_notify old_still_available distance_to_current old_spot best duration
    = Some (BetterDeal savings) ->
  old_still_available = true
  ∧ distance_to_current > 200
  ∧ price_per_hour old_spot * duration - price_per_hour best * duration > 1.0.
Proof.
  unfold should_notify.
  destruct old_still_available; simpl; [| done].
  case_decide; [| done]. case_decide; [| done]. done.
Qed.

(** A turn entered with the lock free returns, leaves the catalog, the
    lock and the clock as they are, and prints either nothing that is a
    re-route, keeping the time of the last notification, or one re-route,
    which it does only if more than 10 has passed since that time, and
    then this time becomes the reading of the clock. *)
Lemma navigation_turn_free dest_lat dest_lng duration st w :
  parking_lock w = false ->
  exists st' out,
    navigation_turn get_directions dest_lat dest_lng duration st w
      = Done st' (with_stdout (stdout w ++ out) w)
    ∧ ((Forall (λ e, ¬ is_reroute e.2) out
        ∧ last_notification_time st' = last_notification_time st)
       ∨ (exists reason old_spot best score rest,
            out = [(clock w, reroute_lines get_directions reason old_spot best
                               (nav_lat st) (nav_lng st) dest_lat dest_lng duration)]
            ∧ last_notification_time st' = clock w
            ∧ clock w - last_notification_time st > 10
            ∧ last_recommended st = Some old_spot
            ∧ top_parking w dest_lat dest_lng 3 = (best, score) :: rest
            ∧ name best ≠ name old_spot
            ∧ should_notify (still_available (name old_spot) (parking_spots w))
                (haversine (nav_lat st) (nav_lng st) (lat best) (lng best))
                old_spot best duration = Some reason)).
Proof.
  intros Hw. unfold navigation_turn.
  unfold mbind at 1, M_bind at 1. rewrite find_top_parking_free by done.
  destruct (top_parking w dest_lat dest_lng 3) as [| [best score] rest] eqn:Htop.
  { exists st, [(clock w, NoParkingAlert)]. split; [done |].
    left. split; [| done]. apply Forall_singleton. simpl. tauto. }
  destruct (last_recommended st) as [old_spot |] eqn:Hlast.
  - destruct (decide (name best ≠ name old_spot)) as [Hname | Hsame].
    + unfold with_lock, mbind, M_bind, time_time, gets, mret, M_ret, print, modify.
      simpl. rewrite Hw. simpl. rewrite release_acquire_v2 by done.
      destruct (should_notify (still_available (name old_spot) (parking_spots w))
                  (haversine (nav_lat st) (nav_lng st) (lat best) (lng best))
                  old_spot best duration) as [reason |] eqn:Hshould.
      * destruct (decide (clock w - last_notification_time st > 10)) as [Hlate | Hsoon].
        -- eexists _, [(clock w, _)]. split; [reflexivity |].
           right. exists reason, old_spot, best, score, rest. done.
        -- eexists _, []. split; [rewrite app_nil_r; by destruct w |].
           left. done.
      * eexists _, []. split; [rewrite app_nil_r; by destruct w |].
        left. done.
    + unfold mbind, M_bind, time_time, gets, mret, M_ret. simpl.
      eexists _, []. split; [rewrite app_nil_r; by destruct w |].
      left. done.
  - unfold mbind, M_bind, time_time, gets, mret, M_ret, print, modify. simpl.
    eexists _, [(clock w, _)]. split; [reflexivity |].
    left. split; [| done]. apply Forall_singleton. simpl. tauto.
Qed.

(** A turn notifies of a better deal only if more than 10 has passed
    since the last notification, the new garage is more than 200 m from
    where the user is, and it saves more than 1.0. *)
Lemma navigation_turn_better_deal dest_lat dest_lng duration st w st' w' t savings l :
  parking_lock w = false ->
  navigation_turn get_directions dest_lat dest_lng duration st w = Done st' w' ->
  (t, l) ∈ drop (length (stdout w)) (stdout w') ->
  reroute_reason l = Some (BetterDeal savings) ->
  exists old_spot best score rest,
    last_recommended st = Some old_spot
    ∧ top_parking w dest_lat dest_lng 3 = (best, score) :: rest
    ∧ clock w - last_notification_time st > 10
    ∧ haversine (nav_lat st) (nav_lng st) (lat best) (lng best) > 200
    ∧ price_per_hour old_spot * duration - price_per_hour best * duration > 1.0.
Proof.
  intros Hw Hturn Hin Hreason.
  destruct (navigation_turn_free dest_lat dest_lng duration st w Hw)
    as (st1 & out & Hdone & Hcases).
  rewrite Hdone in Hturn. injection Hturn as <- <-.
  simpl in Hin. rewrite drop_app_length in Hin.
  destruct Hcases as [[Hnone _] | Hone].
  - rewrite Forall_forall in Hnone. specialize (Hnone _ Hin). simpl in Hnone.
    destruct l; simpl in *; done.
  - destruct Hone as (reason & old_spot & best & score & rest
                      & -> & _ & Hlate & Hlast & Htop & _ & Hshould).
    apply list_elem_of_singleton in Hin. injection Hin as -> ->.
    simpl in Hreason. injection Hreason as ->.
    apply should_notify_better_deal in Hshould as (_ & Hfar & Hsaves).
    exists old_spot, best, score, rest. done.
Qed.

Lemma throttled_quiet out new last :
  throttled out last -> Forall (λ e, ¬ is_reroute e.2) new ->
  throttled (out ++ new) last.
Proof.
  intros [Hspaced Hlast] Hnew. rewrite Forall_forall in Hnew. split.
  - intros i j ti tj li lj Hij Hi Hj Hli Hlj.
    destruct (decide (j < length out)%nat) as [Hjlt | Hjge].
    + rewrite lookup_app_l in Hi, Hj by lia. by eapply (Hspaced i j).
    + rewrite lookup_app_r in Hj by lia.
      apply list_elem_of_lookup_2, Hnew in Hj. done.
  - intros t l Hin Hl. apply elem_of_app in Hin as [Hin | Hin]; [eauto |].
    apply Hnew in Hin. done.
Qed.

Lemma throttled_notified out last now l :
  throttled out last -> now - last > 10 ->
  throttled (out ++ [(now, l)]) now.
Proof.
  intros [Hspaced Hlast] Hlate. split.
  - intros i j ti tj li lj Hij Hi Hj Hli Hlj.
    destruct (decide (j < length out)%nat) as [Hjlt | Hjge].
    + rewrite lookup_app_l in Hi, Hj by lia. by eapply (Hspaced i j).
    + rewrite lookup_app_r in Hj by lia.
      apply list_lookup_singleton_Some in Hj as [Hj0 [= <- <-]].
      rewrite lookup_app_l in Hi by lia.
      apply list_elem_of_lookup_2 in Hi. specialize (Hlast _ _ Hi Hli). lra.
  - intros t l' Hin Hl. apply elem_of_app in Hin as [Hin | Hin].
    + specialize (Hlast _ _ Hin Hl). lra.
    + apply list_elem_of_singleton in Hin. injection Hin as -> ->. lra.
Qed.

Lemma navigation_loop_throttled dest_lat dest_lng duration env :
  forall st w base out,
    parking_lock w = false ->
    stdout w = base ++ out ->
    throttled out (last_notification_time st) ->
    exists out',
      stdout (final (navigation_loop get_directions dest_lat dest_lng duration env st w))
        = base ++ out'
      ∧ spaced out'.
Proof.
  induction env as [| e env IH]; intros st w base out Hw Hout Hinv; simpl.
  - case_decide.
    + exists out. split; [done | apply Hinv].
    + destruct (last_recommended st) as [p |].
      * exists (out ++ [(clock w, Arrived (name p))]). split.
        { unfold mbind, M_bind, print, modify. simpl. by rewrite Hout, app_assoc. }
        refine (proj1 (throttled_quiet _ _ _ Hinv _)). apply Forall_singleton. simpl. tauto.
      * exists out. split; [done | apply Hinv].
  - case_decide.
    + destruct (navigation_turn_free dest_lat dest_lng duration st w Hw)
        as (st' & new & Hdone & Hcases).
      unfold mbind at 1, M_bind at 1. rewrite Hdone.
      unfold mbind at 1, M_bind at 1, elapse, modify.
      apply (IH st' _ base (out ++ new)); [done | |].
      * simpl. by rewrite Hout, app_assoc.
      * destruct Hcases as [[Hquiet ->] | Hone].
        -- by apply throttled_quiet.
        -- destruct Hone as (? & ? & ? & ? & ? & -> & -> & Hlate & _).
           eapply throttled_notified; [exact Hinv | exact Hlate].
    + destruct (last_recommended st) as [p |].
      * exists (out ++ [(clock w, Arrived (name p))]). split.
        { unfold mbind, M_bind, print, modify. simpl. by rewrite Hout, app_assoc. }
        refine (proj1 (throttled_quiet _ _ _ Hinv _)). apply Forall_singleton. simpl. tauto.
      * exists out. split; [done | apply Hinv].
Qed.

End Navigation.

(** *** The endpoint *)

Section Endpoint.

Context (get_directions : R -> R -> R -> R -> string -> option (list string * R * R)).
Context (float_of_str : string -> option R).

#[local] Abbreviation float := (Py.float float_of_str).




End Endpoint.

End FinderV2Facts.

(** ** The head of a ranking *)

Module RankingFacts.

Import Py Ranking.

Section Head.

Context {A : Type} (key : A -> R).

Lemma head_insert_by x l :
  head (insert_by key x l)
  = match head l with
    | Some y => if decide (key y < key x) then Some y else Some x
    | None => Some x
    end.
Proof. destruct l as [| y l]; simpl; [done |]. by case_decide. Qed.

Lemma head_sort_by_cons x l :
  head (sort_by key (x :: l))
  = match head (sort_by key l) with
    | Some y => if decide (key y < key x) then Some y else Some x
    | None => Some x
    end.
Proof. simpl. apply head_insert_by. Qed.

Lemma head_sort_by_min l x :
  head (sort_by key l) = Some x ->
  x ∈ l ∧ forall y, y ∈ l -> key x <= key y.
Proof.
  intros Hhead.
  pose proof (PyFacts.sort_by_sorted key l) as Hsorted.
  pose proof (PyFacts.sort_by_perm key l) as Hperm.
  destruct (sort_by key l) as [| x' s] eqn:Hs; [done |].
  simpl in Hhead. injection Hhead as ->.
  split.
  - rewrite <- Hperm. apply list_elem_of_here.
  - intros y Hy. rewrite <- Hperm in Hy.
    apply StronglySorted_inv in Hsorted as [_ Hall].
    apply elem_of_cons in Hy as [-> | Hy].
    + unfold key_le. lra.
    + rewrite Forall_forall in Hall. by apply Hall.
Qed.

Lemma head_sort_by_none l : head (sort_by key l) = None -> l = [].
Proof.
  intros Hhead. pose proof (PyFacts.sort_by_perm key l) as Hperm.
  destruct (sort_by key l); [| done].
  by apply Permutation_nil_l in Hperm.
Qed.

Lemma head_slice_to (n : Z) (l : list A) :
  (1 <= n)%Z -> head (slice_to n l) = head l.
Proof.
  intros Hn. unfold slice_to. rewrite decide_True by lia.
  destruct (Z.to_nat n) as [| k] eqn:Hk; [lia |]. by destruct l.
Qed.

End Head.

End RankingFacts.

(** ** The domain and the range of [haversine] *)

Module GeoBounds.

Import Py Geo GeoProps.

Lemma radians_minus x y : radians (y - x) = radians y - radians x.
Proof. unfold radians. lra. Qed.

Lemma sin_half_sqr x : sin (x / 2) ^ 2 = (1 - cos x) / 2.
Proof.
  replace x with (2 * (x / 2)) at 2 by lra.
  rewrite cos_2a_sin. lra.
Qed.

Lemma cos_product x y : cos x * cos y = (cos (y - x) + cos (x + y)) / 2.
Proof. rewrite cos_minus, cos_plus. lra. Qed.

Lemma hav_a_bounds lat1 lon1 lat2 lon2 : 0 <= hav_a lat1 lon1 lat2 lon2 <= 1.
Proof.
  unfold hav_a. rewrite radians_minus.
  rewrite (sin_half_sqr (radians lat2 - radians lat1)).
  rewrite cos_product.
  pose proof (COS_bound (radians lat2 - radians lat1)) as [? ?].
  pose proof (COS_bound (radians lat1 + radians lat2)) as [? ?].
  pose proof (SIN_bound (radians (lon2 - lon1) / 2)) as [? ?].
  set (u := cos (radians lat2 - radians lat1)) in *.
  set (v := cos (radians lat1 + radians lat2)) in *.
  set (s := sin (radians (lon2 - lon1) / 2)) in *.
  assert (0 <= s ^ 2 <= 1) as [? ?] by nra.
  set (t := s ^ 2) in *.
  split; nra.
Qed.

Lemma atan2_quadrant y x : 0 <= y -> 0 <= x -> atan2 y x <= PI / 2.
Proof.
  intros Hy Hx. unfold atan2.
  pose proof PI_RGT_0.
  destruct (decide (0 < x)).
  - pose proof (atan_bound (y / x)). lra.
  - destruct (decide (x < 0)); [lra |].
    destruct (decide (0 < y)); [lra |].
    destruct (decide (y < 0)); lra.
Qed.

Lemma haversine_le_half_turn lat1 lon1 lat2 lon2 :
  haversine lat1 lon1 lat2 lon2 <= 6371000 * PI.
Proof.
  rewrite GeoFacts.haversine_unfold.
  pose proof (hav_a_bounds lat1 lon1 lat2 lon2) as [? ?].
  pose proof (atan2_quadrant (sqrt (hav_a lat1 lon1 lat2 lon2))
                (sqrt (1 - hav_a lat1 lon1 lat2 lon2))
                (sqrt_pos _) (sqrt_pos _)).
  lra.
Qed.

Lemma haversine_asin lat1 lon1 lat2 lon2 :
  haversine lat1 lon1 lat2 lon2 = 6371000 * (2 * asin (sqrt (hav_a lat1 lon1 lat2 lon2))).
Proof.
  rewrite GeoFacts.haversine_unfold.
  pose proof (hav_a_bounds lat1 lon1 lat2 lon2) as [Hlo Hhi].
  set (a := hav_a lat1 lon1 lat2 lon2) in *.
  do 2 f_equal.
  destruct (Req_dec a 1) as [-> | Hne].
  - replace (1 - 1) with 0 by lra.
    by rewrite sqrt_1, sqrt_0, GeoFacts.atan2_1_0, asin_1.
  - assert (0 < sqrt (1 - a)) as Hx by (apply sqrt_lt_R0; lra).
    assert (sqrt a < 1) as Hy.
    { rewrite <- sqrt_1. apply sqrt_lt_1_alt. lra. }
    pose proof (sqrt_pos a).
    unfold atan2. rewrite decide_True by done.
    rewrite asin_atan by lra.
    by rewrite Rsqr_sqrt.
Qed.


End GeoBounds.

(** ** Truncation, rounding and the texts *)

Module FormatFacts.

Import Py Format.

Lemma Int_part_bounds x : IZR (Int_part x) <= x < IZR (Int_part x) + 1.
Proof. pose proof (base_Int_part x). lra. Qed.

Lemma Int_part_between x (lo hi : Z) :
  IZR lo <= x -> x < IZR hi -> (lo <= Int_part x < hi)%Z.
Proof.
  intros Hlo Hhi. pose proof (Int_part_bounds x) as [H1 H2].
  split.
  - apply Z.lt_succ_r. apply lt_IZR. rewrite succ_IZR. lra.
  - apply lt_IZR. lra.
Qed.

Lemma int_nonneg x : 0 <= x -> int x = Int_part x.
Proof. intros. unfold int. by rewrite decide_True. Qed.

Lemma int_trunc x :
  Rabs (IZR (int x)) <= Rabs x ∧ Rabs (x - IZR (int x)) < 1
  ∧ (0 <= x -> (0 <= int x)%Z) ∧ (x <= 0 -> (int x <= 0)%Z).
Proof.
  unfold int. destruct (decide (0 <= x)) as [Hx | Hx].
  - pose proof (Int_part_bounds x) as [H1 H2].
    pose proof (Int_part_between x 0 (Int_part x + 1)) as Hz.
    rewrite plus_IZR in Hz. specialize (Hz Hx H2).
    assert (0 <= IZR (Int_part x)) by (apply IZR_le; lia).
    rewrite !Rabs_pos_eq by lra.
    split; [lra |]. split; [lra |]. split; [lia |].
    intros. assert (x = 0) as -> by lra.
    pose proof (Int_part_between 0 0 1 ltac:(simpl; lra) ltac:(simpl; lra)). lia.
  - pose proof (Int_part_bounds (- x)) as [H1 H2].
    pose proof (Int_part_between (- x) 0 (Int_part (- x) + 1)) as Hz.
    rewrite plus_IZR in Hz. specialize (Hz ltac:(simpl; lra) H2).
    assert (0 <= IZR (Int_part (- x))) by (apply IZR_le; lia).
    rewrite opp_IZR.
    rewrite (Rabs_left1 (- _)) by lra.
    rewrite (Rabs_left1 x) by lra.
    rewrite (Rabs_left1 (x - _)) by lra.
    split; [lra |]. split; [lra |]. split; [lra | lia].
Qed.

Lemma round_half_even_near x : - (1 / 2) <= IZR (round_half_even x) - x <= 1 / 2.
Proof.
  unfold round_half_even.
  pose proof (Int_part_bounds x) as [H1 H2].
  destruct (decide (x - IZR (Int_part x) < 1 / 2)); [lra |].
  destruct (decide (x - IZR (Int_part x) > 1 / 2)).
  - rewrite plus_IZR. lra.
  - destruct (Z.even (Int_part x)); [lra |]. rewrite plus_IZR. lra.
Qed.

Lemma round_half_even_mono_lo x (k : Z) : IZR k <= x -> (k <= round_half_even x)%Z.
Proof.
  intros Hk. pose proof (round_half_even_near x) as H.
  apply Z.lt_succ_r. apply lt_IZR. rewrite succ_IZR. lra.
Qed.

Lemma fmod_bounds x m : 0 < m -> 0 <= fmod x m < m.
Proof.
  intros Hm. unfold fmod.
  pose proof (Int_part_bounds (x / m)) as [H1 H2].
  assert (x = m * (x / m)) as Hx by (field; lra).
  split.
  - apply Rmult_le_compat_l with (r := m) in H1; lra.
  - apply Rmult_lt_compat_l with (r := m) in H2; lra.
Qed.

End FormatFacts.

(** ** The best garage, a tick of the simulator and the ledger *)

Module DispatchFacts.

Import Py Format Geo Effects Realtime RealtimeProps Outcomes RealtimeReadings.
Import EffectsFacts RealtimeFacts.

(** *** The loop of [find_best_garage] and the sorted list *)

Lemma best_step_pick user_lat user_lng dest_lat dest_lng pw acc g :
  best_step user_lat user_lng dest_lat dest_lng pw acc g
  = pick acc (Some (scored_entry user_lat user_lng dest_lat dest_lng pw g)).
Proof.
  unfold best_step, scored_entry, pick.
  by destruct (score_parking g user_lat user_lng dest_lat dest_lng pw) as [[s d] k].
Qed.

Lemma foldl_best_step user_lat user_lng dest_lat dest_lng pw l :
  forall acc,
    foldl (best_step user_lat user_lng dest_lat dest_lng pw) acc l
    = pick acc (head (sort_by entry_score
                        (scored_entry user_lat user_lng dest_lat dest_lng pw <$> l))).
Proof.
  induction l as [| g l IH]; intros acc; [done |].
  cbn [foldl]. rewrite IH, best_step_pick. rewrite fmap_cons.
  rewrite RankingFacts.head_sort_by_cons.
  destruct (head (sort_by entry_score _)) as [[[[s' g'] d'] k'] |];
    destruct (scored_entry user_lat user_lng dest_lat dest_lng pw g) as [[[s g0] d] k];
    [| done].
  unfold entry_score. simpl.
  destruct acc as [[b |] bg bd bw]; simpl.
  - repeat (case_bool_decide || case_decide); simpl;
      repeat (case_bool_decide || case_decide); try done; try lra.
  - repeat (case_bool_decide || case_decide); simpl;
      repeat (case_bool_decide || case_decide); try done; try lra.
Qed.

Lemma best_garage_of_head w user_lat user_lng dest_lat dest_lng username :
  best_garage_of w user_lat user_lng dest_lat dest_lng username
  = match head (sort_by entry_score
                  (scored_candidates (parking_spots w) user_lat user_lng dest_lat dest_lng
                     (price_weight_of (users_db w) username))) with
    | Some (s, g, d, k) => (Some g, d, k)
    | None => (None, 0, 0)
    end.
Proof.
  unfold best_garage_of. rewrite foldl_best_step.
  fold (scored_candidates (parking_spots w) user_lat user_lng dest_lat dest_lng
          (price_weight_of (users_db w) username)).
  by destruct (head _) as [[[[s g] d] k] |].
Qed.

Lemma scored_entry_parts user_lat user_lng dest_lat dest_lng pw g s g0 d k :
  scored_entry user_lat user_lng dest_lat dest_lng pw g = (s, g0, d, k) ->
  g0 = g
  ∧ s = (score_parking g user_lat user_lng dest_lat dest_lng pw).1.1
  ∧ d = haversine user_lat user_lng (lat g) (lng g)
  ∧ k = haversine (lat g) (lng g) dest_lat dest_lng.
Proof.
  unfold scored_entry, score_parking. simpl. intros Heq. by simplify_eq.
Qed.

Lemma entry_score_scored user_lat user_lng dest_lat dest_lng pw g :
  entry_score (scored_entry user_lat user_lng dest_lat dest_lng pw g)
  = (score_parking g user_lat user_lng dest_lat dest_lng pw).1.1.
Proof. done. Qed.

Lemma top_garages_head w user_lat user_lng dest_lat dest_lng username n :
  (1 <= n)%Z ->
  head (top_garages w user_lat user_lng dest_lat dest_lng username n)
  = head (sort_by entry_score
            (scored_candidates (parking_spots w) user_lat user_lng dest_lat dest_lng
               (price_weight_of (users_db w) username))).
Proof. intros Hn. unfold top_garages. by apply RankingFacts.head_slice_to. Qed.

Lemma best_garage_of_top w user_lat user_lng dest_lat dest_lng username n g d k :
  (1 <= n)%Z ->
  best_garage_of w user_lat user_lng dest_lat dest_lng username = (Some g, d, k) ->
  exists s rest,
    top_garages w user_lat user_lng dest_lat dest_lng username n = (s, g, d, k) :: rest.
Proof.
  intros Hn Hbest. rewrite best_garage_of_head in Hbest.
  rewrite <- (top_garages_head _ _ _ _ _ _ n Hn) in Hbest.
  destruct (top_garages w user_lat user_lng dest_lat dest_lng username n)
    as [| [[[s g0] d0] k0] rest]; simpl in Hbest; [done |].
  simplify_eq. by exists s, rest.
Qed.

(** *** A tick, garage after garage *)

Lemma warnings_none now g old ledger :
  ¬ Exists (concerned now g) ledger -> warnings now g old ledger = [].
Proof.
  intros Hnone. unfold warnings. case_decide; [| done].
  replace (filter (concerned now g) ledger) with (@nil (string * recommendation)); [done |].
  symmetry. induction ledger as [| e l IH]; [done |].
  rewrite filter_cons. rewrite decide_False.
  - apply IH. intros Hl. apply Hnone. by apply Exists_cons_tl.
  - intros He. apply Hnone. by apply Exists_cons_hd.
Qed.

Lemma warnings_unchanged now g ledger :
  warnings now g (available_spots g) ledger = [].
Proof. unfold warnings. rewrite decide_False; [done | lia]. Qed.

Lemma with_outbox_same w : with_outbox (outbox w ++ []) w = w.
Proof. rewrite app_nil_r. by destruct w. Qed.

Lemma check_user_recommendations_nobody changed_garage old_available w :
  ¬ Exists (concerned (clock w) changed_garage) (user_recommendations w) ->
  check_user_recommendations changed_garage old_available w = Done () w.
Proof.
  intros Hnone. rewrite check_user_recommendations_unfold.
  apply for_each_skip. intros x Hx.
  apply check_entry_not_concerned. intros Hc. apply Hnone.
  apply Exists_exists. by exists x.
Qed.

Lemma check_user_recommendations_returns changed_garage old_available w :
  available_spots changed_garage ≠ 0%Z
  ∨ ¬ Exists (concerned (clock w) changed_garage) (user_recommendations w) ->
  check_user_recommendations changed_garage old_available w
  = Done () (with_outbox
               (outbox w ++ warnings (clock w) changed_garage old_available
                              (user_recommendations w)) w).
Proof.
  intros [Hnot | Hnone].
  - by apply check_user_recommendations_not_full.
  - rewrite check_user_recommendations_nobody by done.
    by rewrite warnings_none, with_outbox_same.
Qed.

Lemma simulate_garage_returns i change w g :
  parking_spots w !! i = Some g ->
  ¬ fills (clock w) (user_recommendations w) g change ->
  let g' := with_available_spots (adjusted g change) g in
  simulate_garage i change w
  = Done () (with_outbox
               (outbox w ++ warnings (clock w) g' (available_spots g)
                              (user_recommendations w))
               (with_parking_spots (<[i := g']> (parking_spots w)) w)).
Proof.
  intros Hg Hnot. cbv zeta.
  destruct (decide (adjusted g change = available_spots g)) as [Hsame | Hdiff].
  - rewrite (simulate_garage_unchanged i change w g Hg Hsame).
    rewrite Hsame, with_available_spots_same, warnings_unchanged.
    rewrite list_insert_id by done.
    by rewrite with_parking_spots_same, with_outbox_same.
  - unfold simulate_garage, mbind, M_bind, gets, modify. rewrite Hg. simpl.
    rewrite decide_True by done.
    rewrite check_user_recommendations_returns; [done |]. simpl.
    destruct (decide (adjusted g change = 0%Z)) as [Hzero | Hpos]; [| by left].
    right. intros Hex. apply Hnot. unfold fills.
    split; [lia |]. split; [done |]. done.
Qed.

Lemma simulate_garage_blocks i change w g :
  parking_lock w = true ->
  parking_spots w !! i = Some g ->
  fills (clock w) (user_recommendations w) g change ->
  simulate_garage i change w
  = Blocked (with_parking_spots (<[i := with_available_spots 0 g]> (parking_spots w)) w).
Proof.
  intros Hw Hg (Hpos & Hfull & Hex).
  apply simulate_garage_full_held; try done.
  apply Exists_exists in Hex as (entry & Hin & Hc). by exists entry.
Qed.

Lemma drop_lookup_head {A} (l : list A) i x rest :
  drop i l = x :: rest -> l !! i = Some x ∧ drop (S i) l = rest.
Proof.
  intros Hdrop.
  assert (l !! i = Some x) as Hx.
  { rewrite <- (Nat.add_0_r i). rewrite <- lookup_drop. by rewrite Hdrop. }
  split; [done |].
  rewrite (drop_S _ _ _ Hx) in Hdrop. by injection Hdrop.
Qed.

Lemma tick_loop_returns changes suffix :
  forall i w,
    drop i (parking_spots w) = suffix ->
    (forall j g, suffix !! j = Some g ->
       ¬ fills (clock w) (user_recommendations w) g (changes (i + j)%nat)) ->
    for_each (seq i (length suffix)) (λ k, simulate_garage k (changes k)) w
    = Done () (with_outbox
                 (outbox w ++ tick_warnings (clock w) (user_recommendations w)
                                changes i suffix)
                 (with_parking_spots
                    (take i (parking_spots w) ++ tick_spots changes i suffix) w)).
Proof.
  induction suffix as [| g rest IH]; intros i w Hdrop Hnone.
  - simpl. rewrite !app_nil_r.
    rewrite take_ge.
    + by rewrite with_parking_spots_same, <- (app_nil_r (outbox w)), with_outbox_same.
    + apply (f_equal length) in Hdrop. rewrite length_drop in Hdrop.
      simpl in Hdrop. lia.
  - apply drop_lookup_head in Hdrop as [Hg Hrest].
    simpl length. simpl seq. rewrite for_each_cons.
    rewrite (simulate_garage_returns i (changes i) w g Hg).
    2:{ specialize (Hnone 0%nat g eq_refl). by rewrite Nat.add_0_r in Hnone. }
    cbv zeta.
    set (g' := with_available_spots (adjusted g (changes i)) g).
    set (w1 := with_outbox _ (with_parking_spots _ w)).
    rewrite (IH (S i) w1).
    + simpl. f_equal. destruct w; simpl in *.
      unfold with_outbox, with_parking_spots; simpl. f_equal.
      * pose proof (lookup_lt_Some _ _ _ Hg) as Hlt.
        rewrite insert_take_drop by done.
        rewrite take_app, take_take, Nat.min_r by lia.
        rewrite length_take, Nat.min_l by lia.
        replace (S i - i)%nat with 1%nat by lia. simpl.
        by rewrite <- app_assoc.
      * by rewrite <- app_assoc.
    + simpl. rewrite drop_insert_lt by lia. done.
    + intros j g0 Hj. simpl.
      specialize (Hnone (S j) g0 Hj).
      by rewrite Nat.add_succ_r in Hnone.
Qed.

Lemma tick_loop_blocks changes suffix :
  forall i w,
    parking_lock w = true ->
    drop i (parking_spots w) = suffix ->
    (exists j g, suffix !! j = Some g
       ∧ fills (clock w) (user_recommendations w) g (changes (i + j)%nat)) ->
    exists w',
      for_each (seq i (length suffix)) (λ k, simulate_garage k (changes k)) w
      = Blocked w'
      ∧ parking_lock w' = true
      ∧ user_recommendations w' = user_recommendations w
      ∧ users_db w' = users_db w
      ∧ clock w' = clock w
      ∧ Forall (λ m, exists n k, m.2 = WarningNotification n k)
          (drop (length (outbox w)) (outbox w'))
      ∧ take (length (outbox w)) (outbox w') = outbox w.
Proof.
  induction suffix as [| g rest IH]; intros i w Hw Hdrop (j & g0 & Hj & Hfills);
    [done |].
  apply drop_lookup_head in Hdrop as [Hg Hrest].
  simpl length. simpl seq. rewrite for_each_cons.
  destruct (decide (fills (clock w) (user_recommendations w) g (changes i)))
    as [Hhere | Hnot].
  - rewrite (simulate_garage_blocks i (changes i) w g Hw Hg Hhere).
    eexists. split; [done |]. simpl.
    rewrite drop_all, take_ge by done. done.
  - rewrite (simulate_garage_returns i (changes i) w g Hg Hnot). cbv zeta.
    set (g' := with_available_spots (adjusted g (changes i)) g).
    set (w1 := with_outbox _ (with_parking_spots _ w)).
    destruct j as [| j].
    { simpl in Hj. injection Hj as <-. rewrite Nat.add_0_r in Hfills. done. }
    destruct (IH (S i) w1) as (w' & Hrun & Hlock & Hledger & Hdb & Hclock & Hout & Hold).
    + done.
    + simpl. rewrite drop_insert_lt by lia. done.
    + exists j, g0. split; [done |]. simpl. by rewrite <- Nat.add_succ_r.
    + exists w'. split; [done |]. split; [done |]. split; [done |].
      split; [done |]. split; [done |].
      simpl in Hout, Hold. rewrite length_app in Hout, Hold.
      assert (outbox w' = (outbox w ++ warnings (clock w) g' (available_spots g)
                                          (user_recommendations w))
                          ++ drop (length (outbox w)
                                   + length (warnings (clock w) g' (available_spots g)
                                               (user_recommendations w)))
                               (outbox w')) as Heq.
      { rewrite <- Hold at 1. by rewrite take_drop. }
      rewrite Heq. rewrite <- app_assoc.
      rewrite drop_app_length, take_app_length. split; [| done].
      apply Forall_app. split; [| done].
      unfold warnings. case_decide; [| done].
      apply Forall_fmap, Forall_forall. intros x _. simpl. by eexists _, _.
Qed.

(** *** The ledger as a dictionary *)

Lemma ledger_get_None session_id ledger :
  ledger_get session_id ledger = None <-> session_id ∉ ledger.*1.
Proof.
  induction ledger as [| [k v] l IH]; simpl.
  - split; [intros _; apply not_elem_of_nil | done].
  - case_decide as Hk.
    + subst k. split; [done |]. intros Hnot. destruct Hnot. apply list_elem_of_here.
    + rewrite IH, not_elem_of_cons. split; [by intros | by intros [_ ?]].
Qed.

Lemma ledger_del_cons session_id k v l :
  ledger_del session_id ((k, v) :: l)
  = if decide (k = session_id) then ledger_del session_id l
    else (k, v) :: ledger_del session_id l.
Proof.
  unfold ledger_del. rewrite filter_cons. simpl.
  destruct (decide (k = session_id)) as [-> | Hne].
  - by rewrite decide_False by (intros Hne; by apply Hne).
  - by rewrite decide_True.
Qed.

Lemma ledger_get_del_eq session_id ledger :
  ledger_get session_id (ledger_del session_id ledger) = None.
Proof.
  induction ledger as [| [k v] l IH]; [done |].
  rewrite ledger_del_cons. case_decide; [done |]. simpl. by rewrite decide_False.
Qed.

Lemma ledger_get_del_ne session_id other ledger :
  other ≠ session_id ->
  ledger_get other (ledger_del session_id ledger) = ledger_get other ledger.
Proof.
  intros Hne.
  induction ledger as [| [k v] l IH]; [done |].
  rewrite ledger_del_cons. case_decide as Hk; simpl.
  - subst k. by rewrite decide_False.
  - by rewrite IH.
Qed.

Lemma ledger_del_absent session_id ledger :
  ledger_get session_id ledger = None -> ledger_del session_id ledger = ledger.
Proof.
  induction ledger as [| [k v] l IH]; [done |]. simpl.
  rewrite ledger_del_cons. case_decide as Hk; [done |]. intros Hget.
  by rewrite IH.
Qed.

Lemma ledger_del_keys session_id ledger :
  (ledger_del session_id ledger).*1 = filter (λ k, k ≠ session_id) ledger.*1.
Proof.
  induction ledger as [| [k v] l IH]; [done |].
  rewrite ledger_del_cons, fmap_cons, filter_cons. simpl.
  destruct (decide (k = session_id)) as [-> | Hne].
  - by rewrite decide_False by (intros Hne; by apply Hne).
  - rewrite decide_True by done. by rewrite fmap_cons, IH.
Qed.

Lemma ledger_del_elem session_id k v ledger :
  (k, v) ∈ ledger_del session_id ledger -> k ≠ session_id.
Proof.
  induction ledger as [| [k' v'] l IH]; [by intros ?%elem_of_nil |].
  rewrite ledger_del_cons. case_decide; [done |].
  intros [Heq | Hin]%elem_of_cons; [by simplify_eq | by apply IH].
Qed.

Lemma ledger_set_keys session_id rec ledger :
  (ledger_set session_id rec ledger).*1
  = if decide (session_id ∈ ledger.*1) then ledger.*1 else ledger.*1 ++ [session_id].
Proof.
  induction ledger as [| [k v] l IH].
  - rewrite decide_False; [done | apply not_elem_of_nil].
  - cbn [ledger_set]. rewrite !fmap_cons. cbn [fst].
    destruct (decide (k = session_id)) as [Hk | Hk].
    + subst k. rewrite decide_True; [done | apply list_elem_of_here].
    + rewrite fmap_cons, IH. cbn [fst].
      destruct (decide (session_id ∈ l.*1)) as [Hin | Hnot].
      * rewrite decide_True; [done | by apply list_elem_of_further].
      * rewrite decide_False; [done |]. rewrite not_elem_of_cons. by split.
Qed.

Lemma ledger_set_NoDup session_id rec ledger :
  NoDup ledger.*1 -> NoDup (ledger_set session_id rec ledger).*1.
Proof.
  intros Hnd. rewrite ledger_set_keys. case_decide; [done |].
  apply NoDup_app. split; [done |]. split; [| apply NoDup_singleton].
  intros x Hx Hx'. apply list_elem_of_singleton in Hx'. by subst.
Qed.

Lemma ledger_set_length session_id rec ledger :
  length (ledger_set session_id rec ledger)
  = if decide (session_id ∈ ledger.*1) then length ledger else S (length ledger).
Proof.
  rewrite <- (length_fmap fst (ledger_set _ _ _)), ledger_set_keys.
  case_decide; rewrite ?length_app, length_fmap; simpl; lia.
Qed.

Lemma handle_parking_request_held float_of_str session_id username data w trip :
  parking_lock w = true ->
  parse_request float_of_str data = inr trip ->
  handle_parking_request float_of_str session_id username data w = Blocked w.
Proof.
  intros Hw Hparse. destruct trip as [[[[a b] c] d] t].
  unfold handle_parking_request. rewrite Hparse.
  unfold mbind at 1, M_bind at 1. by rewrite find_best_garage_held.
Qed.

End DispatchFacts.

(** ** Accounts *)

Module AccountFacts.

Import Py Effects Realtime RealtimeReadings.

Lemma nonempty_Some s u : nonempty s = Some u <-> s = Some u ∧ u ≠ ""%string.
Proof.
  unfold nonempty. destruct s as [x |]; simpl; [| by split; [| intros [? _]]].
  case_decide as Hx; split.
  - done.
  - intros [Heq Hne]. by simplify_eq.
  - intros Heq. by simplify_eq.
  - intros [Heq _]. by simplify_eq.
Qed.

Lemma nonempty_of u : u ≠ ""%string -> nonempty (Some u) = Some u.
Proof. intros. by apply nonempty_Some. Qed.

Lemma max_0_min_1_range x : 0 <= Rmax 0 (Rmin 1 x) <= 1.
Proof.
  unfold Rmax, Rmin.
  destruct (Rle_dec 1 x); destruct (Rle_dec 0 _); lra.
Qed.

Lemma max_0_min_1_id x : 0 <= x <= 1 -> Rmax 0 (Rmin 1 x) = x.
Proof.
  intros [? ?]. unfold Rmax, Rmin.
  destruct (Rle_dec 1 x); destruct (Rle_dec 0 _); lra.
Qed.

Lemma max_0_min_1_inr v y : max_0_min_1 v = inr y -> 0 <= y <= 1.
Proof.
  unfold max_0_min_1. destruct (number_of v) as [e | x]; simpl; [done |].
  intros Heq. simplify_eq. apply max_0_min_1_range.
Qed.

Lemma weights_insert db u account :
  weights_in_range db ->
  (forall x, price_weight account = Some x -> 0 <= x <= 1) ->
  weights_in_range (<[u := account]> db).
Proof.
  intros Hdb Haccount v account' x Hv Hx.
  destruct (decide (v = u)) as [-> | Hne].
  - rewrite lookup_insert_eq in Hv. simplify_eq. by apply Haccount.
  - rewrite lookup_insert_ne in Hv by done. by eapply Hdb.
Qed.

End AccountFacts.

(** ** The ranking and the navigation loop of parking_finder_v2.py *)

Module NavigationFacts.

Import Py Format Geo Effects FinderV2 FinderV2Props Outcomes.
Import EffectsFacts FinderV2Facts.

Lemma with_stdout_same w : with_stdout (stdout w ++ []) w = w.
Proof. rewrite app_nil_r. by destruct w. Qed.

Lemma available_none spots :
  (forall p, p ∈ spots -> (available_spots p <= 0)%Z) -> available spots = [].
Proof.
  intros Hnone. unfold available.
  induction spots as [| p l IH]; [done |].
  rewrite filter_cons. rewrite decide_False.
  - apply IH. intros q Hq. apply Hnone. by apply list_elem_of_further.
  - specialize (Hnone p (list_elem_of_here _ _)). lia.
Qed.

Lemma top_parking_none w dest_lat dest_lng n :
  (forall p, p ∈ parking_spots w -> (available_spots p <= 0)%Z) ->
  top_parking w dest_lat dest_lng n = [].
Proof.
  intros Hnone. unfold top_parking, scored_candidates.
  rewrite available_none by done. simpl. apply PyFacts.slice_to_nil.
Qed.

Lemma top_parking_head w dest_lat dest_lng n best score rest :
  top_parking w dest_lat dest_lng n = (best, score) :: rest ->
  best ∈ parking_spots w ∧ (0 < available_spots best)%Z
  ∧ score = score_parking best dest_lat dest_lng alpha_default
  ∧ forall p, p ∈ parking_spots w -> (0 < available_spots p)%Z ->
      score_parking best dest_lat dest_lng alpha_default
      <= score_parking p dest_lat dest_lng alpha_default.
Proof.
  intros Htop.
  pose proof (top_parking_available w dest_lat dest_lng n (best, score)) as Hhead.
  rewrite Htop in Hhead. specialize (Hhead (list_elem_of_here _ _)).
  simpl in Hhead. destruct Hhead as (Hin & Hpos & Hscore).
  split; [done |]. split; [done |]. split; [done |].
  intros p Hp Hppos.
  pose proof (PyFacts.slice_sort_spec snd n
                (scored_candidates (parking_spots w) dest_lat dest_lng)) as Hspec.
  cbv zeta in Hspec. fold (top_parking w dest_lat dest_lng n) in Hspec.
  rewrite Htop in Hspec. destruct Hspec as (Hsorted & _ & _ & more & Hperm & Hrest).
  assert ((p, score_parking p dest_lat dest_lng alpha_default)
            ∈ ((best, score) :: rest) ++ more) as Hcand.
  { rewrite Hperm. unfold scored_candidates.
    apply list_elem_of_fmap. exists p. split; [done |]. by apply available_spec. }
  rewrite <- Hscore.
  apply elem_of_app in Hcand as [Hres | Hmore].
  - apply list_elem_of_lookup in Hres as [i Hi].
    apply (Hsorted 0%nat i (best, score) _ ltac:(lia) eq_refl Hi).
  - apply (Hrest (best, score) _ (list_elem_of_here _ _) Hmore).
Qed.

Lemma top_parking_some w dest_lat dest_lng n p :
  (1 <= n)%Z -> p ∈ parking_spots w -> (0 < available_spots p)%Z ->
  exists best score rest, top_parking w dest_lat dest_lng n = (best, score) :: rest.
Proof.
  intros Hn Hp Hpos.
  destruct (top_parking w dest_lat dest_lng n) as [| [best score] rest] eqn:Htop;
    [| by eauto].
  assert (head (top_parking w dest_lat dest_lng n) = None) as Hhead by by rewrite Htop.
  unfold top_parking in Hhead. rewrite RankingFacts.head_slice_to in Hhead by done.
  apply RankingFacts.head_sort_by_none in Hhead.
  unfold scored_candidates in Hhead. apply fmap_nil_inv in Hhead.
  assert (p ∈ available (parking_spots w)) as Hin by by apply available_spec.
  rewrite Hhead in Hin. by apply elem_of_nil in Hin.
Qed.

Lemma top_parking_length w dest_lat dest_lng best score rest :
  top_parking w dest_lat dest_lng 3 = (best, score) :: rest -> (length rest <= 2)%nat.
Proof.
  intros Htop.
  pose proof (PyFacts.slice_to_length 3
                (sort_by snd (scored_candidates (parking_spots w) dest_lat dest_lng))
                ltac:(lia)) as Hlen.
  fold (top_parking w dest_lat dest_lng 3) in Hlen. rewrite Htop in Hlen.
  simpl in Hlen. lia.
Qed.

Lemma alternative_names best dest_lat dest_lng duration walk_distance
    (rest : list (parking * R)) :
  alt_name <$> (alternative_of best dest_lat dest_lng duration walk_distance <$> rest)
  = (λ x : parking * R, name x.1) <$> rest.
Proof.
  rewrite <- list_fmap_compose. apply list_fmap_ext. by intros i [alt alt_score] _.
Qed.

Section Loop.

Context (get_directions : R -> R -> R -> R -> string -> option (list string * R * R)).

Lemma navigation_turn_state dest_lat dest_lng duration st w :
  parking_lock w = false ->
  match top_parking w dest_lat dest_lng 3 with
  | [] =>
      navigation_turn get_directions dest_lat dest_lng duration st w
      = Done st (with_stdout (stdout w ++ [(clock w, NoParkingAlert)]) w)
  | (best, score) :: _ =>
      exists t out,
        navigation_turn get_directions dest_lat dest_lng duration st w
        = Done {| last_recommended := Some best;
                  last_notification_time := t;
                  nav_lat := nav_lat st + (dest_lat - nav_lat st) * 0.08;
                  nav_lng := nav_lng st + (dest_lng - nav_lng st) * 0.08 |}
               (with_stdout (stdout w ++ out) w)
  end.
Proof.
  intros Hw.
  destruct (top_parking w dest_lat dest_lng 3) as [| [best score] rest] eqn:Htop;
    unfold navigation_turn;
    unfold mbind at 1, M_bind at 1; rewrite find_top_parking_free, Htop by done;
    [done |].
  destruct (last_recommended st) as [old_spot |] eqn:Hlast.
  - destruct (decide (name best ≠ name old_spot)) as [Hname | Hsame].
    + unfold with_lock, mbind, M_bind, time_time, gets, mret, M_ret, print, modify.
      simpl. rewrite Hw. simpl. rewrite release_acquire_v2 by done.
      destruct (should_notify _ _ _ _ _) as [reason |].
      * destruct (decide (clock w - last_notification_time st > 10)).
        -- eexists _, [(clock w, _)]. reflexivity.
        -- eexists _, []. by rewrite with_stdout_same.
      * eexists _, []. by rewrite with_stdout_same.
    + unfold mbind, M_bind, time_time, gets, mret, M_ret. simpl.
      eexists _, []. by rewrite with_stdout_same.
  - unfold mbind, M_bind, time_time, gets, mret, M_ret, print, modify. simpl.
    eexists _, [(clock w, _)]. reflexivity.
Qed.

Lemma navigation_loop_returns dest_lat dest_lng duration env :
  forall st w,
    parking_lock w = false ->
    (last_recommended st = None ->
     haversine (nav_lat st) (nav_lng st) dest_lat dest_lng > 5) ->
    exists st' w',
      navigation_loop get_directions dest_lat dest_lng duration env st w = Done st' w'.
Proof.
  induction env as [| e env IH]; intros st w Hw Hfar; simpl.
  - case_decide; [by eexists _, _ |].
    destruct (last_recommended st); [by eexists _, _ |]. by specialize (Hfar eq_refl).
  - case_decide as Hnow.
    + pose proof (navigation_turn_state dest_lat dest_lng duration st w Hw) as Hturn.
      unfold mbind at 1, M_bind at 1.
      destruct (top_parking w dest_lat dest_lng 3) as [| [best score] rest].
      * rewrite Hturn. unfold mbind at 1, M_bind at 1, elapse, modify.
        by apply IH.
      * destruct Hturn as (t & out & ->).
        unfold mbind at 1, M_bind at 1, elapse, modify.
        by apply IH.
    + destruct (last_recommended st); [by eexists _, _ |]. by specialize (Hfar eq_refl).
Qed.

End Loop.

End NavigationFacts.

(** ** The way that is left *)

Module ArrivalFacts.

Import Py Format Geo GeoProps Effects FinderV2 FinderV2Props Outcomes.
Import EffectsFacts FinderV2Facts NavigationFacts.

Lemma sin_sqr_le x : sin x ^ 2 <= x ^ 2.
Proof.
  assert (forall y, 0 < y -> - y <= sin y <= y) as Hpos.
  { intros y Hy. pose proof (sin_lt_x y Hy). split; [| lra].
    destruct (Rle_dec 1 y) as [Hbig | Hsmall].
    - pose proof (SIN_bound y). lra.
    - pose proof PI2_1. assert (0 < sin y) by (apply sin_gt_0; lra). lra. }
  destruct (Rtotal_order x 0) as [Hneg | [-> | Hx]].
  - specialize (Hpos (- x) ltac:(lra)). rewrite sin_neg in Hpos. nra.
  - rewrite sin_0. lra.
  - specialize (Hpos x Hx). nra.
Qed.

Lemma hav_a_le_offsets lat1 lon1 lat2 lon2 :
  hav_a lat1 lon1 lat2 lon2
  <= (radians (lat2 - lat1) / 2) ^ 2 + (radians (lon2 - lon1) / 2) ^ 2.
Proof.
  unfold hav_a.
  pose proof (sin_sqr_le (radians (lat2 - lat1) / 2)).
  pose proof (sin_sqr_le (radians (lon2 - lon1) / 2)).
  pose proof (COS_bound (radians lat1)) as [? ?].
  pose proof (COS_bound (radians lat2)) as [? ?].
  set (c1 := cos (radians lat1)) in *. set (c2 := cos (radians lat2)) in *.
  set (t := sin (radians (lon2 - lon1) / 2) ^ 2) in *.
  assert (0 <= t) by (unfold t; nra).
  assert (c1 * c2 <= 1) by nra.
  nra.
Qed.

Lemma haversine_near lat1 lon1 lat2 lon2 :
  hav_a lat1 lon1 lat2 lon2 <= sin (5 / (2 * 6371000)) ^ 2 ->
  haversine lat1 lon1 lat2 lon2 <= 5.
Proof.
  intros Hsmall. rewrite GeoBounds.haversine_asin.
  pose proof (GeoBounds.hav_a_bounds lat1 lon1 lat2 lon2) as [Hlo Hhi].
  set (a := hav_a lat1 lon1 lat2 lon2) in *.
  set (theta := 5 / (2 * 6371000)) in *.
  pose proof PI2_1 as Hpi.
  assert (0 < theta < 1) as [Ht0 Ht1] by (unfold theta; lra).
  assert (0 < sin theta) as Hs by (apply sin_gt_0; lra).
  assert (sqrt a <= sin theta) as Hroot.
  { rewrite <- (sqrt_pow2 (sin theta)) by lra. by apply sqrt_le_1_alt. }
  assert (0 <= sqrt a <= 1) as Hrange.
  { split; [apply sqrt_pos |]. rewrite <- sqrt_1. apply sqrt_le_1_alt. lra. }
  assert (asin (sqrt a) <= theta) as Hasin.
  { destruct (Rle_dec (asin (sqrt a)) theta) as [| Hgt]; [done |].
    pose proof (asin_bound (sqrt a)) as [? ?].
    assert (sin theta < sin (asin (sqrt a))) as Hlt
      by (apply sin_increasing_1; lra).
    rewrite sin_asin in Hlt by lra. lra. }
  unfold theta in Hasin.
  apply Rmult_le_compat_l with (r := 2 * 6371000) in Hasin; [| lra].
  replace (2 * 6371000 * (5 / (2 * 6371000))) with 5 in Hasin by (field; lra).
  lra.
Qed.

(** After enough steps of 8 percent each, what is left of the way is
    at most 5 m. *)
Lemma approach (dlat dlon : R) :
  exists N : nat,
    forall (k : nat) lat lng dest_lat dest_lng,
      (N <= k)%nat ->
      dest_lat - lat = 0.92 ^ k * dlat ->
      dest_lng - lng = 0.92 ^ k * dlon ->
      haversine lat lng dest_lat dest_lng <= 5.
Proof.
  set (theta := 5 / (2 * 6371000)).
  pose proof PI2_1 as Hpi.
  assert (0 < sin theta) as Hs by (apply sin_gt_0; unfold theta; lra).
  set (C := (radians dlat / 2) ^ 2 + (radians dlon / 2) ^ 2).
  assert (0 <= C) as HC by (unfold C; nra).
  assert (0 < sin theta / (1 + C)) as Hy by (apply Rdiv_lt_0_compat; lra).
  destruct (pow_lt_1_zero 0.92 ltac:(rewrite Rabs_pos_eq; lra) _ Hy) as [N HN].
  exists N. intros k lat lng dest_lat dest_lng Hk Hlat Hlng.
  apply haversine_near. fold theta.
  eapply Rle_trans; [apply hav_a_le_offsets |].
  unfold radians. rewrite Hlat, Hlng.
  specialize (HN k ltac:(lia)).
  assert (0 < 0.92 ^ k) as Hpow by (apply pow_lt; lra).
  rewrite Rabs_pos_eq in HN by lra.
  set (q := 0.92 ^ k) in *.
  replace ((q * dlat * (PI / 180) / 2) ^ 2 + (q * dlon * (PI / 180) / 2) ^ 2)
    with (q ^ 2 * C) by (unfold C, radians; field).
  set (y := sin theta / (1 + C)) in *.
  assert (sin theta = y * (1 + C)) as -> by (unfold y; field; lra).
  assert (q ^ 2 <= y ^ 2) by nra.
  assert (0 <= y ^ 2) by nra.
  nra.
Qed.

Section Loop.

Context (get_directions : R -> R -> R -> R -> string -> option (list string * R * R)).

Lemma navigation_loop_arrives dest_lat dest_lng duration dlat dlon (N : nat) :
  (forall (k : nat) lat lng,
     (N <= k)%nat ->
     dest_lat - lat = 0.92 ^ k * dlat ->
     dest_lng - lng = 0.92 ^ k * dlon ->
     haversine lat lng dest_lat dest_lng <= 5) ->
  forall env (k : nat) st w,
    parking_lock w = false ->
    (N <= k + length env)%nat ->
    dest_lat - nav_lat st = 0.92 ^ k * dlat ->
    dest_lng - nav_lng st = 0.92 ^ k * dlon ->
    (last_recommended st = None ->
     haversine (nav_lat st) (nav_lng st) dest_lat dest_lng > 5) ->
    (exists p, p ∈ parking_spots w ∧ (0 < available_spots p)%Z) ->
    (forall e, e ∈ env -> exists p, p ∈ e.1 ∧ (0 < available_spots p)%Z) ->
    exists st' w' p,
      navigation_loop get_directions dest_lat dest_lng duration env st w = Done st' w'
      ∧ last_recommended st' = Some p
      ∧ haversine (nav_lat st') (nav_lng st') dest_lat dest_lng <= 5
      ∧ last (stdout w') = Some (clock w', Arrived (name p)).
Proof.
  intros Hnear.
  induction env as [| e env IH]; intros k st w Hw Hk Hlat Hlng Hfar Hspot Henv.
  - simpl in Hk.
    pose proof (Hnear k (nav_lat st) (nav_lng st) ltac:(lia) Hlat Hlng) as Hhere.
    simpl. rewrite decide_False by lra.
    destruct (last_recommended st) as [p |] eqn:Hlast;
      [| specialize (Hfar eq_refl); lra].
    exists st, (with_stdout (stdout w ++ [(clock w, Arrived (name p))]) w), p.
    split; [done |]. split; [done |]. split; [done |].
    simpl. by rewrite last_snoc.
  - simpl.
    destruct (decide (haversine (nav_lat st) (nav_lng st) dest_lat dest_lng > 5))
      as [Hgo | Hstop].
    + pose proof (navigation_turn_state get_directions dest_lat dest_lng duration st w Hw)
        as Hturn.
      destruct Hspot as (p0 & Hp0 & Hpos0).
      destruct (top_parking_some w dest_lat dest_lng 3 p0 ltac:(lia) Hp0 Hpos0)
        as (best & score & rest & Htop).
      rewrite Htop in Hturn. destruct Hturn as (t & out & Hturn).
      unfold mbind at 1, M_bind at 1. rewrite Hturn.
      unfold mbind at 1, M_bind at 1, elapse, modify.
      apply (IH (S k)).
      * done.
      * simpl in Hk. lia.
      * simpl. lra.
      * simpl. lra.
      * done.
      * simpl. apply Henv, list_elem_of_here.
      * intros e' He'. apply Henv. by apply list_elem_of_further.
    + destruct (last_recommended st) as [p |] eqn:Hlast;
        [| specialize (Hfar eq_refl); lra].
      exists st, (with_stdout (stdout w ++ [(clock w, Arrived (name p))]) w), p.
      split; [done |]. split; [done |]. split; [lra |].
      simpl. by rewrite last_snoc.
Qed.

End Loop.

End ArrivalFacts.

(** ** A run with two better deals *)

Module ThrottleFacts.

Import Py Format Geo GeoProps Effects FinderV2 FinderV2Props NavigationReadings Outcomes.
Import EffectsFacts FinderV2Facts NavigationFacts.

Lemma haversine_on_equator lon :
  0 <= lon <= 180 -> haversine 0 lon 0 180 = 6371000 * radians (180 - lon).
Proof.
  intros Hlon. rewrite GeoBounds.haversine_asin.
  pose proof PI_RGT_0 as Hpi.
  assert (hav_a 0 lon 0 180 = sin (radians (180 - lon) / 2) ^ 2) as ->.
  { unfold hav_a.
    replace (radians (0 - 0) / 2) with 0 by (unfold radians; lra).
    replace (radians 0) with 0 by (unfold radians; lra).
    rewrite sin_0, cos_0. lra. }
  assert (0 <= radians (180 - lon) / 2 <= PI / 2) as [Hlo Hhi]
    by (unfold radians; split; nra).
  rewrite <- Rsqr_pow2, sqrt_Rsqr.
  - rewrite asin_sin by lra. lra.
  - destruct (Req_dec (radians (180 - lon) / 2) 0) as [-> | Hne];
      [rewrite sin_0; lra |].
    left. apply sin_gt_0; lra.
Qed.

Lemma far_on_equator lat lng :
  lat = 0 -> 0 <= lng <= 90 -> haversine lat lng 0 180 > 200.
Proof.
  intros -> Hlng. rewrite haversine_on_equator by lra.
  unfold radians. pose proof PI2_1. nra.
Qed.

Lemma far_side_score n price places :
  score_parking (far_side n price places) 0 180 alpha_default
  = 50 * price * (if decide (places > 20)%Z then 1.0 else 1.5).
Proof.
  unfold score_parking, alpha_default. simpl.
  rewrite GeoFacts.haversine_same. lra.
Qed.

Lemma ranking_at_0 w :
  parking_spots w = [far_side "Dear" 3 10; far_side "Fair" 2 0; far_side "Cheap" 1 0] ->
  top_parking w 0 180 3 = [(far_side "Dear" 3 10, 50 * 3 * 1.5)].
Proof.
  intros Hspots. unfold top_parking, scored_candidates. rewrite Hspots. simpl.
  rewrite far_side_score. reflexivity.
Qed.

Lemma ranking_at_8 w :
  parking_spots w = [far_side "Dear" 3 10; far_side "Fair" 2 10; far_side "Cheap" 1 0] ->
  top_parking w 0 180 3
  = [(far_side "Fair" 2 10, 50 * 2 * 1.5); (far_side "Dear" 3 10, 50 * 3 * 1.5)].
Proof.
  intros Hspots. unfold top_parking, scored_candidates. rewrite Hspots. simpl.
  rewrite !far_side_score. simpl.
  unfold slice_to, sort_by, insert_by. simpl.
  rewrite decide_True by lra. reflexivity.
Qed.

Lemma ranking_at_13 w :
  parking_spots w = [far_side "Dear" 3 10; far_side "Fair" 2 10; far_side "Cheap" 1 10] ->
  top_parking w 0 180 3
  = [(far_side "Cheap" 1 10, 50 * 1 * 1.5); (far_side "Fair" 2 10, 50 * 2 * 1.5);
     (far_side "Dear" 3 10, 50 * 3 * 1.5)].
Proof.
  intros Hspots. unfold top_parking, scored_candidates. rewrite Hspots. simpl.
  rewrite !far_side_score. simpl.
  unfold slice_to, sort_by, insert_by. simpl.
  rewrite (decide_True (P := 50 * 1 * 1.5 < 50 * 2 * 1.5)) by lra.
  rewrite (decide_True (P := 50 * 1 * 1.5 < 50 * 3 * 1.5)) by lra.
  rewrite (decide_True (P := 50 * 2 * 1.5 < 50 * 3 * 1.5)) by lra.
  reflexivity.
Qed.

(** The first turn: the first recommendation. *)
Lemma turn_at_0 w lat lng :
  parking_lock w = false ->
  parking_spots w = [far_side "Dear" 3 10; far_side "Fair" 2 0; far_side "Cheap" 1 0] ->
  navigation_turn no_directions 0 180 2
    {| last_recommended := None; last_notification_time := 0;
       nav_lat := lat; nav_lng := lng |} w
  = Done {| last_recommended := Some (far_side "Dear" 3 10);
            last_notification_time := 0;
            nav_lat := lat + (0 - lat) * 0.08; nav_lng := lng + (180 - lng) * 0.08 |}
      (with_stdout
         (stdout w ++ [(clock w, initial_lines no_directions (far_side "Dear" 3 10)
                                   lat lng 0 180 2)]) w).
Proof.
  intros Hw Hspots. unfold navigation_turn.
  unfold mbind at 1, M_bind at 1.
  rewrite find_top_parking_free, (ranking_at_0 w Hspots) by done.
  reflexivity.
Qed.

(** The second turn: a better deal, and nothing is printed. *)
Lemma turn_at_8 w lat lng :
  parking_lock w = false ->
  parking_spots w = [far_side "Dear" 3 10; far_side "Fair" 2 10; far_side "Cheap" 1 0] ->
  clock w = 8 ->
  navigation_turn no_directions 0 180 2
    {| last_recommended := Some (far_side "Dear" 3 10); last_notification_time := 0;
       nav_lat := lat; nav_lng := lng |} w
  = Done {| last_recommended := Some (far_side "Fair" 2 10);
            last_notification_time := 0;
            nav_lat := lat + (0 - lat) * 0.08; nav_lng := lng + (180 - lng) * 0.08 |}
      w.
Proof.
  intros Hw Hspots Hclock. unfold navigation_turn.
  unfold mbind at 1, M_bind at 1.
  rewrite find_top_parking_free, (ranking_at_8 w Hspots) by done.
  unfold with_lock, mbind, M_bind, time_time, gets, mret, M_ret, print, modify.
  simpl. rewrite Hw. simpl. rewrite release_acquire_v2 by done.
  destruct (should_notify _ _ _ _ _) as [reason |]; [| done].
  rewrite decide_False by (rewrite Hclock; lra). done.
Qed.

(** The third turn: a better deal again, and it is printed. *)
Lemma turn_at_13 w lat lng :
  parking_lock w = false ->
  parking_spots w = [far_side "Dear" 3 10; far_side "Fair" 2 10; far_side "Cheap" 1 10] ->
  clock w = 13 ->
  haversine lat lng 0 180 > 200 ->
  navigation_turn no_directions 0 180 2
    {| last_recommended := Some (far_side "Fair" 2 10); last_notification_time := 0;
       nav_lat := lat; nav_lng := lng |} w
  = Done {| last_recommended := Some (far_side "Cheap" 1 10);
            last_notification_time := clock w;
            nav_lat := lat + (0 - lat) * 0.08; nav_lng := lng + (180 - lng) * 0.08 |}
      (with_stdout
         (stdout w ++ [(clock w, reroute_lines no_directions
                              (BetterDeal (round (2 * 2 - 1 * 2) 2))
                              (far_side "Fair" 2 10) (far_side "Cheap" 1 10)
                              lat lng 0 180 2)]) w).
Proof.
  intros Hw Hspots Hclock Hfar. unfold navigation_turn.
  unfold mbind at 1, M_bind at 1.
  rewrite find_top_parking_free, (ranking_at_13 w Hspots) by done.
  unfold with_lock, mbind, M_bind, time_time, gets, mret, M_ret, print, modify.
  simpl. rewrite Hw. simpl. rewrite release_acquire_v2 by done.
  rewrite Hspots. simpl.
  unfold should_notify. simpl.
  rewrite (decide_True (P := haversine lat lng 0 180 > 200)) by done.
  rewrite decide_True by lra.
  rewrite decide_True by (rewrite Hclock; lra).
  reflexivity.
Qed.


Lemma far_enough lat lng : lat = 0 -> 0 <= lng <= 90 -> haversine lat lng 0 180 > 5.
Proof. intros Hlat Hlng. pose proof (far_on_equator lat lng Hlat Hlng). lra. Qed.

(** The run cut after the first sleep, after the second and after the
    third. *)
Lemma throttle_run_8 :
  simulate_user_navigation no_directions 0 0 0 180 2 (take 1 throttle_env) throttle_start
  = Done {| last_recommended := Some (far_side "Dear" 3 10);
            last_notification_time := 0;
            nav_lat := 0 + (0 - 0) * 0.08; nav_lng := 0 + (180 - 0) * 0.08 |}
      {| parking_spots := [far_side "Dear" 3 10; far_side "Fair" 2 10;
                           far_side "Cheap" 1 0];
         parking_lock := false;
         clock := 8;
         stdout :=
           [(0, StartingNavigation 0 0 0 180);
            (0, initial_lines no_directions (far_side "Dear" 3 10) 0 0 0 180 2)] |}.
Proof.
  unfold simulate_user_navigation, throttle_env.
  unfold mbind at 1, M_bind at 1, time_time, gets.
  unfold mbind at 1, M_bind at 1, print, modify.
  cbn [take firstn navigation_loop nav_lat nav_lng].
  rewrite decide_True by (apply far_enough; lra).
  unfold mbind at 1, M_bind at 1. rewrite turn_at_0 by done.
  unfold mbind at 1, M_bind at 1, elapse, modify.
  cbn [navigation_loop nav_lat nav_lng].
  rewrite decide_True by (apply far_enough; lra).
  reflexivity.
Qed.

Lemma throttle_run_13 :
  simulate_user_navigation no_directions 0 0 0 180 2 (take 2 throttle_env) throttle_start
  = Done {| last_recommended := Some (far_side "Fair" 2 10);
            last_notification_time := 0;
            nav_lat := 0 + (0 - 0) * 0.08 + (0 - (0 + (0 - 0) * 0.08)) * 0.08;
            nav_lng := 0 + (180 - 0) * 0.08 + (180 - (0 + (180 - 0) * 0.08)) * 0.08 |}
      {| parking_spots := [far_side "Dear" 3 10; far_side "Fair" 2 10;
                           far_side "Cheap" 1 10];
         parking_lock := false;
         clock := 13;
         stdout :=
           [(0, StartingNavigation 0 0 0 180);
            (0, initial_lines no_directions (far_side "Dear" 3 10) 0 0 0 180 2)] |}.
Proof.
  unfold simulate_user_navigation, throttle_env.
  unfold mbind at 1, M_bind at 1, time_time, gets.
  unfold mbind at 1, M_bind at 1, print, modify.
  cbn [take firstn navigation_loop nav_lat nav_lng].
  rewrite decide_True by (apply far_enough; lra).
  unfold mbind at 1, M_bind at 1. rewrite turn_at_0 by done.
  unfold mbind at 1, M_bind at 1, elapse, modify.
  cbn [navigation_loop nav_lat nav_lng].
  rewrite decide_True by (apply far_enough; lra).
  unfold mbind at 1, M_bind at 1. rewrite turn_at_8 by done.
  unfold mbind at 1, M_bind at 1.
  cbn [navigation_loop nav_lat nav_lng].
  rewrite decide_True by (apply far_enough; lra).
  reflexivity.
Qed.

Lemma throttle_run_18 :
  exists st',
    simulate_user_navigation no_directions 0 0 0 180 2 throttle_env throttle_start
    = Done st'
        {| parking_spots := [far_side "Dear" 3 10; far_side "Fair" 2 10;
                             far_side "Cheap" 1 10];
           parking_lock := false;
           clock := 18;
           stdout :=
             [(0, StartingNavigation 0 0 0 180);
              (0, initial_lines no_directions (far_side "Dear" 3 10) 0 0 0 180 2);
              (13, reroute_lines no_directions (BetterDeal (round (2 * 2 - 1 * 2) 2))
                     (far_side "Fair" 2 10) (far_side "Cheap" 1 10)
                     (0 + (0 - 0) * 0.08 + (0 - (0 + (0 - 0) * 0.08)) * 0.08)
                     (0 + (180 - 0) * 0.08 + (180 - (0 + (180 - 0) * 0.08)) * 0.08)
                     0 180 2)] |}.
Proof.
  unfold simulate_user_navigation, throttle_env.
  unfold mbind at 1, M_bind at 1, time_time, gets.
  unfold mbind at 1, M_bind at 1, print, modify.
  cbn [navigation_loop nav_lat nav_lng].
  rewrite decide_True by (apply far_enough; lra).
  unfold mbind at 1, M_bind at 1. rewrite turn_at_0 by done.
  unfold mbind at 1, M_bind at 1, elapse, modify.
  cbn [navigation_loop nav_lat nav_lng].
  rewrite decide_True by (apply far_enough; lra).
  unfold mbind at 1, M_bind at 1. rewrite turn_at_8 by done.
  unfold mbind at 1, M_bind at 1.
  cbn [navigation_loop nav_lat nav_lng].
  rewrite decide_True by (apply far_enough; lra).
  unfold mbind at 1, M_bind at 1.
  rewrite turn_at_13; [| done | done | done | apply far_on_equator; lra].
  unfold mbind at 1, M_bind at 1.
  cbn [navigation_loop nav_lat nav_lng].
  rewrite decide_True by (apply far_enough; lra).
  eexists. reflexivity.
Qed.

(** At the clock readings 8 and 13 of this run there is a better deal. *)
Lemma better_deal_at_8 w lat lng :
  parking_lock w = false ->
  parking_spots w = [far_side "Dear" 3 10; far_side "Fair" 2 10; far_side "Cheap" 1 0] ->
  haversine lat lng 0 180 > 200 ->
  better_deal_event 0 180 2
    {| last_recommended := Some (far_side "Dear" 3 10); last_notification_time := 0;
       nav_lat := lat; nav_lng := lng |} w.
Proof.
  intros Hw Hspots Hfar.
  exists (far_side "Dear" 3 10), (far_side "Fair" 2 10), (50 * 2 * 1.5),
    [(far_side "Dear" 3 10, 50 * 3 * 1.5)], (round (3 * 2 - 2 * 2) 2).
  split; [done |].
  split; [by rewrite find_top_parking_free, (ranking_at_8 w Hspots) |].
  split; [done |].
  rewrite Hspots. unfold should_notify. simpl.
  rewrite (decide_True (P := haversine lat lng 0 180 > 200)) by done.
  by rewrite decide_True by lra.
Qed.

Lemma better_deal_at_13 w lat lng :
  parking_lock w = false ->
  parking_spots w = [far_side "Dear" 3 10; far_side "Fair" 2 10; far_side "Cheap" 1 10] ->
  haversine lat lng 0 180 > 200 ->
  better_deal_event 0 180 2
    {| last_recommended := Some (far_side "Fair" 2 10); last_notification_time := 0;
       nav_lat := lat; nav_lng := lng |} w.
Proof.
  intros Hw Hspots Hfar.
  exists (far_side "Fair" 2 10), (far_side "Cheap" 1 10), (50 * 1 * 1.5),
    [(far_side "Fair" 2 10, 50 * 2 * 1.5); (far_side "Dear" 3 10, 50 * 3 * 1.5)],
    (round (2 * 2 - 1 * 2) 2).
  split; [done |].
  split; [by rewrite find_top_parking_free, (ranking_at_13 w Hspots) |].
  split; [done |].
  rewrite Hspots. unfold should_notify. simpl.
  rewrite (decide_True (P := haversine lat lng 0 180 > 200)) by done.
  by rewrite decide_True by lra.
Qed.

End ThrottleFacts.

(** ** Requests with numbers that are not finite *)

Module RealtimeDoublesFacts.

Import Py Format Geo GeoProps Effects Realtime RealtimeProps Outcomes.
Import EffectsFacts RealtimeFacts.
Import Doubles RealtimeDoubles DoublesProps.

#[local] Abbreviation M := (Effects.M world).

(** *** Finite numbers: the reading as reals *)

Lemma haversine_finite lat1 lon1 lat2 lon2 :
  haversine (Finite lat1) (Finite lon1) (Finite lat2) (Finite lon2)
  = inr (Finite (Geo.haversine lat1 lon1 lat2 lon2)).
Proof.
  pose proof (GeoBounds.hav_a_bounds lat1 lon1 lat2 lon2) as [Hlo Hhi].
  unfold hav_a in Hlo, Hhi.
  unfold haversine, Geo.haversine, radians, math_sin, math_cos, mbind, try_bind.
  cbn [sub mul half square add math_sqrt].
  fold (Geo.radians (lat2 - lat1)) (Geo.radians (lon2 - lon1))
    (Geo.radians lat1) (Geo.radians lat2).
  rewrite decide_False by lra.
  rewrite decide_False by lra.
  reflexivity.
Qed.







(** *** Numbers that are not finite *)

Lemma radians_finite x : radians (Finite x) = Finite (Geo.radians x).
Proof. reflexivity. Qed.

Lemma radians_pos_inf : radians PosInf = PosInf.
Proof.
  unfold radians, mul, scaled. pose proof PI_RGT_0.
  rewrite decide_False by lra. by rewrite decide_True by lra.
Qed.

Lemma radians_neg_inf : radians NegInf = NegInf.
Proof.
  unfold radians, mul, scaled. pose proof PI_RGT_0.
  rewrite decide_False by lra. by rewrite decide_True by lra.
Qed.

Lemma radians_nan : radians NaN = NaN.
Proof. reflexivity. Qed.

(** With an argument that is not finite, [haversine] raises
    [ValueError] or returns nan. *)
Lemma haversine_not_finite lat1 lon1 lat2 lon2 :
  ¬ (finite lat1 ∧ finite lon1 ∧ finite lat2 ∧ finite lon2) ->
  haversine lat1 lon1 lat2 lon2 = inl ValueError
  ∨ haversine lat1 lon1 lat2 lon2 = inr NaN.
Proof.
  intros Hnot. unfold haversine.
  destruct lat1 as [lat1 | | |], lon1 as [lon1 | | |],
    lat2 as [lat2 | | |], lon2 as [lon2 | | |];
    try (destruct Hnot; by simpl);
    cbn [sub];
    rewrite ?radians_finite, ?radians_pos_inf, ?radians_neg_inf, ?radians_nan;
    cbn [half math_sin math_cos mbind try_bind square mul add math_sqrt sub math_atan2];
    auto.
Qed.

Lemma haversine_raises lat1 lon1 lat2 lon2 e :
  haversine lat1 lon1 lat2 lon2 = inl e -> e = ValueError.
Proof.
  intros Hraise.
  destruct (decide (finite lat1 ∧ finite lon1 ∧ finite lat2 ∧ finite lon2))
    as [(H1 & H2 & H3 & H4) | Hnot].
  - destruct lat1, lon1, lat2, lon2; try done.
    by rewrite haversine_finite in Hraise.
  - destruct (haversine_not_finite lat1 lon1 lat2 lon2 Hnot) as [H | H]; congruence.
Qed.

Lemma mul_nan_r x : mul x NaN = NaN.
Proof. by destruct x. Qed.

Lemma add_nan_r x : add x NaN = NaN.
Proof. by destruct x. Qed.

(** So the score of a garage is then nan, unless [ValueError] is raised. *)
Lemma score_parking_not_finite g user_lat user_lng dest_lat dest_lng price_weight :
  ¬ (finite user_lat ∧ finite user_lng ∧ finite dest_lat ∧ finite dest_lng) ->
  score_parking g user_lat user_lng dest_lat dest_lng price_weight = inl ValueError
  ∨ exists drive walk,
      score_parking g user_lat user_lng dest_lat dest_lng price_weight
      = inr (NaN, drive, walk).
Proof.
  intros Hnot. unfold score_parking.
  destruct (decide (finite user_lat ∧ finite user_lng)) as [[Hlat Hlng] | Huser].
  - destruct user_lat as [user_lat | | |]; try done.
    destruct user_lng as [user_lng | | |]; try done.
    rewrite haversine_finite. cbn [mbind try_bind].
    destruct (haversine_not_finite (Finite (lat g)) (Finite (lng g)) dest_lat dest_lng)
      as [-> | ->]; [simpl; tauto | by left |].
    right. eexists _, _. cbn [mul add]. reflexivity.
  - destruct (haversine_not_finite user_lat user_lng (Finite (lat g)) (Finite (lng g)))
      as [-> | ->]; [simpl; tauto | by left |].
    cbn [mbind try_bind].
    destruct (haversine (Finite (lat g)) (Finite (lng g)) dest_lat dest_lng)
      as [e | walk] eqn:Hwalk.
    + left. by rewrite (haversine_raises _ _ _ _ _ Hwalk).
    + right. eexists _, _. cbn [add mul]. reflexivity.
Qed.

Lemma best_step_not_finite g user_lat user_lng dest_lat dest_lng price_weight acc :
  ¬ (finite user_lat ∧ finite user_lng ∧ finite dest_lat ∧ finite dest_lng) ->
  best_step user_lat user_lng dest_lat dest_lng price_weight acc g = inl ValueError
  ∨ best_step user_lat user_lng dest_lat dest_lng price_weight acc g = inr acc.
Proof.
  intros Hnot. unfold best_step.
  destruct (score_parking_not_finite g user_lat user_lng dest_lat dest_lng price_weight
              Hnot) as [-> | (drive & walk & ->)]; [by left |].
  right. reflexivity.
Qed.

Lemma best_loop_not_finite user_lat user_lng dest_lat dest_lng price_weight l :
  ¬ (finite user_lat ∧ finite user_lng ∧ finite dest_lat ∧ finite dest_lng) ->
  forall acc,
    best_loop user_lat user_lng dest_lat dest_lng price_weight acc l = inl ValueError
    ∨ best_loop user_lat user_lng dest_lat dest_lng price_weight acc l = inr acc.
Proof.
  intros Hnot. induction l as [| g l IH]; intros acc; simpl; [by right |].
  destruct (best_step_not_finite g user_lat user_lng dest_lat dest_lng price_weight acc
              Hnot) as [-> | ->]; [by left |].
  apply IH.
Qed.

(** No garage is chosen then. *)
Lemma find_best_garage_not_finite w user_lat user_lng dest_lat dest_lng username :
  parking_lock w = false ->
  ¬ (finite user_lat ∧ finite user_lng ∧ finite dest_lat ∧ finite dest_lng) ->
  find_best_garage user_lat user_lng dest_lat dest_lng username w = Raised ValueError w
  ∨ find_best_garage user_lat user_lng dest_lat dest_lng username w
    = Done (None, Finite 0, Finite 0) w.
Proof.
  intros Hw Hnot. unfold find_best_garage.
  unfold mbind, M_bind, gets, with_lock. simpl. rewrite Hw. simpl.
  destruct (available_garages (parking_spots w)) as [| g l] eqn:Hav.
  - right. unfold mret, M_ret. by rewrite release_acquire.
  - destruct (best_loop_not_finite user_lat user_lng dest_lat dest_lng
                (price_weight_of (users_db w) username) (g :: l) Hnot best_init)
      as [-> | ->].
    + left. unfold raise. by rewrite release_acquire.
    + right. unfold mret, M_ret. by rewrite release_acquire.
Qed.

(** A garage is chosen only for coordinates that are finite. *)
Lemma find_best_garage_some w user_lat user_lng dest_lat dest_lng username g drive walk w' :
  parking_lock w = false ->
  find_best_garage user_lat user_lng dest_lat dest_lng username w
    = Done (Some g, drive, walk) w' ->
  finite user_lat ∧ finite user_lng ∧ finite dest_lat ∧ finite dest_lng.
Proof.
  intros Hw Hfound.
  destruct (decide (finite user_lat ∧ finite user_lng ∧ finite dest_lat ∧ finite dest_lng))
    as [| Hnot]; [done |].
  destruct (find_best_garage_not_finite w user_lat user_lng dest_lat dest_lng username
              Hw Hnot) as [H | H]; congruence.
Qed.












(** *** [handle_parking_request] *)

Section Requests.

Context (double_of_str : string -> option double).









End Requests.

End RealtimeDoublesFacts.

(** ** Distances in binary64 *)

Module Binary64Facts.

Import Py PrimFloat Binary64.

Lemma smallest_not_zero : smallest ≠ zero.
Proof.
  intros Heq.
  assert (eqb smallest smallest = eqb zero smallest) as Hb by congruence.
  vm_compute in Hb. discriminate Hb.
Qed.

(** [math.radians] rounds the smallest double to zero. *)
Lemma radians_smallest : radians smallest = zero.
Proof. reflexivity. Qed.

Lemma plain_libm_exact : exact_at_zero plain_libm.
Proof. done. Qed.

Lemma haversine_underflow m :
  exact_at_zero m -> haversine m zero zero smallest zero = inr zero.
Proof.
  intros (Hsin & Hcos & Hatan2). unfold haversine.
  change (radians (smallest - zero) / 2)%float with 0%float.
  change (radians (zero - zero) / 2)%float with 0%float.
  change (radians zero) with 0%float.
  change (radians smallest) with 0%float.
  unfold math_1. rewrite Hsin, Hcos. simpl.
  unfold math_atan2. rewrite Hatan2. reflexivity.
Qed.

End Binary64Facts.

(** * The claims of the specification *)

(** C1, as the code has it.  [score_parking] of
    realtime_parking_system.py returns the triple (score, drive
    distance, walk distance): the drive distance is the haversine
    distance from the user to the garage, the walk distance the one from
    the garage to the destination, and

      score = ((1 - w) * (drive + 2 * walk) + w * price * 100) * penalty

    where the penalty is 1.5 when at most 20 places are available and 1.0
    otherwise.  The weight [w] that [find_top_garages] and
    [find_best_garage] pass is the preference of the trip, 0.3 when
    there is none; and every entry that [find_top_garages] returns is
    such a triple, around its garage.

    [score_parking] of parking_finder_v2.py is another function: it
    returns the score alone, which is

      (0.5 * walk + 0.5 * price * 100) * penalty

    with the same penalty; the position of the user and a preference do
    not enter.  Every entry that [find_top_parking] returns carries this
    score. *)
Theorem C1_score_parking_formula :
  forall (g : Realtime.garage) (p : FinderV2.parking)
         (user_lat user_lng dest_lat dest_lng : R)
         (db : gmap string Realtime.user) (username : option string),
    let price_weight := Realtime.price_weight_of db username in
    let drive_distance :=
      Geo.haversine user_lat user_lng (Realtime.lat g) (Realtime.lng g) in
    let walk_distance :=
      Geo.haversine (Realtime.lat g) (Realtime.lng g) dest_lat dest_lng in
    let penalty :=
      if decide (Realtime.available_spots g <= 20)%Z then 1.5 else 1.0 in
    let walk_distance2 :=
      Geo.haversine (FinderV2.lat p) (FinderV2.lng p) dest_lat dest_lng in
    let penalty2 :=
      if decide (FinderV2.available_spots p <= 20)%Z then 1.5 else 1.0 in
    price_weight = default 0.3 (RealtimeProps.trip_preference db username)
    ∧ Realtime.score_parking g user_lat user_lng dest_lat dest_lng price_weight
      = (((1 - price_weight) * (drive_distance + 2 * walk_distance)
          + price_weight * Realtime.price_per_hour g * 100) * penalty,
         drive_distance, walk_distance)
    ∧ (forall (w w' : Realtime.world) (n : Z) res,
         Realtime.users_db w = db ->
         Realtime.find_top_garages user_lat user_lng dest_lat dest_lng username n w
           = Effects.Done res w' ->
         forall score g' drive walk, (score, g', drive, walk) ∈ res ->
           Realtime.score_parking g' user_lat user_lng dest_lat dest_lng price_weight
           = (score, drive, walk))
    ∧ FinderV2.score_parking p dest_lat dest_lng FinderV2.alpha_default
      = (0.5 * walk_distance2 + 0.5 * FinderV2.price_per_hour p * 100) * penalty2
    ∧ (forall (w2 w2' : FinderV2.world) (n : Z) res2,
         FinderV2.find_top_parking dest_lat dest_lng n w2 = Effects.Done res2 w2' ->
         forall p' score, (p', score) ∈ res2 ->
           score = FinderV2.score_parking p' dest_lat dest_lng FinderV2.alpha_default).
Proof.
  intros g p user_lat user_lng dest_lat dest_lng db username. cbv zeta.
  split; [| split; [| split; [| split]]].
  - unfold Realtime.price_weight_of, RealtimeProps.trip_preference.
    destruct username as [u |]; simpl; [| done].
    case_decide; [done |].
    destruct (db !! u) as [account |]; simpl; done.
  - unfold Realtime.score_parking. f_equal. f_equal.
    destruct (decide (Realtime.available_spots g > 20)%Z);
      destruct (decide (Realtime.available_spots g <= 20)%Z); try lia; lra.
  - intros w w' n res Hdb Hres score g' drive walk Hin.
    destruct (Realtime.parking_lock w) eqn:Hlock.
    + by rewrite RealtimeFacts.find_top_garages_held in Hres.
    + rewrite RealtimeFacts.find_top_garages_free in Hres by done.
      injection Hres as <- _.
      apply RealtimeFacts.top_garages_candidates in Hin.
      unfold RealtimeProps.scored_candidates in Hin.
      apply list_elem_of_fmap in Hin as (g0 & Heq & _).
      unfold Realtime.scored_entry in Heq. rewrite Hdb in Heq.
      destruct (Realtime.score_parking g0 user_lat user_lng dest_lat dest_lng
                  (Realtime.price_weight_of db username)) as [[sc dr] wk] eqn:Hsc.
      by simplify_eq.
  - unfold FinderV2.score_parking, FinderV2.alpha_default.
    destruct (decide (FinderV2.available_spots p > 20)%Z);
      destruct (decide (FinderV2.available_spots p <= 20)%Z); try lia; lra.
  - intros w2 w2' n res2 Hres p' score Hin.
    destruct (FinderV2.parking_lock w2) eqn:Hlock.
    + by rewrite FinderV2Facts.find_top_parking_held in Hres.
    + rewrite FinderV2Facts.find_top_parking_free in Hres by done.
      injection Hres as <- _.
      by apply FinderV2Facts.top_parking_available in Hin as (_ & _ & ?).
Qed.

(** C1, against "the scoring function" for parking_finder_v2.py: for
    a garage at the destination, with the user there too, that costs 2
    an hour and has 45 places, [score_parking] of that program returns
    100, and the formula of the claim, with the weight 0.3, gives 60. *)
Lemma C1_finder_v2_scores_differently :
  FinderV2.score_parking on_the_spot 0 0 FinderV2.alpha_default = 100
  ∧ ((1 - 0.3) * (Geo.haversine 0 0 0 0 + 2 * Geo.haversine 0 0 0 0)
     + 0.3 * FinderV2.price_per_hour on_the_spot * 100) * 1.0 = 60
  ∧ 100 ≠ 60.
Proof.
  split; [| split].
  - unfold FinderV2.score_parking, FinderV2.alpha_default. simpl.
    rewrite GeoFacts.haversine_same. lra.
  - rewrite GeoFacts.haversine_same. simpl. lra.
  - lra.
Qed.

(** C2.  Whatever the catalog and the trip, every garage in the list
    that the recommendation returns has a positive number of available
    places, and so has the best garage; the calls return when the lock
    is free.  This holds for [find_top_garages] and [find_best_garage] of
    realtime_parking_system.py and for [find_top_parking] of
    parking_finder_v2.py. *)
Theorem C2_no_full_location_recommended :
  forall (w : Realtime.world) (w2 : FinderV2.world)
         (user_lat user_lng dest_lat dest_lng : R) (username : option string) (n : Z),
    Realtime.parking_lock w = false ->
    FinderV2.parking_lock w2 = false ->
    (exists res,
        Realtime.find_top_garages user_lat user_lng dest_lat dest_lng username n w
          = Effects.Done res w
        ∧ forall x, x ∈ res ->
            Realtime.entry_garage x ∈ Realtime.parking_spots w
            ∧ (0 < Realtime.available_spots (Realtime.entry_garage x))%Z)
    ∧ (exists best drive walk,
        Realtime.find_best_garage user_lat user_lng dest_lat dest_lng username w
          = Effects.Done (best, drive, walk) w
        ∧ forall g, best = Some g ->
            g ∈ Realtime.parking_spots w ∧ (0 < Realtime.available_spots g)%Z)
    ∧ (exists res2,
        FinderV2.find_top_parking dest_lat dest_lng n w2 = Effects.Done res2 w2
        ∧ forall x, x ∈ res2 ->
            x.1 ∈ FinderV2.parking_spots w2 ∧ (0 < FinderV2.available_spots x.1)%Z).
Proof.
  intros w w2 user_lat user_lng dest_lat dest_lng username n Hw Hw2.
  split; [| split].
  - eexists. split; [by apply RealtimeFacts.find_top_garages_free |].
    intros x Hx.
    eapply RealtimeFacts.scored_candidates_available.
    eapply RealtimeFacts.top_garages_candidates, Hx.
  - destruct (RealtimeProps.best_garage_of w user_lat user_lng dest_lat dest_lng username)
      as [[best drive] walk] eqn:Hbest.
    exists best, drive, walk. split.
    + rewrite RealtimeFacts.find_best_garage_free by done. by rewrite Hbest.
    + intros g ->. eapply RealtimeFacts.best_garage_of_available, Hbest.
  - eexists. split; [by apply FinderV2Facts.find_top_parking_free |].
    intros x Hx.
    apply FinderV2Facts.top_parking_available in Hx as (? & ? & _). done.
Qed.

Lemma C2_witness :
  Realtime.parking_lock (Realtime.initial_world 0) = false
  ∧ FinderV2.parking_lock (FinderV2.initial_world 0) = false
  ∧ exists res,
      Realtime.find_top_garages scenario_user_lat scenario_user_lng
        scenario_dest_lat scenario_dest_lng None 3 (Realtime.initial_world 0)
      = Effects.Done res (Realtime.initial_world 0)
      ∧ forall x, x ∈ res ->
          Realtime.entry_garage x ∈ Realtime.parking_spots (Realtime.initial_world 0)
          ∧ (0 < Realtime.available_spots (Realtime.entry_garage x))%Z.
Proof.
  split; [reflexivity |]. split; [reflexivity |].
  apply (C2_no_full_location_recommended
           (Realtime.initial_world 0) (FinderV2.initial_world 0)
           scenario_user_lat scenario_user_lng scenario_dest_lat scenario_dest_lng
           None 3); reflexivity.
Defined.

(** C7.  The list that the recommendation returns is in ascending
    order of score; entries with the same score are in the order their
    garages have in the catalog; it has at most [n] entries (for a count
    [n] that is not negative); and it is made of candidates of the
    catalog, those left out having no smaller score.  This holds for
    [find_top_garages] of realtime_parking_system.py and for
    [find_top_parking] of parking_finder_v2.py. *)
Theorem C7_ranking_sorted_stable_bounded :
  forall (w : Realtime.world) (w2 : FinderV2.world)
         (user_lat user_lng dest_lat dest_lng : R) (username : option string) (n : Z),
    Realtime.parking_lock w = false ->
    FinderV2.parking_lock w2 = false ->
    (exists res,
        let candidates :=
          RealtimeProps.scored_candidates (Realtime.parking_spots w)
            user_lat user_lng dest_lat dest_lng
            (Realtime.price_weight_of (Realtime.users_db w) username) in
        Realtime.find_top_garages user_lat user_lng dest_lat dest_lng username n w
          = Effects.Done res w
        ∧ (forall i j x y, (i <= j)%nat -> res !! i = Some x -> res !! j = Some y ->
             Realtime.entry_score x <= Realtime.entry_score y)
        ∧ (forall s, Ranking.with_key Realtime.entry_score s res
                       `prefix_of` Ranking.with_key Realtime.entry_score s candidates)
        ∧ ((0 <= n)%Z -> (length res <= Z.to_nat n)%nat)
        ∧ (exists rest, res ++ rest ≡ₚ candidates
             ∧ forall x y, x ∈ res -> y ∈ rest ->
                 Realtime.entry_score x <= Realtime.entry_score y))
    ∧ (exists res2,
        let candidates2 :=
          FinderV2Props.scored_candidates (FinderV2.parking_spots w2) dest_lat dest_lng in
        FinderV2.find_top_parking dest_lat dest_lng n w2 = Effects.Done res2 w2
        ∧ (forall i j x y, (i <= j)%nat -> res2 !! i = Some x -> res2 !! j = Some y ->
             x.2 <= y.2)
        ∧ (forall s, Ranking.with_key snd s res2
                       `prefix_of` Ranking.with_key snd s candidates2)
        ∧ ((0 <= n)%Z -> (length res2 <= Z.to_nat n)%nat)
        ∧ (exists rest, res2 ++ rest ≡ₚ candidates2
             ∧ forall x y, x ∈ res2 -> y ∈ rest -> x.2 <= y.2)).
Proof.
  intros w w2 user_lat user_lng dest_lat dest_lng username n Hw Hw2.
  split.
  - eexists. cbv zeta.
    split; [by apply RealtimeFacts.find_top_garages_free |].
    apply (PyFacts.slice_sort_spec Realtime.entry_score n).
  - eexists. cbv zeta.
    split; [by apply FinderV2Facts.find_top_parking_free |].
    apply (PyFacts.slice_sort_spec snd n).
Qed.

Lemma C7_witness :
  Realtime.parking_lock (Realtime.initial_world 0) = false
  ∧ FinderV2.parking_lock (FinderV2.initial_world 0) = false
  ∧ exists res,
      Realtime.find_top_garages scenario_user_lat scenario_user_lng
        scenario_dest_lat scenario_dest_lng None 3 (Realtime.initial_world 0)
      = Effects.Done res (Realtime.initial_world 0)
      ∧ (length res <= 3)%nat
      ∧ forall i j x y, (i <= j)%nat -> res !! i = Some x -> res !! j = Some y ->
          Realtime.entry_score x <= Realtime.entry_score y.
Proof.
  split; [reflexivity |]. split; [reflexivity |].
  destruct (C7_ranking_sorted_stable_bounded
              (Realtime.initial_world 0) (FinderV2.initial_world 0)
              scenario_user_lat scenario_user_lng scenario_dest_lat scenario_dest_lng
              None 3 eq_refl eq_refl) as [(res & Hres & Hsorted & _ & Hlen & _) _].
  exists res. split; [exact Hres |]. split; [| exact Hsorted].
  apply Hlen. lia.
Defined.

(** C8, as the code has it.  The distance is never negative, it is the
    same in both directions, and it is zero between a pair of coordinates
    and itself. *)
Theorem C8_haversine_nonneg_symmetric_zero_on_equal :
  forall lat1 lon1 lat2 lon2 : R,
    0 <= Geo.haversine lat1 lon1 lat2 lon2
    ∧ Geo.haversine lat1 lon1 lat2 lon2 = Geo.haversine lat2 lon2 lat1 lon1
    ∧ ((lat1, lon1) = (lat2, lon2) -> Geo.haversine lat1 lon1 lat2 lon2 = 0).
Proof.
  intros lat1 lon1 lat2 lon2. split; [| split].
  - apply GeoFacts.haversine_nonneg.
  - apply GeoFacts.haversine_sym.
  - intros Heq. injection Heq as -> ->. apply GeoFacts.haversine_same.
Qed.

(** C8, where the claim fails.  The distance between two different
    pairs of coordinates can be zero.  On the doubles Python computes
    with, (0, 0) and (5e-324, 0) are different pairs, and [haversine]
    returns 0.0 for them: [math.radians(5e-324)] is rounded to 0, so the
    function computes as it does for equal pairs.  This holds with every
    C library that has sin(0) = 0, cos(0) = 1 and atan2(0, 1) = 0, and
    there is one. *)
Lemma C8_zero_distance_between_distinct_pairs :
  (Binary64.zero, Binary64.zero) ≠ (Binary64.smallest, Binary64.zero)
  ∧ (forall m : Binary64.libm,
       Binary64.exact_at_zero m ->
       Binary64.haversine m Binary64.zero Binary64.zero Binary64.smallest Binary64.zero
       = inr Binary64.zero)
  ∧ exists m : Binary64.libm, Binary64.exact_at_zero m.
Proof.
  split; [| split].
  - intros Heq. apply (f_equal fst) in Heq. simpl in Heq.
    by apply Binary64Facts.smallest_not_zero.
  - apply Binary64Facts.haversine_underflow.
  - exists Binary64.plain_libm. apply Binary64Facts.plain_libm_exact.
Qed.

(** C6.  Whatever the change drawn, of any sign and size, the new
    count of a garage is the old count plus the change, clamped to the
    interval from 0 to the capacity; so a catalog in which every count
    is between 0 and the capacity stays so after every mutation and
    after every tick of the simulator, however the tick ends.  This
    holds for [simulate_spots] of realtime_parking_system.py and for
    [simulate_parking_changes] of parking_finder_v2.py. *)
Theorem C6_available_clamped_within_capacity :
  forall (w : Realtime.world) (w2 : FinderV2.world)
         (changes : nat -> Z) (i : nat) (change : Z),
    Forall RealtimeProps.within_capacity (Realtime.parking_spots w) ->
    Forall FinderV2Props.within_capacity (FinderV2.parking_spots w2) ->
    (forall g, Realtime.parking_spots w !! i = Some g ->
       exists g',
         Realtime.parking_spots
           (Outcomes.final (Realtime.simulate_garage i change w)) !! i = Some g'
         ∧ Realtime.available_spots g'
           = Ranking.clamp 0 (Realtime.total_spots g)
               (Realtime.available_spots g + change)
         ∧ Realtime.total_spots g' = Realtime.total_spots g
         ∧ RealtimeProps.within_capacity g')
    ∧ (forall p, FinderV2.parking_spots w2 !! i = Some p ->
       FinderV2.parking_lock w2 = false ->
       exists p',
         FinderV2.parking_spots
           (Outcomes.final (FinderV2.simulate_parking_changes_tick i change w2)) !! i
         = Some p'
         ∧ FinderV2.available_spots p'
           = Ranking.clamp 0 (FinderV2.capacity p)
               (FinderV2.available_spots p + change)
         ∧ FinderV2.capacity p' = FinderV2.capacity p
         ∧ FinderV2Props.within_capacity p')
    ∧ Forall RealtimeProps.within_capacity
        (Realtime.parking_spots
           (Outcomes.final (Realtime.simulate_spots_tick changes w)))
    ∧ Forall FinderV2Props.within_capacity
        (FinderV2.parking_spots
           (Outcomes.final (FinderV2.simulate_parking_changes_tick i change w2))).
Proof.
  intros w w2 changes i change Hw Hw2.
  split; [| split; [| split]].
  - intros g Hg.
    assert (0 <= Realtime.total_spots g)%Z as Htotal.
    { rewrite Forall_lookup in Hw. specialize (Hw _ _ Hg).
      unfold RealtimeProps.within_capacity in Hw. lia. }
    exists (Realtime.with_available_spots (Realtime.adjusted g change) g).
    split; [| split; [| split]].
    + rewrite (RealtimeFacts.simulate_garage_catalog _ _ _ _ Hg).
      apply list_lookup_insert_eq. by eapply lookup_lt_Some.
    + simpl. by apply RealtimeFacts.adjusted_clamp.
    + done.
    + by apply RealtimeFacts.adjusted_within_capacity.
  - intros p Hp Hlock.
    assert (0 <= FinderV2.capacity p)%Z as Hcap.
    { rewrite Forall_lookup in Hw2. specialize (Hw2 _ _ Hp).
      unfold FinderV2Props.within_capacity in Hw2. lia. }
    exists (FinderV2.with_available_spots (FinderV2.adjusted p change) p).
    split; [| split; [| split]].
    + rewrite (FinderV2Facts.simulate_parking_changes_tick_free _ _ _ _ Hlock Hp).
      simpl. apply list_lookup_insert_eq. by eapply lookup_lt_Some.
    + simpl. by apply FinderV2Facts.adjusted_clamp_v2.
    + done.
    + unfold FinderV2Props.within_capacity, FinderV2.adjusted. simpl. lia.
  - by apply RealtimeFacts.simulate_spots_tick_within_capacity.
  - by apply FinderV2Facts.simulate_parking_changes_tick_within_capacity.
Qed.

Lemma initial_within_capacity now :
  Forall RealtimeProps.within_capacity (Realtime.parking_spots (Realtime.initial_world now)).
Proof. repeat constructor; unfold RealtimeProps.within_capacity; simpl; lia. Qed.

Lemma initial_within_capacity_v2 now :
  Forall FinderV2Props.within_capacity (FinderV2.parking_spots (FinderV2.initial_world now)).
Proof. repeat constructor; unfold FinderV2Props.within_capacity; simpl; lia. Qed.

Lemma C6_witness :
  Forall RealtimeProps.within_capacity
    (Realtime.parking_spots (Realtime.initial_world 0))
  ∧ Forall FinderV2Props.within_capacity
      (FinderV2.parking_spots (FinderV2.initial_world 0))
  ∧ Forall RealtimeProps.within_capacity
      (Realtime.parking_spots
         (Outcomes.final
            (Realtime.simulate_spots_tick (λ _, (-5)%Z) (Realtime.initial_world 0))))
  ∧ Forall FinderV2Props.within_capacity
      (FinderV2.parking_spots
         (Outcomes.final
            (FinderV2.simulate_parking_changes_tick 3 (-10)
               (FinderV2.initial_world 0)))).
Proof.
  pose proof (initial_within_capacity 0) as Hrealtime.
  pose proof (initial_within_capacity_v2 0) as Hv2.
  split; [exact Hrealtime |]. split; [exact Hv2 |].
  destruct (C6_available_clamped_within_capacity
              (Realtime.initial_world 0) (FinderV2.initial_world 0)
              (λ _, (-5)%Z) 3%nat (-10)%Z Hrealtime Hv2)
    as (_ & _ & Hafter & Hafter2).
  split; [exact Hafter | exact Hafter2].
Defined.

(** ** The dispatcher where the simulator calls it *)

(** C3, what the code does instead.  [simulate_spots] calls the
    dispatcher inside its [with parking_lock:] block.  When the change
    makes a garage full and a ledger entry not older than 300 is bound to
    it, the dispatcher calls [send_reroute_notification], whose first
    step [find_best_garage] takes the same lock: the tick never returns.
    No notification is sent and the ledger is as before; the lock stays
    held. *)
Theorem C3_dispatch_blocks_when_recommended_garage_fills :
  forall (changes : nat -> Z) (w : Realtime.world) (i : nat) (g : Realtime.garage)
         (entry : string * Realtime.recommendation),
    Realtime.parking_lock w = false ->
    Realtime.parking_spots w !! i = Some g ->
    (forall j g', (j < i)%nat -> Realtime.parking_spots w !! j = Some g' ->
       Realtime.adjusted g' (changes j) = Realtime.available_spots g') ->
    Realtime.available_spots g ≠ 0%Z ->
    Realtime.adjusted g (changes i) = 0%Z ->
    entry ∈ Realtime.user_recommendations w ->
    Realtime.garage_name entry.2 = Realtime.name g ->
    Realtime.clock w - Realtime.timestamp entry.2 <= 300 ->
    exists w',
      Realtime.simulate_spots_tick changes w = Effects.Blocked w'
      ∧ Realtime.outbox w' = Realtime.outbox w
      ∧ Realtime.user_recommendations w' = Realtime.user_recommendations w
      ∧ Realtime.parking_lock w' = true.
Proof.
  intros changes w i g entry Hw Hg Hbefore Hpos Hfull Hin Hbound Hfresh.
  eexists. split.
  - apply (RealtimeFacts.simulate_spots_tick_blocks changes w i g); try done.
    exists entry. split; [done |]. split; [lra | done].
  - done.
Qed.

Lemma C3_witness :
  exists w',
    Realtime.simulate_spots_tick zone_changes zone_world = Effects.Blocked w'
    ∧ Realtime.outbox w' = []
    ∧ Realtime.user_recommendations w' = [("s1"%string, zone_entry)]
    ∧ Realtime.parking_lock w' = true.
Proof.
  apply (C3_dispatch_blocks_when_recommended_garage_fills
           zone_changes zone_world 3 zone ("s1"%string, zone_entry)).
  - reflexivity.
  - reflexivity.
  - intros j g' Hj Hg'.
    destruct j as [| [| [| j]]]; [| | | lia];
      simpl in Hg'; injection Hg' as <-; reflexivity.
  - discriminate.
  - reflexivity.
  - constructor.
  - reflexivity.
  - simpl. lra.
Defined.

(** C4, what the code does instead.  Where it is called, inside the
    [with parking_lock:] block of [simulate_spots],
    [send_reroute_notification] never returns: it waits for the lock on
    its first step, before anything is recomputed, emitted or written. *)
Theorem C4_reroute_blocks_under_the_simulator_lock :
  forall (session_id : string) (old_rec : Realtime.recommendation) (reason : string)
         (w : Realtime.world),
    Realtime.parking_lock w = true ->
    Realtime.send_reroute_notification session_id old_rec reason w = Effects.Blocked w.
Proof.
  intros session_id old_rec reason w Hw.
  by apply RealtimeFacts.send_reroute_notification_held.
Qed.

Lemma C4_witness :
  Realtime.send_reroute_notification "s1" zone_entry "full"
    (Realtime.with_parking_lock_held true zone_world)
  = Effects.Blocked (Realtime.with_parking_lock_held true zone_world).
Proof.
  apply (C4_reroute_blocks_under_the_simulator_lock "s1" zone_entry "full"
           (Realtime.with_parking_lock_held true zone_world)).
  reflexivity.
Defined.

(** What [send_reroute_notification] does when it is entered with the
    lock free, which no call in the program does.  If no garage has a
    place it emits the error and leaves the ledger as it is.  Otherwise,
    for an entry of the ledger whose garage is in the catalog, it emits
    the re-route to the garage that [find_best_garage] returns for the
    stored trip, and gives the entry the name of that garage, the new
    walk distance and the reading of the clock; the other entries and
    the catalog stay as they are. *)
Theorem reroute_with_the_lock_free :
  forall (session_id : string) (old_rec : Realtime.recommendation) (reason : string)
         (w : Realtime.world),
    Realtime.parking_lock w = false ->
    ((forall g, g ∈ Realtime.parking_spots w -> (Realtime.available_spots g <= 0)%Z) ->
     Realtime.send_reroute_notification session_id old_rec reason w
     = Effects.Done ()
         (Realtime.with_outbox
            (Realtime.outbox w ++ [(session_id, RealtimeProps.no_parking_message)]) w))
    ∧ (forall g old_garage rec,
         g ∈ Realtime.parking_spots w -> (0 < Realtime.available_spots g)%Z ->
         Realtime.garage_named (Realtime.garage_name old_rec) (Realtime.parking_spots w)
           = Some old_garage ->
         Realtime.ledger_get session_id (Realtime.user_recommendations w) = Some rec ->
         exists new_garage new_drive new_walk w',
           Realtime.find_best_garage (Realtime.user_lat old_rec) (Realtime.user_lng old_rec)
             (Realtime.dest_lat old_rec) (Realtime.dest_lng old_rec)
             (Realtime.username old_rec) w
           = Effects.Done (Some new_garage, new_drive, new_walk) w
           ∧ Realtime.send_reroute_notification session_id old_rec reason w
             = Effects.Done () w'
           ∧ Realtime.outbox w'
             = Realtime.outbox w
               ++ [(session_id,
                    RealtimeProps.reroute_message old_rec reason old_garage
                      new_garage new_drive new_walk)]
           ∧ Realtime.ledger_get session_id (Realtime.user_recommendations w')
             = Some (Realtime.updated (Realtime.name new_garage) (Realtime.clock w)
                       new_walk rec)
           ∧ (forall other, other ≠ session_id ->
                Realtime.ledger_get other (Realtime.user_recommendations w')
                = Realtime.ledger_get other (Realtime.user_recommendations w))
           ∧ Realtime.parking_spots w' = Realtime.parking_spots w).
Proof.
  intros session_id old_rec reason w Hw. split.
  - intros Hnone.
    rewrite RealtimeFacts.send_reroute_notification_free by done.
    by rewrite RealtimeFacts.best_garage_of_none.
  - intros g old_garage rec Hg Hpos Hold Hrec.
    pose proof (RealtimeFacts.best_garage_of_some w
      (Realtime.user_lat old_rec) (Realtime.user_lng old_rec)
      (Realtime.dest_lat old_rec) (Realtime.dest_lng old_rec)
      (Realtime.username old_rec) g Hg Hpos) as [new_garage Hbest].
    rewrite RealtimeFacts.send_reroute_notification_free by done.
    rewrite RealtimeFacts.find_best_garage_free by done.
    destruct (RealtimeProps.best_garage_of w _ _ _ _ _) as [[best new_drive] new_walk].
    simpl in Hbest. subst best. rewrite Hold, Hrec.
    exists new_garage, new_drive, new_walk. eexists.
    split; [done |]. split; [done |]. simpl.
    split; [done |]. split; [apply RealtimeFacts.ledger_get_set_eq |].
    split; [| done].
    intros other Hother. by apply RealtimeFacts.ledger_get_set_ne.
Qed.

Lemma reroute_with_the_lock_free_witness :
  Realtime.parking_lock zone_world = false
  ∧ zone ∈ Realtime.parking_spots zone_world
  ∧ (0 < Realtime.available_spots zone)%Z
  ∧ exists new_garage new_drive new_walk w',
      Realtime.send_reroute_notification "s1" zone_entry "full" zone_world
      = Effects.Done () w'
      ∧ Realtime.outbox w'
        = [("s1"%string,
            RealtimeProps.reroute_message zone_entry "full" zone
              new_garage new_drive new_walk)]
      ∧ Realtime.ledger_get "s1" (Realtime.user_recommendations w')
        = Some (Realtime.updated (Realtime.name new_garage) 16 new_walk zone_entry).
Proof.
  assert (zone ∈ Realtime.parking_spots zone_world) as Hzone.
  { simpl. do 3 apply list_elem_of_further. apply list_elem_of_here. }
  split; [reflexivity |]. split; [exact Hzone |]. split; [simpl; lia |].
  destruct (reroute_with_the_lock_free "s1" zone_entry "full" zone_world eq_refl)
    as [_ Hsome].
  destruct (Hsome zone zone zone_entry Hzone)
    as (new_garage & new_drive & new_walk & w' & _ & Hsend & Hout & Hrec & _);
    [simpl; lia | reflexivity | reflexivity |].
  exists new_garage, new_drive, new_walk, w'.
  split; [exact Hsend |]. split; [exact Hout | exact Hrec].
Defined.

(** What the dispatcher does for a garage that is not full, with the
    lock held or not: if the count went below 5 from 5 or more, it sends
    one warning to each session whose entry is not older than 300 and is
    bound to the garage, in the order of the ledger; otherwise it sends
    nothing.  The ledger and the catalog stay as they are. *)
Theorem dispatch_warns_when_not_full :
  forall (changed_garage : Realtime.garage) (old_available : Z) (w : Realtime.world),
    Realtime.available_spots changed_garage ≠ 0%Z ->
    let crossing :=
      (Realtime.available_spots changed_garage < 5 ∧ old_available >= 5)%Z in
    let concerned :=
      filter (λ entry : string * Realtime.recommendation,
                ¬ (Realtime.clock w - Realtime.timestamp entry.2 > 300)
                ∧ Realtime.garage_name entry.2 = Realtime.name changed_garage)
             (Realtime.user_recommendations w) in
    let sent :=
      if decide crossing then
        (λ entry : string * Realtime.recommendation,
           (entry.1, Realtime.WarningNotification (Realtime.name changed_garage)
                       (Realtime.available_spots changed_garage)))
          <$> concerned
      else [] in
    Realtime.check_user_recommendations changed_garage old_available w
    = Effects.Done () (Realtime.with_outbox (Realtime.outbox w ++ sent) w).
Proof.
  intros changed_garage old_available w Hnot. cbv zeta.
  by rewrite RealtimeFacts.check_user_recommendations_not_full.
Qed.

Lemma dispatch_warns_when_not_full_witness :
  Realtime.check_user_recommendations zone 8 zone_world
  = Effects.Done ()
      (Realtime.with_outbox
         [("s1"%string, Realtime.WarningNotification "Street Parking Zone" 3)]
         zone_world).
Proof.
  rewrite (dispatch_warns_when_not_full zone 8 zone_world); [| discriminate].
  f_equal. f_equal. simpl.
  rewrite filter_cons, decide_True; [done |].
  simpl. split; [lra | done].
Defined.

(** ** Requests *)






(** ** The throttle of the navigation loop *)

(** C5, as the code has it.  In [simulate_user_navigation] of
    parking_finder_v2.py, a turn of the loop prints a re-route for a
    better deal (the garage recommended before still has places) only if
    more than 10 has passed on the clock since [last_notification_time],
    which is the time of the last re-route of this run and, before the
    first one, the time the run started; the garage now ranked first is
    more than 200 m from where the user is; and it costs more than 1.0
    less for the duration of the stay.  And in everything a run prints,
    two re-routes are more than 10 apart: of two events within 10 of
    each other, at most one is notified. *)
Theorem C5_better_deal_notifications_throttled :
  forall (get_directions : R -> R -> R -> R -> string -> option (list string * R * R))
         (w : FinderV2.world)
         (user_lat user_lng dest_lat dest_lng duration : R)
         (env : list (list FinderV2.parking * R)),
    FinderV2.parking_lock w = false ->
    (forall st st' w' t l savings,
       FinderV2.navigation_turn get_directions dest_lat dest_lng duration st w
         = Effects.Done st' w' ->
       (t, l) ∈ drop (length (FinderV2.stdout w)) (FinderV2.stdout w') ->
       FinderV2Props.reroute_reason l = Some (FinderV2.BetterDeal savings) ->
       exists old_spot best score rest,
         FinderV2.last_recommended st = Some old_spot
         ∧ FinderV2.find_top_parking dest_lat dest_lng 3 w
           = Effects.Done ((best, score) :: rest) w
         ∧ FinderV2.clock w - FinderV2.last_notification_time st > 10
         ∧ Geo.haversine (FinderV2.nav_lat st) (FinderV2.nav_lng st)
             (FinderV2.lat best) (FinderV2.lng best) > 200
         ∧ FinderV2.price_per_hour old_spot * duration
           - FinderV2.price_per_hour best * duration > 1.0)
    ∧ (exists out,
         FinderV2.stdout
           (Outcomes.final
              (FinderV2.simulate_user_navigation get_directions
                 user_lat user_lng dest_lat dest_lng duration env w))
         = FinderV2.stdout w ++ out
         ∧ forall i j ti tj li lj,
             (i < j)%nat -> out !! i = Some (ti, li) -> out !! j = Some (tj, lj) ->
             FinderV2Props.is_reroute li -> FinderV2Props.is_reroute lj ->
             tj - ti > 10).
Proof.
  intros get_directions w user_lat user_lng dest_lat dest_lng duration env Hw.
  split.
  - intros st st' w' t l savings Hturn Hin Hreason.
    destruct (FinderV2Facts.navigation_turn_better_deal get_directions
                dest_lat dest_lng duration st w st' w' t savings l Hw Hturn Hin Hreason)
      as (old_spot & best & score & rest & Hlast & Htop & Hlate & Hfar & Hsaves).
    exists old_spot, best, score, rest.
    rewrite FinderV2Facts.find_top_parking_free by done. by rewrite Htop.
  - unfold FinderV2.simulate_user_navigation.
    unfold mbind at 1, Effects.M_bind at 1, FinderV2.time_time, Effects.gets.
    unfold mbind at 1, Effects.M_bind at 1, FinderV2.print, Effects.modify.
    set (w1 := FinderV2.with_stdout _ w).
    set (st := {| FinderV2.last_recommended := None |}).
    destruct (FinderV2Facts.navigation_loop_throttled get_directions
                dest_lat dest_lng duration env st w1 (FinderV2.stdout w)
                [(FinderV2.clock w,
                  FinderV2.StartingNavigation user_lat user_lng dest_lat dest_lng)])
      as (out & Hout & Hspaced); [done | done | |].
    + split.
      * intros i j ti tj li lj Hij Hi Hj Hli _.
        destruct i; [| done]. simpl in Hi. injection Hi as <- <-. done.
      * intros t l Hin Hl. apply list_elem_of_singleton in Hin.
        injection Hin as -> ->. done.
    + exists out. split; [exact Hout | exact Hspaced].
Qed.

Lemma deal_ranking :
  FinderV2Props.top_parking deal_world 0 180 3 = [(cheap, 50); (dear, 150)].
Proof.
  unfold FinderV2Props.top_parking, FinderV2Props.scored_candidates.
  assert (FinderV2.score_parking dear 0 180 FinderV2.alpha_default = 150) as Hdear.
  { unfold FinderV2.score_parking, FinderV2.alpha_default. simpl.
    rewrite GeoFacts.haversine_same. lra. }
  assert (FinderV2.score_parking cheap 0 180 FinderV2.alpha_default = 50) as Hcheap.
  { unfold FinderV2.score_parking, FinderV2.alpha_default. simpl.
    rewrite GeoFacts.haversine_same. lra. }
  simpl. rewrite Hdear, Hcheap.
  unfold Py.slice_to, Py.sort_by, Py.insert_by. simpl.
  rewrite decide_True by lra. reflexivity.
Qed.

Lemma deal_turn :
  exists st',
    FinderV2.navigation_turn no_directions 0 180 1 deal_state deal_world
    = Effects.Done st'
        (FinderV2.with_stdout
           [(11, FinderV2.reroute_lines no_directions
                   (FinderV2.BetterDeal (Py.round (3 * 1 - 1 * 1) 2))
                   dear cheap 0 0 0 180 1)]
           deal_world).
Proof.
  unfold FinderV2.navigation_turn.
  unfold mbind at 1, Effects.M_bind at 1.
  rewrite FinderV2Facts.find_top_parking_free, deal_ranking by reflexivity.
  unfold Effects.with_lock, mbind, Effects.M_bind, FinderV2.time_time, Effects.gets,
    mret, Effects.M_ret, FinderV2.print, Effects.modify.
  simpl.
  unfold FinderV2.should_notify. simpl.
  rewrite GeoFacts.haversine_half_equator.
  rewrite decide_True by (pose proof PI2_1; lra).
  rewrite decide_True by lra.
  rewrite decide_True by lra.
  eexists. reflexivity.
Qed.

Lemma C5_witness :
  FinderV2.parking_lock deal_world = false
  ∧ exists st' w' l,
      FinderV2.navigation_turn no_directions 0 180 1 deal_state deal_world
        = Effects.Done st' w'
      ∧ FinderV2.stdout w' = [(11, l)]
      ∧ FinderV2Props.reroute_reason l
        = Some (FinderV2.BetterDeal (Py.round (3 * 1 - 1 * 1) 2))
      ∧ exists old_spot best score rest,
          FinderV2.last_recommended deal_state = Some old_spot
          ∧ FinderV2.find_top_parking 0 180 3 deal_world
            = Effects.Done ((best, score) :: rest) deal_world
          ∧ FinderV2.clock deal_world - FinderV2.last_notification_time deal_state > 10
          ∧ Geo.haversine (FinderV2.nav_lat deal_state) (FinderV2.nav_lng deal_state)
              (FinderV2.lat best) (FinderV2.lng best) > 200
          ∧ FinderV2.price_per_hour old_spot * 1 - FinderV2.price_per_hour best * 1 > 1.0.
Proof.
  split; [reflexivity |].
  destruct deal_turn as [st' Hturn].
  eexists st', _, _. split; [exact Hturn |].
  split; [reflexivity |]. split; [reflexivity |].
  destruct (C5_better_deal_notifications_throttled no_directions deal_world
              0 0 0 180 1 [] eq_refl) as [Hturns _].
  apply (Hturns deal_state st' _ 11
           (FinderV2.reroute_lines no_directions
              (FinderV2.BetterDeal (Py.round (3 * 1 - 1 * 1) 2)) dear cheap 0 0 0 180 1)
           (Py.round (3 * 1 - 1 * 1) 2) Hturn).
  - simpl. apply list_elem_of_here.
  - reflexivity.
Defined.

(** C5, where the claim fails.  Of two better deals within the cooldown
    of each other it is not always the first that is notified.  The
    cooldown is counted from [last_notification_time], which starts as
    the time the run starts.  In the run [throttle_start], started at
    clock reading 0, the turn at 8 finds a better deal and prints
    nothing, because 8 - 0 is not more than 10; the turn at 13, only 5
    later, finds the next better deal and prints the re-route, because
    13 - 0 is. *)
Lemma C5_first_event_dropped_second_notified :
  exists st8 w8 st13 w13 st18 w18 l,
    FinderV2.simulate_user_navigation no_directions 0 0 0 180 2
      (take 1 throttle_env) throttle_start = Effects.Done st8 w8
    ∧ FinderV2.clock w8 = 8
    ∧ NavigationReadings.better_deal_event 0 180 2 st8 w8
    ∧ FinderV2.simulate_user_navigation no_directions 0 0 0 180 2
        (take 2 throttle_env) throttle_start = Effects.Done st13 w13
    ∧ FinderV2.clock w13 = 13
    ∧ NavigationReadings.better_deal_event 0 180 2 st13 w13
    ∧ FinderV2.stdout w13 = FinderV2.stdout w8
    ∧ FinderV2.simulate_user_navigation no_directions 0 0 0 180 2
        throttle_env throttle_start = Effects.Done st18 w18
    ∧ FinderV2.stdout w18 = FinderV2.stdout w13 ++ [(13, l)]
    ∧ FinderV2Props.reroute_reason l
      = Some (FinderV2.BetterDeal (Py.round (2 * 2 - 1 * 2) 2)).
Proof.
  destruct ThrottleFacts.throttle_run_18 as [st18 Hrun].
  eexists _, _, _, _, _, _, _.
  split; [exact ThrottleFacts.throttle_run_8 |].
  split; [reflexivity |].
  split.
  { apply ThrottleFacts.better_deal_at_8; [done | done |].
    apply ThrottleFacts.far_on_equator; simpl; lra. }
  split; [exact ThrottleFacts.throttle_run_13 |].
  split; [reflexivity |].
  split.
  { apply ThrottleFacts.better_deal_at_13; [done | done |].
    apply ThrottleFacts.far_on_equator; simpl; lra. }
  split; [reflexivity |].
  split; [exact Hrun |].
  split; reflexivity.
Qed.

(** * Further properties of the code *)

(** ** Distances and texts *)

Section DistanceProperties.

Import Py Format Geo GeoProps FormatFacts.



(** What [format_distance] shows.  Below 1000 it shows the metres
    truncated towards zero: a whole number within 1 of the distance and
    not larger in size; for a distance that is not negative, the whole
    metres, between 0 and 999.  From 1000 on it shows kilometres with one
    decimal, at least 1.0 and within 0.05 of the distance. *)
Theorem format_distance_reads :
  forall meters : R,
    (meters < 1000 ->
       exists n, format_distance meters = Meters n
         ∧ Rabs (IZR n) <= Rabs meters ∧ Rabs (meters - IZR n) < 1
         ∧ (0 <= meters -> (0 <= n <= 999)%Z ∧ IZR n <= meters < IZR n + 1))
    ∧ (1000 <= meters ->
       exists tenths, format_distance meters = Kilometers (IZR tenths / 10)
         ∧ (10 <= tenths)%Z
         ∧ Rabs (IZR tenths / 10 - meters / 1000) <= 0.05).
Proof.
  intros meters. unfold format_distance. split; intros Hm.
  - rewrite decide_True by done. exists (int meters).
    pose proof (int_trunc meters) as (H1 & H2 & H3 & H4).
    split; [done |]. split; [done |]. split; [done |].
    intros Hpos. rewrite int_nonneg by done.
    pose proof (Int_part_bounds meters).
    split; [| done].
    pose proof (Int_part_between meters 0 1000 ltac:(simpl; lra) ltac:(simpl; lra)). lia.
  - rewrite decide_False by lra.
    exists (round_half_even (meters / 1000 * 10 ^ 1)).
    split; [unfold round; by rewrite pow_1 |].
    pose proof (round_half_even_near (meters / 1000 * 10 ^ 1)) as H.
    rewrite pow_1 in *.
    split.
    + apply round_half_even_mono_lo. lra.
    + apply Rabs_le. lra.
Qed.

(** What [format_duration] shows.  Below a minute, the seconds
    truncated; from a minute to an hour, the whole minutes, between 1 and
    59; from an hour on, the whole hours and the whole minutes left,
    between 0 and 59.  In the last two cases the text is the duration
    rounded down to the minute. *)
Theorem format_duration_reads :
  forall seconds : R,
    (seconds < 60 ->
       exists s, format_duration seconds = Seconds s
         ∧ Rabs (seconds - IZR s) < 1
         ∧ (0 <= seconds -> (0 <= s <= 59)%Z ∧ IZR s <= seconds))
    ∧ (60 <= seconds < 3600 ->
       exists m, format_duration seconds = Minutes m
         ∧ (1 <= m <= 59)%Z
         ∧ 60 * IZR m <= seconds < 60 * IZR m + 60)
    ∧ (3600 <= seconds ->
       exists h m, format_duration seconds = HoursMinutes h m
         ∧ (1 <= h)%Z ∧ (0 <= m <= 59)%Z
         ∧ 3600 * IZR h + 60 * IZR m <= seconds < 3600 * IZR h + 60 * IZR m + 60).
Proof.
  intros seconds. unfold format_duration. split; [| split].
  - intros Hs. rewrite decide_True by done. exists (int seconds).
    pose proof (int_trunc seconds) as (H1 & H2 & H3 & H4).
    split; [done |]. split; [done |].
    intros Hpos. rewrite int_nonneg by done.
    pose proof (Int_part_bounds seconds).
    pose proof (Int_part_between seconds 0 60 ltac:(simpl; lra) ltac:(simpl; lra)).
    split; [lia | lra].
  - intros [Hlo Hhi]. rewrite decide_False by lra. rewrite decide_True by done.
    exists (int (seconds / 60)). split; [done |].
    rewrite int_nonneg by lra.
    pose proof (Int_part_bounds (seconds / 60)).
    pose proof (Int_part_between (seconds / 60) 1 60 ltac:(simpl; lra) ltac:(simpl; lra)).
    split; [lia | lra].
  - intros Hs. rewrite decide_False by lra. rewrite decide_False by lra.
    exists (int (seconds / 3600)), (int (fmod seconds 3600 / 60)).
    split; [done |].
    pose proof (fmod_bounds seconds 3600 ltac:(lra)) as Hmod.
    rewrite !int_nonneg by lra.
    pose proof (Int_part_bounds (seconds / 3600)).
    pose proof (Int_part_between (seconds / 3600) 1 (Int_part (seconds / 3600) + 1)
                  ltac:(simpl; lra) ltac:(rewrite plus_IZR; lra)).
    pose proof (Int_part_bounds (fmod seconds 3600 / 60)).
    pose proof (Int_part_between (fmod seconds 3600 / 60) 0 60
                  ltac:(simpl; lra) ltac:(simpl; lra)).
    split; [lia |]. split; [lia |].
    unfold fmod in *. lra.
Qed.

End DistanceProperties.

(** ** Recommendations of realtime_parking_system.py *)

Section RealtimeProperties.

Import Py Format Geo Effects Realtime RealtimeProps Outcomes RealtimeReadings.
Import EffectsFacts RealtimeFacts DispatchFacts.

Lemma zone_at_start_listed : zone_at_start ∈ parking_spots (initial_world 0).
Proof. simpl. do 3 apply list_elem_of_further. apply list_elem_of_here. Qed.

(** [find_best_garage], called with the lock free, returns no garage
    (and the distances 0, 0) exactly when no garage of the catalog has a
    free place.  Otherwise it returns a garage of the catalog that has a
    free place, with its drive and walk distances for the trip, and no
    garage with a free place has a lower score. *)
Theorem find_best_garage_scores_lowest :
  forall (w : world) (user_lat user_lng dest_lat dest_lng : R) (username : option string),
    parking_lock w = false ->
    let price_weight := price_weight_of (users_db w) username in
    exists best drive walk,
      find_best_garage user_lat user_lng dest_lat dest_lng username w
        = Done (best, drive, walk) w
      ∧ match best with
        | None =>
            drive = 0 ∧ walk = 0
            ∧ forall g, g ∈ parking_spots w -> (available_spots g <= 0)%Z
        | Some g =>
            g ∈ parking_spots w ∧ (0 < available_spots g)%Z
            ∧ drive = haversine user_lat user_lng (lat g) (lng g)
            ∧ walk = haversine (lat g) (lng g) dest_lat dest_lng
            ∧ forall g', g' ∈ parking_spots w -> (0 < available_spots g')%Z ->
                (score_parking g user_lat user_lng dest_lat dest_lng price_weight).1.1
                <= (score_parking g' user_lat user_lng dest_lat dest_lng price_weight).1.1
        end.
Proof.
  intros w user_lat user_lng dest_lat dest_lng username Hw. cbv zeta.
  rewrite find_best_garage_free by done. rewrite best_garage_of_head.
  destruct (head _) as [[[[s g] d] k] |] eqn:Hhead.
  - exists (Some g), d, k. split; [done |].
    apply RankingFacts.head_sort_by_min in Hhead as [Hin Hmin].
    unfold scored_candidates in Hin, Hmin.
    apply list_elem_of_fmap in Hin as (g0 & Heq & Hg0).
    symmetry in Heq. apply scored_entry_parts in Heq as (-> & -> & -> & ->).
    apply available_garages_spec in Hg0 as [Hg Hpos].
    split; [done |]. split; [done |]. split; [done |]. split; [done |].
    intros g' Hg' Hpos'.
    specialize (Hmin (scored_entry user_lat user_lng dest_lat dest_lng
                        (price_weight_of (users_db w) username) g')).
    rewrite entry_score_scored in Hmin. apply Hmin.
    apply list_elem_of_fmap. exists g'. split; [done |].
    by apply available_garages_spec.
  - exists None, 0, 0. split; [done |]. split; [done |]. split; [done |].
    apply RankingFacts.head_sort_by_none in Hhead.
    apply fmap_nil_inv in Hhead.
    intros g Hg. destruct (decide (0 < available_spots g)%Z) as [Hpos |]; [| lia].
    assert (g ∈ available_garages (parking_spots w)) as Hin
      by by apply available_garages_spec.
    rewrite Hhead in Hin. by apply elem_of_nil in Hin.
Qed.

Lemma find_best_garage_scores_lowest_witness :
  exists best drive walk,
    find_best_garage scenario_user_lat scenario_user_lng
      scenario_dest_lat scenario_dest_lng None (initial_world 0)
    = Done (best, drive, walk) (initial_world 0).
Proof.
  destruct (find_best_garage_scores_lowest (initial_world 0)
              scenario_user_lat scenario_user_lng scenario_dest_lat scenario_dest_lng
              None eq_refl) as (best & drive & walk & Hbest & _).
  by exists best, drive, walk.
Defined.

(** The answer to a request that is served.  The garage that
    [find_best_garage] picks is the first entry of the list of
    [find_top_garages], with the same distances, so the alternatives of
    the answer, built from [top_garages[1:]], are the entries after the
    best: at most two, each a garage of the catalog with a free place,
    none with a lower score than the best. *)
Theorem parking_request_answer_follows_ranking :
  forall (float_of_str : string -> option R) (session_id : string)
         (username : option string) (data : gmap string pyval) (w : world)
         (user_lat user_lng dest_lat dest_lng duration : R) (g : garage),
    parking_lock w = false ->
    parse_request float_of_str data
      = inr (user_lat, user_lng, dest_lat, dest_lng, duration) ->
    g ∈ parking_spots w -> (0 < available_spots g)%Z ->
    exists best score drive walk rest w',
      find_top_garages user_lat user_lng dest_lat dest_lng username 3 w
        = Done ((score, best, drive, walk) :: rest) w
      ∧ find_best_garage user_lat user_lng dest_lat dest_lng username w
        = Done (Some best, drive, walk) w
      ∧ handle_parking_request float_of_str session_id username data w = Done () w'
      ∧ outbox w'
        = outbox w
          ++ [(session_id,
               ParkingRecommendation
                 (best_parking_of best drive walk duration)
                 (alternative_of (price_per_hour best * duration) walk duration <$> rest)
                 (clock w))]
      ∧ (length rest <= 2)%nat
      ∧ forall x, x ∈ rest ->
          score <= entry_score x
          ∧ entry_garage x ∈ parking_spots w
          ∧ (0 < available_spots (entry_garage x))%Z.
Proof.
  intros float_of_str session_id username data w user_lat user_lng dest_lat dest_lng
    duration g Hw Hparse Hg Hpos.
  pose proof (best_garage_of_some w user_lat user_lng dest_lat dest_lng username g Hg Hpos)
    as [best Hbest].
  destruct (best_garage_of w user_lat user_lng dest_lat dest_lng username)
    as [[b drive] walk] eqn:Hbg.
  simpl in Hbest. subst b.
  destruct (best_garage_of_top w user_lat user_lng dest_lat dest_lng username 3
              best drive walk ltac:(lia) Hbg) as (score & rest & Htop).
  exists best, score, drive, walk, rest. eexists.
  split; [by rewrite find_top_garages_free, Htop |].
  split; [by rewrite find_best_garage_free, Hbg |].
  split.
  { rewrite (handle_parking_request_valid _ _ _ _ _ _ _ _ _ _ Hw Hparse).
    rewrite Hbg. cbv zeta. rewrite Htop. reflexivity. }
  split; [done |].
  pose proof (PyFacts.slice_sort_spec entry_score 3
                (scored_candidates (parking_spots w) user_lat user_lng dest_lat dest_lng
                   (price_weight_of (users_db w) username))) as Hspec.
  cbv zeta in Hspec. fold (top_garages w user_lat user_lng dest_lat dest_lng username 3)
    in Hspec.
  rewrite Htop in Hspec. destruct Hspec as (Hsorted & _ & Hlen & _).
  split; [specialize (Hlen ltac:(lia)); simpl in Hlen; lia |].
  intros x Hx. split.
  - apply list_elem_of_lookup in Hx as [i Hi].
    apply (Hsorted 0%nat (S i) (score, best, drive, walk) x); [lia | done | done].
  - eapply scored_candidates_available.
    eapply (top_garages_candidates w _ _ _ _ username 3).
    rewrite Htop. by apply list_elem_of_further.
Qed.

Lemma parking_request_answer_follows_ranking_witness :
  exists best score drive walk rest,
    find_top_garages scenario_user_lat scenario_user_lng
      scenario_dest_lat scenario_dest_lng None 3 (initial_world 0)
    = Done ((score, best, drive, walk) :: rest) (initial_world 0)
    ∧ find_best_garage scenario_user_lat scenario_user_lng
        scenario_dest_lat scenario_dest_lng None (initial_world 0)
      = Done (Some best, drive, walk) (initial_world 0)
    ∧ (length rest <= 2)%nat.
Proof.
  destruct (parking_request_answer_follows_ranking (λ _, None) "s1" None
              no_duration_request (initial_world 0)
              scenario_user_lat scenario_user_lng scenario_dest_lat scenario_dest_lng 1
              zone_at_start)
    as (best & score & drive & walk & rest & w' & Htop & Hbest & _ & _ & Hlen & _).
  - reflexivity.
  - reflexivity.
  - apply zone_at_start_listed.
  - simpl. lia.
  - by exists best, score, drive, walk, rest.
Defined.

(** When a tick of [simulate_spots] returns.  Call a tick filling
    when its change brings a garage that had places down to 0 while an
    entry of the ledger, not older than 300, is bound to that garage.  A
    tick that is not filling returns: every garage has its count
    adjusted, the warnings of the garages that went below 5 are sent in
    catalog order, and the lock is free again.  A filling tick never
    returns: it stops with the lock held, the ledger as it was, and
    nothing but warnings sent. *)
Theorem simulate_spots_tick_returns_unless_filled :
  forall (changes : nat -> Z) (w : world),
    parking_lock w = false ->
    let filled :=
      exists i g entry,
        parking_spots w !! i = Some g
        ∧ available_spots g ≠ 0%Z ∧ adjusted g (changes i) = 0%Z
        ∧ entry ∈ user_recommendations w
        ∧ ¬ (clock w - timestamp entry.2 > 300)
        ∧ garage_name entry.2 = name g in
    (¬ filled ->
       simulate_spots_tick changes w
       = Done () (with_outbox
                    (outbox w ++ tick_warnings (clock w) (user_recommendations w)
                                   changes 0 (parking_spots w))
                    (with_parking_spots (tick_spots changes 0 (parking_spots w)) w)))
    ∧ (filled ->
       exists w',
         simulate_spots_tick changes w = Blocked w'
         ∧ parking_lock w' = true
         ∧ user_recommendations w' = user_recommendations w
         ∧ take (length (outbox w)) (outbox w') = outbox w
         ∧ Forall (λ m, exists n k, m.2 = WarningNotification n k)
             (drop (length (outbox w)) (outbox w'))).
Proof.
  intros changes w Hw. cbv zeta. split.
  - intros Hnot.
    unfold simulate_spots_tick, with_lock. simpl. rewrite Hw.
    unfold mbind at 1, M_bind at 1, gets. simpl.
    rewrite (tick_loop_returns changes (parking_spots w) 0).
    + simpl. f_equal. destruct w; simpl in *. by subst.
    + done.
    + intros j g Hj (Hpos & Hfull & Hex). apply Hnot.
      apply Exists_exists in Hex as (entry & Hin & Hfresh & Hbound).
      by exists j, g, entry.
  - intros (i & g & entry & Hg & Hpos & Hfull & Hin & Hfresh & Hbound).
    unfold simulate_spots_tick, with_lock. simpl. rewrite Hw.
    unfold mbind at 1, M_bind at 1, gets. simpl.
    destruct (tick_loop_blocks changes (parking_spots w) 0
                (with_parking_lock_held true w))
      as (w' & Hrun & Hlock & Hledger & _ & _ & Hout & Hold); [done | done | |].
    + exists i, g. split; [done |]. split; [done |]. split; [done |].
      apply Exists_exists. exists entry. by split.
    + simpl in Hrun. rewrite Hrun. by exists w'.
Qed.

Lemma simulate_spots_tick_returns_unless_filled_witness :
  simulate_spots_tick (λ _, 0%Z) (initial_world 0) = Done () (initial_world 0).
Proof.
  destruct (simulate_spots_tick_returns_unless_filled (λ _, 0%Z)
              (initial_world 0) eq_refl) as [Hreturns _].
  rewrite Hreturns.
  - reflexivity.
  - intros (i & g & entry & _ & _ & _ & Hin & _). by apply elem_of_nil in Hin.
Defined.

(** After a filling tick the lock is never released.  In the state
    it leaves, a request whose fields convert waits for the lock in
    [find_best_garage] and gets no answer; only a request that is
    rejected for its fields, which does not take the lock, is still
    answered. *)
Theorem requests_wait_once_simulator_blocked :
  forall (float_of_str : string -> option R) (changes : nat -> Z) (w : world)
         (i : nat) (g : garage) (entry : string * recommendation),
    parking_lock w = false ->
    parking_spots w !! i = Some g ->
    available_spots g ≠ 0%Z -> adjusted g (changes i) = 0%Z ->
    entry ∈ user_recommendations w ->
    ¬ (clock w - timestamp entry.2 > 300) ->
    garage_name entry.2 = name g ->
    exists w',
      simulate_spots_tick changes w = Blocked w'
      ∧ (forall session_id username data trip,
           parse_request float_of_str data = inr trip ->
           handle_parking_request float_of_str session_id username data w' = Blocked w')
      ∧ (forall session_id username data e,
           parse_request float_of_str data = inl e ->
           handle_parking_request float_of_str session_id username data w'
           = Done () (with_outbox (outbox w' ++ [(session_id, invalid_message)]) w')).
Proof.
  intros float_of_str changes w i g entry Hw Hg Hpos Hfull Hin Hfresh Hbound.
  unfold simulate_spots_tick at 1, with_lock. simpl. rewrite Hw.
  unfold mbind at 1, M_bind at 1, gets. simpl.
  destruct (tick_loop_blocks changes (parking_spots w) 0
              (with_parking_lock_held true w))
    as (w' & Hrun & Hlock & _); [done | done | |].
  { exists i, g. split; [done |]. split; [done |]. split; [done |].
    apply Exists_exists. exists entry. by split. }
  simpl in Hrun. rewrite Hrun. exists w'. split; [done |].
  split.
  - intros session_id username data trip Hparse.
    by eapply handle_parking_request_held.
  - intros session_id username data e Hparse.
    by eapply handle_parking_request_invalid.
Qed.

Lemma requests_wait_once_simulator_blocked_witness :
  exists w',
    simulate_spots_tick zone_changes zone_world = Blocked w'
    ∧ handle_parking_request (λ _, None) "s2" None no_duration_request w' = Blocked w'.
Proof.
  destruct (requests_wait_once_simulator_blocked (λ _, None) zone_changes zone_world
              3 zone ("s1"%string, zone_entry))
    as (w' & Htick & Hwait & _).
  - reflexivity.
  - reflexivity.
  - discriminate.
  - reflexivity.
  - constructor.
  - simpl. lra.
  - reflexivity.
  - exists w'. split; [exact Htick |].
    apply (Hwait "s2"%string None no_duration_request
             (scenario_user_lat, scenario_user_lng, scenario_dest_lat, scenario_dest_lng, 1)).
    reflexivity.
Defined.

(** [handle_disconnect] removes the entry of the session from the
    ledger and nothing else: the entries of the other sessions, the
    catalog and what was sent stay, and for a session without an entry
    the state is unchanged.  Afterwards a change of a garage that is not
    full sends no warning to that session. *)
Theorem handle_disconnect_forgets_session :
  forall (session_id : string) (w : world),
    exists w',
      handle_disconnect session_id w = Done () w'
      ∧ ledger_get session_id (user_recommendations w') = None
      ∧ (forall other, other ≠ session_id ->
           ledger_get other (user_recommendations w')
           = ledger_get other (user_recommendations w))
      ∧ (ledger_get session_id (user_recommendations w) = None -> w' = w)
      ∧ parking_spots w' = parking_spots w
      ∧ outbox w' = outbox w
      ∧ forall changed_garage old_available,
          available_spots changed_garage ≠ 0%Z ->
          exists w'',
            check_user_recommendations changed_garage old_available w' = Done () w''
            ∧ forall m, m ∈ drop (length (outbox w')) (outbox w'') -> m.1 ≠ session_id.
Proof.
  intros session_id w. eexists. split; [reflexivity |]. simpl.
  split; [apply ledger_get_del_eq |].
  split; [intros other Hne; by apply ledger_get_del_ne |].
  split; [intros Hnone; rewrite ledger_del_absent by done; by destruct w |].
  split; [done |]. split; [done |].
  intros changed_garage old_available Hnot.
  rewrite check_user_recommendations_not_full by done.
  eexists. split; [reflexivity |]. simpl.
  rewrite drop_app_length. intros m Hm. unfold warnings in Hm.
  case_decide; [| by apply elem_of_nil in Hm].
  apply list_elem_of_fmap in Hm as ([k v] & -> & Hin). simpl.
  apply list_elem_of_filter in Hin as [_ Hin].
  by eapply ledger_del_elem.
Qed.

(** The ledger holds at most one entry for a session.  A request
    replaces the entry of its session or adds one, never a second one; a
    re-route rewrites an entry in place; a disconnect removes one.  This
    holds however the call ends. *)
Theorem ledger_one_entry_per_session :
  forall (float_of_str : string -> option R) (session_id : string)
         (username : option string) (data : gmap string pyval)
         (old_rec : recommendation) (reason : string) (w : world),
    NoDup (user_recommendations w).*1 ->
    let after_request :=
      final (handle_parking_request float_of_str session_id username data w) in
    NoDup (user_recommendations after_request).*1
    ∧ (is_Some (ledger_get session_id (user_recommendations w)) ->
       length (user_recommendations after_request) = length (user_recommendations w))
    ∧ (length (user_recommendations after_request)
       <= S (length (user_recommendations w)))%nat
    ∧ NoDup (user_recommendations
               (final (send_reroute_notification session_id old_rec reason w))).*1
    ∧ length (user_recommendations
                (final (send_reroute_notification session_id old_rec reason w)))
      = length (user_recommendations w)
    ∧ NoDup (user_recommendations (final (handle_disconnect session_id w))).*1.
Proof.
  intros float_of_str session_id username data old_rec reason w Hnd. cbv zeta.
  assert (forall rec,
            is_Some (ledger_get session_id (user_recommendations w)) ->
            length (ledger_set session_id rec (user_recommendations w))
            = length (user_recommendations w)) as Hsame.
  { intros rec Hsome. rewrite ledger_set_length. case_decide as Hin; [done |].
    apply ledger_get_None in Hin. rewrite Hin in Hsome. by destruct Hsome. }
  assert (forall rec,
            (length (ledger_set session_id rec (user_recommendations w))
             <= S (length (user_recommendations w)))%nat) as Hle.
  { intros rec. rewrite ledger_set_length. case_decide; lia. }
  assert (NoDup (user_recommendations
                   (final (handle_parking_request float_of_str session_id username data w))).*1
          ∧ (is_Some (ledger_get session_id (user_recommendations w)) ->
             length (user_recommendations
                       (final (handle_parking_request float_of_str session_id
                                 username data w)))
             = length (user_recommendations w))
          ∧ (length (user_recommendations
                       (final (handle_parking_request float_of_str session_id
                                 username data w)))
             <= S (length (user_recommendations w)))%nat) as (H1 & H2 & H3).
  { destruct (parse_request float_of_str data) as [e | [[[[a b] c] d] t]] eqn:Hparse.
    - rewrite (handle_parking_request_invalid _ _ _ _ _ _ Hparse). simpl.
      split; [done |]. split; [done | lia].
    - destruct (parking_lock w) eqn:Hlock.
      + rewrite (handle_parking_request_held _ _ _ _ _ _ Hlock Hparse). simpl.
        split; [done |]. split; [done | lia].
      + rewrite (handle_parking_request_valid _ _ _ _ _ _ _ _ _ _ Hlock Hparse).
        destruct (best_garage_of w a b c d username) as [[[best |] drive] walk]; simpl.
        * split; [by apply ledger_set_NoDup |]. split; [apply Hsame | apply Hle].
        * split; [done |]. split; [done | lia]. }
  split; [done |]. split; [done |]. split; [done |].
  assert (NoDup (user_recommendations
                   (final (send_reroute_notification session_id old_rec reason w))).*1
          ∧ length (user_recommendations
                      (final (send_reroute_notification session_id old_rec reason w)))
            = length (user_recommendations w)) as [H4 H5].
  { destruct (parking_lock w) eqn:Hlock.
    - by rewrite send_reroute_notification_held.
    - rewrite send_reroute_notification_free by done.
      destruct (best_garage_of w _ _ _ _ _) as [[[new_garage |] drive] walk]; [| done].
      destruct (garage_named _ _); [| done]. cbv zeta.
      destruct (ledger_get session_id (user_recommendations w)) eqn:Hget; [| done].
      simpl. split; [by apply ledger_set_NoDup |]. by apply Hsame. }
  split; [done |]. split; [done |].
  simpl. rewrite ledger_del_keys. by apply NoDup_filter.
Qed.

Lemma ledger_one_entry_per_session_witness :
  NoDup (user_recommendations
           (final (handle_parking_request (λ _, None) "s1" None
                     no_duration_request (initial_world 0)))).*1.
Proof.
  apply (ledger_one_entry_per_session (λ _, None) "s1" None no_duration_request
           zone_entry "full" (initial_world 0)).
  simpl. apply NoDup_nil_2.
Defined.

End RealtimeProperties.

(** ** Accounts of realtime_parking_system.py *)

Section AccountProperties.

Import Py Format Geo Effects Realtime RealtimeProps Outcomes RealtimeReadings.
Import AccountFacts.

(** Registering and logging in.  If [check_password_hash] accepts
    the hashes that [generate_password_hash] makes, then registering a
    name (not empty, not taken) with a password (not empty) answers 201,
    and a login with that name and password then answers 200 and stores
    the name in the session; the new account has the weight 0.3, and the
    other accounts are as before. *)
Theorem register_then_login :
  forall (generate_password_hash : string -> string -> string)
         (check_password_hash : string -> string -> bool)
         (salt u p : string) (session : option string) (w : world),
    (forall password s,
       check_password_hash (generate_password_hash password s) password = true) ->
    u ≠ ""%string -> p ≠ ""%string ->
    users_db w !! u = None ->
    exists w1,
      register generate_password_hash salt (Some u) (Some p) w
        = Done (Response 201 (MessageBody "User registered successfully" (Some u))) w1
      ∧ login check_password_hash session (Some u) (Some p) w1
        = Done (Response 200 (MessageBody "Login successful" (Some u)), Some u) w1
      ∧ preferences GET (Some u) ∅ w1 = Done (Response 200 (PreferencesBody 0.3)) w1
      ∧ price_weight_of (users_db w1) (Some u) = 0.3
      ∧ forall v, v ≠ u -> users_db w1 !! v = users_db w !! v.
Proof.
  intros generate_password_hash check_password_hash salt u p session w
    Hhash Hu Hp Hfresh.
  eexists. split; [| split; [| split; [| split]]].
  - unfold register. rewrite !nonempty_of by done.
    unfold mbind, M_bind, gets, modify, mret, M_ret. rewrite Hfresh. reflexivity.
  - unfold login. rewrite !nonempty_of by done.
    unfold mbind, M_bind, gets, mret, M_ret. simpl.
    rewrite lookup_insert_eq. simpl. by rewrite Hhash.
  - unfold preferences. rewrite nonempty_of by done.
    unfold mbind, M_bind, gets, mret, M_ret. simpl.
    by rewrite lookup_insert_eq.
  - simpl. rewrite decide_False by done. by rewrite lookup_insert_eq.
  - intros v Hv. simpl. by rewrite lookup_insert_ne.
Qed.

Lemma register_then_login_witness :
  exists w1,
    register plain_hash "salt" (Some "alice"%string) (Some "secret"%string)
      (initial_world 0)
    = Done (Response 201 (MessageBody "User registered successfully"
                            (Some "alice"%string))) w1
    ∧ login plain_check None (Some "alice"%string) (Some "secret"%string) w1
      = Done (Response 200 (MessageBody "Login successful" (Some "alice"%string)),
              Some "alice"%string) w1.
Proof.
  destruct (register_then_login plain_hash plain_check "salt" "alice" "secret"
              None (initial_world 0)) as (w1 & Hregister & Hlogin & _).
  - intros password s. unfold plain_check, plain_hash. by apply bool_decide_eq_true.
  - discriminate.
  - discriminate.
  - reflexivity.
  - by exists w1.
Defined.

(** [register] never touches an existing account.  It answers 201
    and adds one account, for a name that had none, or it answers 400 and
    changes nothing: when the name or the password is missing or empty,
    or the name is taken. *)
Theorem register_keeps_accounts :
  forall (generate_password_hash : string -> string -> string)
         (salt : string) (username password : option string) (w : world),
    exists status body w',
      register generate_password_hash salt username password w
        = Done (Response status body) w'
      ∧ (forall v account, users_db w !! v = Some account ->
           users_db w' !! v = Some account)
      ∧ ((status = 201%Z
          ∧ exists u p,
              username = Some u ∧ password = Some p
              ∧ u ≠ ""%string ∧ p ≠ ""%string
              ∧ users_db w !! u = None
              ∧ w' = with_users_db
                       (<[u := {| password_hash := generate_password_hash p salt;
                                  price_weight := Some 0.3 |}]> (users_db w)) w)
         ∨ (status = 400%Z ∧ w' = w
            ∧ (nonempty username = None ∨ nonempty password = None
               ∨ exists u, username = Some u ∧ is_Some (users_db w !! u)))).
Proof.
  intros generate_password_hash salt username password w.
  unfold register.
  destruct (nonempty username) as [u |] eqn:Hu.
  2:{ eexists _, _, _. split; [reflexivity |]. split; [done |]. right. by eauto. }
  destruct (nonempty password) as [p |] eqn:Hp.
  2:{ eexists _, _, _. split; [reflexivity |]. split; [done |]. right. by eauto. }
  apply nonempty_Some in Hu as [-> Hu]. apply nonempty_Some in Hp as [-> Hp].
  unfold mbind, M_bind, gets, modify, mret, M_ret.
  destruct (users_db w !! u) as [account |] eqn:Hdb.
  - eexists _, _, _. split; [reflexivity |]. split; [done |]. right.
    split; [done |]. split; [done |]. right. right. exists u. by rewrite Hdb.
  - eexists _, _, _. split; [reflexivity |]. split.
    + intros v account Hv. simpl. rewrite lookup_insert_ne; [done |].
      intros <-. by rewrite Hdb in Hv.
    + left. split; [done |]. by exists u, p.
Qed.

(** [login] changes the session only when it answers 200, and it
    answers 200 only for a name that has an account whose hash
    [check_password_hash] accepts with the password given.  Otherwise it
    answers 400 or 401 and the session is as before.  The state of the
    server is never changed. *)
Theorem login_sound :
  forall (check_password_hash : string -> string -> bool)
         (session username password : option string) (w : world),
    exists status body session',
      login check_password_hash session username password w
        = Done (Response status body, session') w
      ∧ ((status = 200%Z
          ∧ exists u p account,
              username = Some u ∧ password = Some p
              ∧ u ≠ ""%string ∧ p ≠ ""%string
              ∧ users_db w !! u = Some account
              ∧ check_password_hash (password_hash account) p = true
              ∧ session' = Some u)
         ∨ ((status = 400%Z ∨ status = 401%Z) ∧ session' = session
            ∧ forall u p account,
                username = Some u -> password = Some p ->
                u ≠ ""%string -> p ≠ ""%string ->
                users_db w !! u = Some account ->
                check_password_hash (password_hash account) p = false)).
Proof.
  intros check_password_hash session username password w.
  unfold login.
  destruct (nonempty username) as [u |] eqn:Hu.
  2:{ eexists _, _, _. split; [reflexivity |]. right.
      split; [by left |]. split; [done |].
      intros u p account -> _ Hne _ _.
      rewrite nonempty_of in Hu by done. done. }
  destruct (nonempty password) as [p |] eqn:Hp.
  2:{ eexists _, _, _. split; [reflexivity |]. right.
      split; [by left |]. split; [done |].
      intros u' p account _ -> _ Hne _.
      rewrite nonempty_of in Hp by done. done. }
  apply nonempty_Some in Hu as [-> Hu]. apply nonempty_Some in Hp as [-> Hp].
  unfold mbind, M_bind, gets, mret, M_ret.
  destruct (users_db w !! u) as [account |] eqn:Hdb.
  - destruct (check_password_hash (password_hash account) p) eqn:Hcheck.
    + eexists _, _, _. split; [reflexivity |]. left.
      split; [done |]. by exists u, p, account.
    + eexists _, _, _. split; [reflexivity |]. right.
      split; [by right |]. split; [done |].
      intros u' p' account' Heq1 Heq2 _ _ Hdb'. by simplify_eq.
  - eexists _, _, _. split; [reflexivity |]. right.
    split; [by right |]. split; [done |].
    intros u' p' account' Heq1 Heq2 _ _ Hdb'. by simplify_eq.
Qed.

(** Storing a preference and reading it back.  For a user who is
    logged in and has an account, a POST with the number [x] (0.3 when the
    key is missing) stores [x] clamped to the interval from 0 to 1, which
    is [x] itself when it is in the interval; a GET then returns that
    weight, and it is the weight the scorer uses for this user.  The
    password hash and the other accounts are as before. *)
Theorem preferences_round_trip :
  forall (u : string) (account : user) (x : R) (data : gmap string pyval) (w : world),
    u ≠ ""%string ->
    users_db w !! u = Some account ->
    get_or data "price_weight" (PyNum 0.3) = PyNum x ->
    exists w1,
      preferences POST (Some u) data w
        = Done (Response 200 (MessageBody "Preferences updated" None)) w1
      ∧ preferences GET (Some u) ∅ w1
        = Done (Response 200 (PreferencesBody (Rmax 0 (Rmin 1 x)))) w1
      ∧ price_weight_of (users_db w1) (Some u) = Rmax 0 (Rmin 1 x)
      ∧ 0 <= Rmax 0 (Rmin 1 x) <= 1
      ∧ (0 <= x <= 1 -> Rmax 0 (Rmin 1 x) = x)
      ∧ (exists account1,
           users_db w1 !! u = Some account1
           ∧ password_hash account1 = password_hash account)
      ∧ forall v, v ≠ u -> users_db w1 !! v = users_db w !! v.
Proof.
  intros u account x data w Hu Hdb Hdata.
  eexists. split; [| split; [| split; [| split; [| split; [| split]]]]].
  - unfold preferences. rewrite nonempty_of by done. rewrite Hdata.
    unfold max_0_min_1, number_of. simpl.
    unfold mbind, M_bind, gets, modify, mret, M_ret. rewrite Hdb. reflexivity.
  - unfold preferences. rewrite nonempty_of by done.
    unfold mbind, M_bind, gets, mret, M_ret. simpl.
    by rewrite lookup_insert_eq.
  - simpl. rewrite decide_False by done. by rewrite lookup_insert_eq.
  - apply max_0_min_1_range.
  - apply max_0_min_1_id.
  - simpl. rewrite lookup_insert_eq. by eexists.
  - intros v Hv. simpl. by rewrite lookup_insert_ne.
Qed.

Lemma preferences_round_trip_witness :
  exists w1,
    preferences POST (Some "alice"%string) eager_weight alice_world
    = Done (Response 200 (MessageBody "Preferences updated" None)) w1
    ∧ preferences GET (Some "alice"%string) ∅ w1
      = Done (Response 200 (PreferencesBody (Rmax 0 (Rmin 1 2)))) w1.
Proof.
  destruct (preferences_round_trip "alice" alice 2 eager_weight alice_world)
    as (w1 & Hpost & Hget & _).
  - discriminate.
  - reflexivity.
  - reflexivity.
  - by exists w1.
Defined.

(** No weight outside the interval from 0 to 1 is ever stored: if
    every stored weight is in the interval, it is so after [register] and
    after [preferences], however they end; and then the weight that the
    scorer uses is in the interval for every session. *)
Theorem stored_weights_in_unit_interval :
  forall (generate_password_hash : string -> string -> string)
         (salt : string) (username password session : option string)
         (method : http_method) (data : gmap string pyval) (w : world),
    weights_in_range (users_db w) ->
    weights_in_range
      (users_db (final (register generate_password_hash salt username password w)))
    ∧ weights_in_range (users_db (final (preferences method session data w)))
    ∧ forall who, 0 <= price_weight_of (users_db w) who <= 1.
Proof.
  intros generate_password_hash salt username password session method data w Hw.
  split; [| split].
  - unfold register.
    destruct (nonempty username) as [u |]; [| done].
    destruct (nonempty password) as [p |]; [| done].
    unfold mbind, M_bind, gets, modify, mret, M_ret.
    destruct (users_db w !! u); [done |]. simpl.
    apply weights_insert; [done |]. simpl. intros x Hx. simplify_eq. lra.
  - unfold preferences.
    destruct (nonempty session) as [u |]; [| done].
    destruct method.
    + unfold mbind, M_bind, gets, mret, M_ret.
      by destruct (users_db w !! u).
    + destruct (max_0_min_1 _) as [e | v] eqn:Hv; [done |].
      unfold mbind, M_bind, gets, modify, mret, M_ret.
      destruct (users_db w !! u); [| done]. simpl.
      apply weights_insert; [done |]. simpl. intros x Hx. simplify_eq.
      by eapply max_0_min_1_inr.
  - intros who. unfold price_weight_of.
    destruct who as [u |]; [| lra].
    case_decide; [lra |].
    destruct (users_db w !! u) as [account |] eqn:Hdb; [| lra].
    destruct (price_weight account) as [x |] eqn:Hx; simpl; [| lra].
    by eapply Hw.
Qed.

Lemma stored_weights_in_unit_interval_witness :
  weights_in_range
    (users_db (final (preferences POST (Some "alice"%string) eager_weight alice_world))).
Proof.
  apply (stored_weights_in_unit_interval plain_hash "salt" None None
           (Some "alice"%string) POST eager_weight alice_world).
  intros u account x Hu Hx. simpl in Hu.
  apply lookup_singleton_Some in Hu as [_ <-]. simpl in Hx.
  injection Hx as <-. lra.
Defined.

(** What [preferences] leaves alone, and how it fails.  However the
    call ends, no account is created or removed, every password hash is
    as before, an account other than that of the session is unchanged,
    and nothing but [users_db] changes.  Without a name in the session
    the answer is 401.  For a session whose name has no account the
    handler raises [KeyError]; for a POST whose weight is [null], a text,
    a list or an object it raises [TypeError]; the state is unchanged in
    both cases. *)
Theorem preferences_changes_one_weight :
  forall (method : http_method) (session : option string)
         (data : gmap string pyval) (w : world),
    let outcome := preferences method session data w in
    (forall v account, users_db w !! v = Some account ->
       exists account',
         users_db (final outcome) !! v = Some account'
         ∧ password_hash account' = password_hash account
         ∧ (session ≠ Some v ∨ method = GET ->
            account' = account))
    ∧ (forall v, users_db w !! v = None -> users_db (final outcome) !! v = None)
    ∧ with_users_db (users_db w) (final outcome) = w
    ∧ (nonempty session = None ->
       outcome = Done (Response 401 (ErrorBody "Not logged in")) w)
    ∧ (forall u, nonempty session = Some u -> users_db w !! u = None ->
       method = GET
       ∨ (exists x, max_0_min_1 (get_or data "price_weight" (PyNum 0.3)) = inr x) ->
       outcome = Raised (KeyError u) w)
    ∧ (forall u, nonempty session = Some u -> method = POST ->
       get_or data "price_weight" (PyNum 0.3) = PyNone
       ∨ (exists s, get_or data "price_weight" (PyNum 0.3) = PyStr s)
       ∨ get_or data "price_weight" (PyNum 0.3) = PyContainer ->
       outcome = Raised TypeError w).
Proof.
  intros method session data w. cbv zeta.
  split; [| split; [| split; [| split; [| split]]]].
  - intros v account Hv. unfold preferences.
    destruct (nonempty session) as [u |] eqn:Hu; [| by exists account].
    apply nonempty_Some in Hu as [-> Hu].
    destruct method.
    + unfold mbind, M_bind, gets, mret, M_ret.
      destruct (users_db w !! u); by exists account.
    + destruct (max_0_min_1 _) as [e | x]; [by exists account |].
      unfold mbind, M_bind, gets, modify, mret, M_ret.
      destruct (users_db w !! u) as [mine |] eqn:Hmine; [| by exists account]. simpl.
      destruct (decide (v = u)) as [-> | Hne].
      * rewrite lookup_insert_eq. eexists. split; [done |]. simplify_eq.
        split; [done |]. by intros [? | ?].
      * rewrite lookup_insert_ne by done. by exists account.
  - intros v Hv. unfold preferences.
    destruct (nonempty session) as [u |] eqn:Hu; [| done].
    destruct method.
    + unfold mbind, M_bind, gets, mret, M_ret. by destruct (users_db w !! u).
    + destruct (max_0_min_1 _) as [e | x]; [done |].
      unfold mbind, M_bind, gets, modify, mret, M_ret.
      destruct (users_db w !! u) as [mine |] eqn:Hmine; [| done]. simpl.
      rewrite lookup_insert_ne; [done |]. intros <-. by rewrite Hv in Hmine.
  - unfold preferences.
    destruct (nonempty session) as [u |] eqn:Hu; [| by destruct w].
    destruct method.
    + unfold mbind, M_bind, gets, mret, M_ret.
      destruct (users_db w !! u); by destruct w.
    + destruct (max_0_min_1 _) as [e | x]; [by destruct w |].
      unfold mbind, M_bind, gets, modify, mret, M_ret.
      destruct (users_db w !! u) as [mine |]; by destruct w.
  - intros Hu. unfold preferences. by rewrite Hu.
  - intros u Hu Hdb Hcase. unfold preferences. rewrite Hu.
    unfold mbind, M_bind, gets, raise.
    destruct method; [by rewrite Hdb |].
    destruct Hcase as [? | [x Hx]]; [done |].
    rewrite Hx. by rewrite Hdb.
  - intros u Hu -> Hbad. unfold preferences. rewrite Hu.
    by destruct Hbad as [-> | [[s ->] | ->]].
Qed.

End AccountProperties.

(** ** parking_finder_v2.py *)

Section FinderV2Properties.

Import Py Format Geo Effects FinderV2 FinderV2Props NavigationReadings Outcomes.
Import EffectsFacts FinderV2Facts NavigationFacts ArrivalFacts.

Lemma early_deal_ranking :
  find_top_parking 0 180 3 early_deal_world
  = Done [(cheap, 50); (dear, 150)] early_deal_world.
Proof.
  rewrite find_top_parking_free by reflexivity.
  f_equal. exact deal_ranking.
Qed.

Lemma far_from_the_far_side : haversine 0 0 0 180 > 5.
Proof. rewrite GeoFacts.haversine_half_equator. pose proof PI2_1. lra. Qed.

(** A re-route that the throttle suppresses is lost.  When the
    garage ranked first is not the one recommended before, but no more
    than 10 has passed since the last notification, the turn prints
    nothing, whether the old garage is full or not, and still takes the
    new garage as the one recommended.  So the next turn that ranks this
    garage first prints nothing either: the user is never told. *)
Theorem navigation_suppressed_reroute_is_lost :
  forall (get_directions : R -> R -> R -> R -> string -> option (list string * R * R))
         (dest_lat dest_lng duration : R) (st : nav_state) (w : world)
         (old_spot best : parking) (score : R) (rest : list (parking * R)),
    parking_lock w = false ->
    last_recommended st = Some old_spot ->
    find_top_parking dest_lat dest_lng 3 w = Done ((best, score) :: rest) w ->
    name best ≠ name old_spot ->
    clock w - last_notification_time st <= 10 ->
    exists st',
      navigation_turn get_directions dest_lat dest_lng duration st w = Done st' w
      ∧ last_recommended st' = Some best
      ∧ last_notification_time st' = last_notification_time st
      ∧ forall (w2 : world) best2 score2 rest2,
          parking_lock w2 = false ->
          find_top_parking dest_lat dest_lng 3 w2 = Done ((best2, score2) :: rest2) w2 ->
          name best2 = name best ->
          exists st'',
            navigation_turn get_directions dest_lat dest_lng duration st' w2
            = Done st'' w2.
Proof.
  intros get_directions dest_lat dest_lng duration st w old_spot best score rest
    Hw Hlast Htop Hname Hsoon.
  rewrite find_top_parking_free in Htop by done. injection Htop as Htop.
  eexists. split; [| split; [| split]].
  - unfold navigation_turn.
    unfold mbind at 1, M_bind at 1. rewrite find_top_parking_free, Htop by done.
    rewrite Hlast. cbv beta iota.
    destruct (decide (name best ≠ name old_spot)) as [_ | Hno]; [| done].
    unfold with_lock, mbind, M_bind, time_time, gets, mret, M_ret, print, modify.
    simpl. rewrite Hw. simpl. rewrite release_acquire_v2 by done.
    destruct (should_notify _ _ _ _ _) as [reason |]; [| reflexivity].
    rewrite decide_False by lra. reflexivity.
  - done.
  - done.
  - intros w2 best2 score2 rest2 Hw2 Htop2 Hname2.
    rewrite find_top_parking_free in Htop2 by done. injection Htop2 as Htop2.
    unfold navigation_turn.
    unfold mbind at 1, M_bind at 1. rewrite find_top_parking_free, Htop2 by done.
    cbn [last_recommended].
    destruct (decide (name best2 ≠ name best)) as [Hne | _]; [done |].
    unfold mbind, M_bind, time_time, gets, mret, M_ret. by eexists.
Qed.

Lemma navigation_suppressed_reroute_is_lost_witness :
  exists st',
    navigation_turn no_directions 0 180 1 deal_state early_deal_world
    = Done st' early_deal_world
    ∧ last_recommended st' = Some cheap.
Proof.
  destruct (navigation_suppressed_reroute_is_lost no_directions 0 180 1 deal_state
              early_deal_world dear cheap 50 [(dear, 150)])
    as (st' & Hturn & Hlast & _).
  - reflexivity.
  - reflexivity.
  - exact early_deal_ranking.
  - discriminate.
  - simpl. lra.
  - by exists st'.
Defined.

(** While no garage has a free place the user does not advance: a
    run that is more than 5 m from the destination and finds no free
    place at any of its turns prints one alert for each turn and ends,
    when it is cut, in the state it started in. *)
Theorem navigation_waits_without_parking :
  forall (get_directions : R -> R -> R -> R -> string -> option (list string * R * R))
         (dest_lat dest_lng duration : R) (env : list (list parking * R))
         (st : nav_state) (w : world),
    parking_lock w = false ->
    haversine (nav_lat st) (nav_lng st) dest_lat dest_lng > 5 ->
    (forall p, p ∈ parking_spots w -> (available_spots p <= 0)%Z) ->
    (forall e p, e ∈ env -> p ∈ e.1 -> (available_spots p <= 0)%Z) ->
    exists w',
      navigation_loop get_directions dest_lat dest_lng duration env st w = Done st w'
      ∧ length (stdout w') = (length (stdout w) + length env)%nat
      ∧ take (length (stdout w)) (stdout w') = stdout w
      ∧ Forall (λ l, l.2 = NoParkingAlert) (drop (length (stdout w)) (stdout w')).
Proof.
  intros get_directions dest_lat dest_lng duration env.
  induction env as [| e env IH]; intros st w Hw Hfar Hnone Henv; simpl.
  - rewrite decide_True by done. exists w.
    split; [done |]. split; [lia |]. rewrite take_ge, drop_all by done. done.
  - rewrite decide_True by done.
    pose proof (navigation_turn_state get_directions dest_lat dest_lng duration st w Hw) as Hturn.
    rewrite top_parking_none in Hturn by done.
    unfold mbind at 1, M_bind at 1. rewrite Hturn.
    unfold mbind at 1, M_bind at 1, elapse, modify.
    set (w1 := with_clock _ _).
    destruct (IH st w1) as (w' & Hrun & Hlen & Hold & Hall).
    + done.
    + done.
    + intros p Hp. apply (Henv e p); [apply list_elem_of_here | done].
    + intros e' p He' Hp. apply (Henv e' p); [by apply list_elem_of_further | done].
    + exists w'. split; [done |].
      simpl in Hlen, Hold, Hall. rewrite length_app in Hlen, Hold, Hall. simpl in *.
      split; [lia |].
      assert (stdout w' = (stdout w ++ [(clock w, NoParkingAlert)])
                          ++ drop (length (stdout w) + 1) (stdout w')) as Heq.
      { rewrite <- Hold at 1. by rewrite take_drop. }
      rewrite Heq, <- app_assoc. rewrite take_app_length, drop_app_length.
      split; [done |]. apply Forall_cons. split; [done | done].
Qed.

Lemma navigation_waits_without_parking_witness :
  exists w',
    navigation_loop no_directions 0 180 1 [([], 1)] deal_state nowhere_world
    = Done deal_state w'
    ∧ length (stdout w') = 1%nat.
Proof.
  destruct (navigation_waits_without_parking no_directions 0 180 1 [([], 1)]
              deal_state nowhere_world) as (w' & Hrun & Hlen & _).
  - reflexivity.
  - exact far_from_the_far_side.
  - intros p Hp. by apply elem_of_nil in Hp.
  - intros e p He Hp. apply list_elem_of_singleton in He as ->.
    by apply elem_of_nil in Hp.
  - by exists w'.
Defined.

(** A run that starts within 5 m of the destination raises
    [TypeError]: the loop is not entered, and the last lines read the
    name of a recommendation that was never made.  A run that starts
    farther away does not raise. *)
Theorem navigation_raises_when_started_at_destination :
  forall (get_directions : R -> R -> R -> R -> string -> option (list string * R * R))
         (user_lat user_lng dest_lat dest_lng duration : R)
         (env : list (list parking * R)) (w : world),
    parking_lock w = false ->
    (haversine user_lat user_lng dest_lat dest_lng <= 5 ->
     exists w',
       simulate_user_navigation get_directions user_lat user_lng dest_lat dest_lng
         duration env w
       = Raised TypeError w'
       ∧ parking_spots w' = parking_spots w)
    ∧ (haversine user_lat user_lng dest_lat dest_lng > 5 ->
       exists st' w',
         simulate_user_navigation get_directions user_lat user_lng dest_lat dest_lng
           duration env w
         = Done st' w').
Proof.
  intros get_directions user_lat user_lng dest_lat dest_lng duration env w Hw.
  unfold simulate_user_navigation.
  unfold mbind at 1, M_bind at 1, time_time, gets.
  unfold mbind at 1, M_bind at 1, print, modify.
  split.
  - intros Hnear. destruct env as [| e env]; simpl;
      rewrite decide_False by lra; by eexists.
  - intros Hfar. by apply navigation_loop_returns.
Qed.

Lemma navigation_raises_when_started_at_destination_witness :
  exists w',
    simulate_user_navigation no_directions 0 0 0 0 1 [] (initial_world 0)
    = Raised TypeError w'.
Proof.
  destruct (navigation_raises_when_started_at_destination no_directions 0 0 0 0 1 []
              (initial_world 0) eq_refl) as [Hnear _].
  destruct Hnear as (w' & Hrun & _).
  - rewrite GeoFacts.haversine_same. lra.
  - by exists w'.
Defined.

(** Where the user is when a run ends.  Each turn that finds a
    location with a free place moves the user 8 percent of the way that
    is left, in latitude and in longitude, and a turn that finds none
    does not move.  A run that returns has made some number [n] of
    turns, at most the number of sleeps; what is left of the way is then
    0.92 to the power [k] of what it was, where [k] is the number of
    those [n] turns whose catalog had a free place.  The turns are made
    while the user is more than 5 m from the destination, and the run
    makes fewer turns than there are sleeps only when it has arrived. *)
Theorem navigation_advances_by_steps :
  forall (get_directions : R -> R -> R -> R -> string -> option (list string * R * R))
         (dest_lat dest_lng duration : R) (env : list (list parking * R))
         (st st' : nav_state) (w w' : world),
    parking_lock w = false ->
    navigation_loop get_directions dest_lat dest_lng duration env st w = Done st' w' ->
    exists n : nat,
      (n <= length env)%nat
      ∧ (let k := turns_with_parking (take n (catalogs w env)) in
         dest_lat - nav_lat st' = 0.92 ^ k * (dest_lat - nav_lat st)
         ∧ dest_lng - nav_lng st' = 0.92 ^ k * (dest_lng - nav_lng st))
      ∧ (forall m, (m < n)%nat ->
           let at_m :=
             after_moves dest_lat dest_lng st
               (turns_with_parking (take m (catalogs w env))) in
           haversine at_m.1 at_m.2 dest_lat dest_lng > 5)
      ∧ ((n < length env)%nat ->
         haversine (nav_lat st') (nav_lng st') dest_lat dest_lng <= 5).
Proof.
  intros get_directions dest_lat dest_lng duration env.
  induction env as [| e env IH]; intros st st' w w' Hw Hrun; simpl in Hrun.
  - exists 0%nat. simpl.
    assert (st' = st) as ->.
    { case_decide.
      - by injection Hrun as <- _.
      - destruct (last_recommended st); [| done].
        unfold mbind, M_bind, print, modify, mret, M_ret in Hrun.
        by injection Hrun as <- _. }
    split; [lia |]. split; [split; lra |]. split; intros; lia.
  - case_decide as Hfar.
    + pose proof (navigation_turn_state get_directions dest_lat dest_lng duration st w Hw)
        as Hturn.
      unfold mbind at 1, M_bind at 1 in Hrun.
      destruct (top_parking w dest_lat dest_lng 3) as [| [best score] rest] eqn:Htop.
      * assert (available (parking_spots w) = []) as Hnone.
        { destruct (available (parking_spots w)) as [| p l] eqn:Hav; [done |].
          assert (p ∈ available (parking_spots w)) as Hp
            by (rewrite Hav; apply list_elem_of_here).
          apply available_spec in Hp as [Hin Hpos].
          destruct (top_parking_some w dest_lat dest_lng 3 p)
            as (? & ? & ? & Hsome); [lia | done | done |].
          congruence. }
        rewrite Hturn in Hrun.
        unfold mbind at 1, M_bind at 1, elapse, modify in Hrun.
        apply IH in Hrun as (n & Hn & [Hlat Hlng] & Hbefore & Hstop); [| done].
        exists (S n). unfold catalogs, after_moves in *. rewrite fmap_cons.
        cbn [firstn turns_with_parking length fst snd
             parking_spots with_clock with_parking_spots with_stdout] in *.
        rewrite Hnone.
        cbn [Nat.add] in *.
        split; [lia |]. split; [done |]. split.
        -- intros [| m] Hm; cbn [firstn turns_with_parking pow].
           ++ replace (dest_lat - 1 * (dest_lat - nav_lat st)) with (nav_lat st) by lra.
              replace (dest_lng - 1 * (dest_lng - nav_lng st)) with (nav_lng st) by lra.
              done.
           ++ rewrite Hnone. cbn [Nat.add]. apply Hbefore. lia.
        -- intros Hlt. apply Hstop. lia.
      * assert (exists p l, available (parking_spots w) = p :: l) as (p & l & Hsome).
        { destruct (available (parking_spots w)) as [| p l] eqn:Hav; [| by eauto].
          pose proof (top_parking_available w dest_lat dest_lng 3 (best, score)) as Hhead.
          rewrite Htop in Hhead. destruct (Hhead (list_elem_of_here _ _)) as (Hin & Hpos & _).
          assert (best ∈ available (parking_spots w)) as Hbest by by apply available_spec.
          rewrite Hav in Hbest. by apply elem_of_nil in Hbest. }
        destruct Hturn as (t & out & Hturn). rewrite Hturn in Hrun.
        unfold mbind at 1, M_bind at 1, elapse, modify in Hrun.
        apply IH in Hrun as (n & Hn & [Hlat Hlng] & Hbefore & Hstop); [| done].
        exists (S n). unfold catalogs, after_moves in *. rewrite fmap_cons.
        cbn [firstn turns_with_parking length fst snd nav_lat nav_lng
             parking_spots with_clock with_parking_spots with_stdout] in *.
        rewrite Hsome. cbn [Nat.add pow] in *.
        split; [lia |]. split; [split; lra |]. split.
        -- intros [| m] Hm; cbn [firstn turns_with_parking pow].
           ++ replace (dest_lat - 1 * (dest_lat - nav_lat st)) with (nav_lat st) by lra.
              replace (dest_lng - 1 * (dest_lng - nav_lng st)) with (nav_lng st) by lra.
              done.
           ++ rewrite Hsome. cbn [Nat.add pow].
              specialize (Hbefore m ltac:(lia)).
              match goal with
              | H : haversine ?a ?b _ _ > 5 |- haversine ?c ?d _ _ > 5 =>
                  replace c with a by lra; replace d with b by lra; exact H
              end.
        -- intros Hlt. apply Hstop. lia.
    + exists 0%nat. simpl.
      assert (st' = st) as ->.
      { destruct (last_recommended st); [| done].
        unfold mbind, M_bind, print, modify, mret, M_ret in Hrun.
        by injection Hrun as <- _. }
      split; [lia |]. split; [split; lra |]. split; [intros; lia |].
      intros _. lra.
Qed.

Lemma navigation_advances_by_steps_witness :
  parking_lock deal_world = false
  ∧ exists st' w',
      navigation_loop no_directions 0 180 1 [([dear; cheap], 16)] deal_state deal_world
        = Done st' w'
      ∧ 0 - nav_lat st' = 0.92 ^ 1 * (0 - nav_lat deal_state)
      ∧ 180 - nav_lng st' = 0.92 ^ 1 * (180 - nav_lng deal_state).
Proof.
  split; [reflexivity |].
  destruct (navigation_loop_returns no_directions 0 180 1 [([dear; cheap], 16)]
              deal_state deal_world eq_refl) as (st' & w' & Hrun); [done |].
  exists st', w'. split; [exact Hrun |].
  destruct (navigation_advances_by_steps no_directions 0 180 1 [([dear; cheap], 16)]
              deal_state st' deal_world w' eq_refl Hrun)
    as (n & Hn & Hway & _ & Hstop).
  destruct n as [| n].
  - simpl in Hway, Hstop. destruct Hway as [Hlat Hlng].
    specialize (Hstop ltac:(lia)).
    pose proof far_from_the_far_side as Hfar.
    replace (nav_lat st') with 0 in Hstop by lra.
    replace (nav_lng st') with 0 in Hstop by lra.
    lra.
  - destruct n as [| n]; [| simpl in Hn; lia].
    exact Hway.
Defined.

(** The answers of [/current_parking] to a request whose parameters
    convert.  It is 404 when no garage has a free place.  Otherwise it is
    200, whatever the directions service does: the best parking is the
    first entry of [find_top_parking], a garage with a free place that no
    other such garage beats on score; the alternatives are the entries
    after it, at most two; either list of steps has at most 10 entries;
    and when the service gives no route, the steps are one sentence with
    the haversine distance and the duration is unknown. *)
Theorem current_parking_answers :
  forall (get_directions : R -> R -> R -> R -> string -> option (list string * R * R))
         (float_of_str : string -> option R)
         (args : gmap string string) (w : world)
         (user_lat user_lng dest_lat dest_lng duration : R),
    parking_lock w = false ->
    parse_args float_of_str args
      = inr (user_lat, user_lng, dest_lat, dest_lng, duration) ->
    ((forall p, p ∈ parking_spots w -> (available_spots p <= 0)%Z) ->
     current_parking get_directions float_of_str args w = Done NotFound w)
    ∧ (forall p0, p0 ∈ parking_spots w -> (0 < available_spots p0)%Z ->
       exists best score rest body,
         find_top_parking dest_lat dest_lng 3 w = Done ((best, score) :: rest) w
         ∧ current_parking get_directions float_of_str args w = Done (Ok body) w
         ∧ best ∈ parking_spots w ∧ (0 < available_spots best)%Z
         ∧ (forall p, p ∈ parking_spots w -> (0 < available_spots p)%Z ->
              score_parking best dest_lat dest_lng alpha_default
              <= score_parking p dest_lat dest_lng alpha_default)
         ∧ bp_name (best_parking body) = name best
         ∧ FinderV2.score body
           = round (score_parking best dest_lat dest_lng alpha_default) 2
         ∧ alt_name <$> alternatives body = (λ x, name x.1) <$> rest
         ∧ (length (alternatives body) <= 2)%nat
         ∧ (length (route_steps (directions_to_parking body)) <= 10)%nat
         ∧ (length (route_steps (walk_to_destination body)) <= 10)%nat
         ∧ (get_directions user_lat user_lng (lat best) (lng best) "driving" = None ->
            let d := haversine user_lat user_lng (lat best) (lng best) in
            directions_to_parking body
            = {| route_steps := [DriveApproximately (format_distance d) (name best)];
                 route_duration := None;
                 route_distance :=
                   if decide (d = 0) then None else Some (format_distance d);
                 route_warning := false |})
         ∧ (get_directions (lat best) (lng best) dest_lat dest_lng "walking" = None ->
            let d := haversine (lat best) (lng best) dest_lat dest_lng in
            walk_to_destination body
            = {| route_steps := [WalkApproximately (format_distance d)];
                 route_duration := None;
                 route_distance := Some (format_distance d);
                 route_warning := bool_decide (d > 500) |})).
Proof.
  intros get_directions float_of_str args w user_lat user_lng dest_lat dest_lng duration Hw Hparse. split.
  - intros Hnone. unfold current_parking. rewrite Hparse.
    unfold mbind at 1, M_bind at 1.
    by rewrite find_top_parking_free, top_parking_none.
  - intros p0 Hp0 Hpos0.
    destruct (top_parking_some w dest_lat dest_lng 3 p0 ltac:(lia) Hp0 Hpos0)
      as (best & score & rest & Htop).
    pose proof (top_parking_head _ _ _ _ _ _ _ Htop) as (Hin & Hpos & Hscore & Hmin).
    pose proof (top_parking_length _ _ _ _ _ _ Htop) as Hlen.
    exists best, score, rest.
    unfold current_parking. rewrite Hparse.
    unfold mbind at 1, M_bind at 1. rewrite find_top_parking_free, Htop by done.
    destruct (get_directions user_lat user_lng (lat best) (lng best) "driving")
      as [[[dsteps dsec] dm] |];
      destruct (get_directions (lat best) (lng best) dest_lat dest_lng "walking")
        as [[[wsteps wsec] wm] |];
      (eexists; split; [done |]; split; [reflexivity |];
       split; [done |]; split; [done |]; split; [done |];
       split; [reflexivity |]; split; [by rewrite Hscore |];
       split; [apply alternative_names |];
       split; [simpl; by rewrite length_fmap |];
       split; [simpl; rewrite ?length_take; lia |];
       split; [simpl; rewrite ?length_take; lia |];
       split; [try done | try done]).
    + intros _. cbv zeta. simpl. f_equal. unfold truthy. simpl. by case_decide.
    + intros _. cbv zeta. simpl. f_equal. unfold truthy. simpl. by case_decide.
Qed.

Lemma current_parking_answers_witness :
  exists best score rest body,
    find_top_parking 0 0 3 (initial_world 0)
    = Done ((best, score) :: rest) (initial_world 0)
    ∧ current_parking no_directions zero_of_str origin_args (initial_world 0)
      = Done (Ok body) (initial_world 0).
Proof.
  destruct (current_parking_answers no_directions zero_of_str origin_args
              (initial_world 0) 0 0 0 0 1 eq_refl) as [_ Hsome]; [reflexivity |].
  destruct (Hsome (hd dear (parking_spots (initial_world 0))))
    as (best & score & rest & body & Htop & Hanswer & _).
  - apply list_elem_of_here.
  - simpl. lia.
  - by exists best, score, rest, body.
Defined.

(** The run arrives while parking lasts.  For every trip there is a
    number [N] of turns, depending on the trip alone, such that a run
    that starts more than 5 m from the destination, finds a garage with
    a free place at every turn and is followed for at least [N] sleeps
    returns: the user is within 5 m of the destination, and the last
    lines printed name the garage recommended last. *)
Theorem navigation_arrives_while_parking_lasts :
  forall user_lat user_lng dest_lat dest_lng : R,
    exists N : nat,
      forall (get_directions : R -> R -> R -> R -> string -> option (list string * R * R))
             (duration : R) (env : list (list parking * R)) (w : world),
        parking_lock w = false ->
        haversine user_lat user_lng dest_lat dest_lng > 5 ->
        (N <= length env)%nat ->
        (exists p, p ∈ parking_spots w ∧ (0 < available_spots p)%Z) ->
        (forall e, e ∈ env -> exists p, p ∈ e.1 ∧ (0 < available_spots p)%Z) ->
        exists st' w' p,
          simulate_user_navigation get_directions user_lat user_lng dest_lat dest_lng
            duration env w
          = Done st' w'
          ∧ last_recommended st' = Some p
          ∧ haversine (nav_lat st') (nav_lng st') dest_lat dest_lng <= 5
          ∧ last (stdout w') = Some (clock w', Arrived (name p)).
Proof.
  intros user_lat user_lng dest_lat dest_lng.
  destruct (approach (dest_lat - user_lat) (dest_lng - user_lng)) as [N HN].
  exists N. intros get_directions duration env w Hw Hfar Hlen Hspot Henv.
  unfold simulate_user_navigation.
  unfold mbind at 1, M_bind at 1, time_time, gets.
  unfold mbind at 1, M_bind at 1, print, modify.
  apply (navigation_loop_arrives get_directions dest_lat dest_lng duration
           (dest_lat - user_lat) (dest_lng - user_lng) N) with (k := 0%nat);
    try done.
  - intros k lat lng Hk Hlat Hlng. by apply (HN k).
  - simpl. lra.
  - simpl. lra.
Qed.

Lemma navigation_arrives_while_parking_lasts_witness :
  exists (N : nat) st' w' p,
    simulate_user_navigation no_directions 0 0 0 180 1
      (replicate N ([dear; cheap], 0)) deal_world
    = Done st' w'
    ∧ last_recommended st' = Some p.
Proof.
  destruct (navigation_arrives_while_parking_lasts 0 0 0 180) as [N Harrives].
  destruct (Harrives no_directions 1 (replicate N ([dear; cheap], 0)) deal_world)
    as (st' & w' & p & Hrun & Hlast & _).
  - reflexivity.
  - exact far_from_the_far_side.
  - by rewrite length_replicate.
  - exists dear. split; [apply list_elem_of_here | simpl; lia].
  - intros e He. apply elem_of_replicate in He as [-> _].
    exists dear. split; [apply list_elem_of_here | simpl; lia].
  - by exists N, st', w', p.
Defined.

End FinderV2Properties.
